(** * AdvancedCache (tools/advanced-cache.js): a shallow embedding

    The two-tier response cache of chat-llm, embedded function by function.

    Conventions of the embedding.
    - JavaScript strings are byte strings ([string]); on ASCII text a byte is
      a UTF-16 code unit, so [String.length], [toLowerCase] and the
      whitespace class agree with the engine there.
    - JavaScript integers (sizes, budgets, counters, millisecond
      timestamps) are [Z]; the two places where the code divides
      ([getStats], [calculateSimilarity]) use binary64 floats ([float]).
    - A [Map] is an association list in insertion order ([JsMap]).
    - [Date.now()] is the argument [now] of each public method: the clock
      reads of one call are taken to return the same millisecond.  (They
      differ when the millisecond turns during the call; [set_reads] is
      [set] with one value for each of its three reads.)
    - A method is a function from the cache to a completion (normal or
      thrown) and the cache it leaves behind ([M]).
    - zlib and the RegExp engine are the runtime's; they are the fields of
      the class [Runtime].  SHA-256 and JSON are written out. *)

From Stdlib Require Import ZArith List String Ascii Bool Lia.
From Stdlib Require Import DecimalString DecimalPos DecimalZ Floats Uint63.
Import ListNotations.

Local Open Scope string_scope.
Local Open Scope list_scope.
Local Open Scope Z_scope.

(* ------------------------------------------------------------------ *)
(** ** Completions: a call returns normally or throws *)

Inductive exn : Type :=
| TypeError (msg : string)
| SyntaxError (msg : string)
| ZlibError (msg : string).

Inductive completion (A : Type) : Type :=
| Normal (a : A)
| Throw (e : exn).
Arguments Normal {A} a.
Arguments Throw {A} e.

Definition cbind {A B} (r : completion A) (k : A -> completion B) : completion B :=
  match r with
  | Normal a => k a
  | Throw e => Throw e
  end.

(* ------------------------------------------------------------------ *)
(** ** Byte strings *)

Definition code (c : ascii) : Z := Z.of_N (N_of_ascii c).
Definition chr (z : Z) : ascii := ascii_of_N (Z.to_N z).

Fixpoint bytes_of (s : string) : list Z :=
  match s with
  | EmptyString => []
  | String c s' => code c :: bytes_of s'
  end.

Definition strlen (s : string) : Z := Z.of_nat (String.length s).

Definition hex_digit (z : Z) : ascii :=
  if z <? 10 then chr (48 + z) else chr (87 + z).

(** [width] hexadecimal digits of [z], most significant first. *)
Fixpoint hex_of (width : nat) (z : Z) : string :=
  match width with
  | O => ""
  | S w => (hex_of w (Z.shiftr z 4) ++ String (hex_digit (Z.land z 15)) "")%string
  end.

Definition decimal (z : Z) : string := NilZero.string_of_int (Z.to_int z).

(* ------------------------------------------------------------------ *)
(** ** SHA-256 (FIPS 180-4), the digest behind [hashKey] *)

Module SHA256.

Definition wrap (x : Z) : Z := Z.land x (Z.ones 32).
Definition add32 (x y : Z) : Z := wrap (x + y).
Definition rotr (n x : Z) : Z :=
  Z.lor (Z.shiftr x n) (wrap (Z.shiftl x (32 - n))).
Definition xor3 (x y z : Z) : Z := Z.lxor (Z.lxor x y) z.

Definition Ch (x y z : Z) : Z :=
  Z.lxor (Z.land x y) (Z.land (Z.lxor x (Z.ones 32)) z).
Definition Maj (x y z : Z) : Z :=
  xor3 (Z.land x y) (Z.land x z) (Z.land y z).
Definition Sum0 (x : Z) : Z := xor3 (rotr 2 x) (rotr 13 x) (rotr 22 x).
Definition Sum1 (x : Z) : Z := xor3 (rotr 6 x) (rotr 11 x) (rotr 25 x).
Definition sig0 (x : Z) : Z := xor3 (rotr 7 x) (rotr 18 x) (Z.shiftr x 3).
Definition sig1 (x : Z) : Z := xor3 (rotr 17 x) (rotr 19 x) (Z.shiftr x 10).

(** The constants are fractional parts of roots of the first primes; they
    are computed here rather than tabulated. *)
Definition is_prime (p : Z) : bool :=
  forallb (fun d => negb (p mod d =? 0))
          (map Z.of_nat (seq 2 (Z.to_nat p - 2))).

Definition primes : list Z :=
  filter is_prime (map Z.of_nat (seq 2 310)).

Fixpoint cube_root_bits (k : nat) (r n : Z) : Z :=
  match k with
  | O => r
  | S k' =>
      let r' := r + 2 ^ Z.of_nat k' in
      cube_root_bits k' (if r' * r' * r' <=? n then r' else r) n
  end.

Definition cube_root (n : Z) : Z := cube_root_bits 48 0 n.

Definition K : list Z :=
  Eval vm_compute in map (fun p => wrap (cube_root (p * 2 ^ 96))) primes.

Definition H0 : list Z :=
  Eval vm_compute in map (fun p => wrap (Z.sqrt (p * 2 ^ 64))) (firstn 8 primes).

(** Padding: a 1 bit, zeros up to 56 mod 64 bytes, the bit length on 8
    bytes. *)
Definition be_bytes (n : nat) (z : Z) : list Z :=
  map (fun i => Z.land (Z.shiftr z (8 * Z.of_nat i)) 255) (rev (seq 0 n)).

Definition pad (msg : list Z) : list Z :=
  let len := Z.of_nat (List.length msg) in
  let zeros := Z.to_nat ((55 - len) mod 64) in
  msg ++ [128] ++ repeat 0 zeros ++ be_bytes 8 (8 * len).

Fixpoint be_words (n : nat) (bs : list Z) : list Z :=
  match n, bs with
  | S n', b0 :: b1 :: b2 :: b3 :: rest =>
      (Z.shiftl b0 24 + Z.shiftl b1 16 + Z.shiftl b2 8 + b3) :: be_words n' rest
  | _, _ => []
  end.

(** The message schedule, most recent word first. *)
Fixpoint schedule (n : nat) (rw : list Z) : list Z :=
  match n with
  | O => rw
  | S n' =>
      let w := add32 (add32 (sig1 (nth 1 rw 0)) (nth 6 rw 0))
                     (add32 (sig0 (nth 14 rw 0)) (nth 15 rw 0)) in
      schedule n' (w :: rw)
  end.

Definition regs : Type := (Z * Z * Z * Z * Z * Z * Z * Z)%type.

Definition round (s : regs) (kw : Z * Z) : regs :=
  let '(a, b, c, d, e, f, g, h) := s in
  let t1 := add32 (add32 (add32 h (Sum1 e)) (add32 (Ch e f g) (fst kw))) (snd kw) in
  let t2 := add32 (Sum0 a) (Maj a b c) in
  (add32 t1 t2, a, b, c, add32 d t1, e, f, g).

Definition regs_of (l : list Z) : regs :=
  (nth 0 l 0, nth 1 l 0, nth 2 l 0, nth 3 l 0,
   nth 4 l 0, nth 5 l 0, nth 6 l 0, nth 7 l 0).

Definition list_of (s : regs) : list Z :=
  let '(a, b, c, d, e, f, g, h) := s in [a; b; c; d; e; f; g; h].

Definition compress_block (h : list Z) (block : list Z) : list Z :=
  let w := rev (schedule 48 (rev (be_words 16 block))) in
  let s := fold_left round (combine K w) (regs_of h) in
  map (fun p => add32 (fst p) (snd p)) (combine h (list_of s)).

Fixpoint blocks (n : nat) (h : list Z) (bs : list Z) : list Z :=
  match n with
  | O => h
  | S n' => blocks n' (compress_block h (firstn 64 bs)) (skipn 64 bs)
  end.

Definition digest (msg : list Z) : list Z :=
  let p := pad msg in
  blocks (List.length p / 64) H0 p.

Definition hexdigest (s : string) : string :=
  fold_right (fun w acc => (hex_of 8 w ++ acc)%string) "" (digest (bytes_of s)).

End SHA256.

(** [hashKey(key)]: [crypto.createHash('sha256').update(key).digest('hex')]. *)
Definition hashKey (key : string) : string := SHA256.hexdigest key.

(* ------------------------------------------------------------------ *)
(** ** JSON values, [JSON.stringify] and [JSON.parse]

    Numbers are the integers (printed in plain decimal, as the engine does
    below 1e21); object fields keep their insertion order. *)

#[warnings="-register-all"]
Inductive json : Type :=
| JNull
| JBool (b : bool)
| JNum (n : Z)
| JStr (s : string)
| JArr (items : list json)
| JObj (fields : list (string * json)).

Definition dquote : ascii := "034"%char.
Definition backslash : ascii := "092"%char.

Definition str1 (c : ascii) : string := String c "".

Definition escape_char (c : ascii) : string :=
  let n := code c in
  if n =? 34 then String backslash (str1 dquote)
  else if n =? 92 then String backslash (str1 backslash)
  else if n =? 8 then String backslash "b"
  else if n =? 9 then String backslash "t"
  else if n =? 10 then String backslash "n"
  else if n =? 12 then String backslash "f"
  else if n =? 13 then String backslash "r"
  else if n <? 32 then (String backslash "u00" ++ hex_of 2 n)%string
  else str1 c.

Fixpoint escape (s : string) : string :=
  match s with
  | EmptyString => ""
  | String c s' => (escape_char c ++ escape s')%string
  end.

Definition quote (s : string) : string :=
  (str1 dquote ++ escape s ++ str1 dquote)%string.

Fixpoint join (sep : string) (l : list string) : string :=
  match l with
  | [] => ""
  | [x] => x
  | x :: rest => (x ++ sep ++ join sep rest)%string
  end.

(** Truthiness, as [||] and [if] test a value. *)
Definition truthy (v : json) : bool :=
  match v with
  | JNull => false
  | JBool b => b
  | JNum n => negb (n =? 0)
  | JStr s => negb (String.eqb s "")
  | JArr _ | JObj _ => true
  end.

Fixpoint JSON_stringify (v : json) : string :=
  match v with
  | JNull => "null"
  | JBool true => "true"
  | JBool false => "false"
  | JNum n => decimal n
  | JStr s => quote s
  | JArr items => ("[" ++ join "," (map JSON_stringify items) ++ "]")%string
  | JObj fields =>
      ("{" ++ join "," (map (fun kv => (quote (fst kv) ++ ":" ++ JSON_stringify (snd kv))%string)
                            fields) ++ "}")%string
  end.

Module JsonParse.

Definition is_ws (c : ascii) : bool :=
  let n := code c in (n =? 32) || (n =? 9) || (n =? 10) || (n =? 13).

Fixpoint skip_ws (s : string) : string :=
  match s with
  | String c r => if is_ws c then skip_ws r else s
  | EmptyString => s
  end.

Definition hex_val (c : ascii) : option Z :=
  let n := code c in
  if (48 <=? n) && (n <=? 57) then Some (n - 48)
  else if (97 <=? n) && (n <=? 102) then Some (n - 87)
  else if (65 <=? n) && (n <=? 70) then Some (n - 55)
  else None.

Definition unescape (e : ascii) : option ascii :=
  let n := code e in
  if n =? 34 then Some dquote
  else if n =? 92 then Some backslash
  else if n =? 47 then Some "/"%char
  else if n =? 98 then Some (chr 8)
  else if n =? 116 then Some (chr 9)
  else if n =? 110 then Some (chr 10)
  else if n =? 102 then Some (chr 12)
  else if n =? 114 then Some (chr 13)
  else None.

(** The characters after an opening quote, up to the closing one. *)
Fixpoint string_body (s : string) : option (string * string) :=
  match s with
  | EmptyString => None
  | String c r =>
      if code c =? 34 then Some ("", r)
      else if code c =? 92 then
        match r with
        | String "u" (String h3 (String h2 (String h1 (String h0 r')))) =>
            match hex_val h3, hex_val h2, hex_val h1, hex_val h0, string_body r' with
            | Some 0, Some 0, Some a, Some b, Some (body, rest) =>
                Some (String (chr (16 * a + b)) body, rest)
            | _, _, _, _, _ => None
            end
        | String e r' =>
            match unescape e, string_body r' with
            | Some c', Some (body, rest) => Some (String c' body, rest)
            | _, _ => None
            end
        | EmptyString => None
        end
      else if code c <? 32 then None
      else
        match string_body r with
        | Some (body, rest) => Some (String c body, rest)
        | None => None
        end
  end.

Definition is_digit (c : ascii) : bool := (48 <=? code c) && (code c <=? 57).

Fixpoint digits (s : string) (acc : Z) : Z * string :=
  match s with
  | String c r => if is_digit c then digits r (10 * acc + (code c - 48)) else (acc, s)
  | EmptyString => (acc, s)
  end.

Definition number (s : string) : option (json * string) :=
  match s with
  | String "-" (String c r) =>
      if is_digit c then
        let '(n, rest) := digits (String c r) 0 in Some (JNum (- n), rest)
      else None
  | String c _ =>
      if is_digit c then
        let '(n, rest) := digits s 0 in Some (JNum n, rest)
      else None
  | EmptyString => None
  end.

Definition literal (word : string) (v : json) (s : string) : option (json * string) :=
  if String.eqb (substring 0 (String.length word) s) word
  then Some (v, substring (String.length word) (String.length s) s)
  else None.

Section Composite.
Variable value : string -> option (json * string).

(** After an element: a comma and the next element, or the closing
    bracket. *)
Fixpoint items (n : nat) (s : string) : option (list json * string) :=
  match n with
  | O => None
  | S n' =>
      match value s with
      | Some (v, rest) =>
          match skip_ws rest with
          | String "," rest' =>
              match items n' rest' with
              | Some (vs, rest'') => Some (v :: vs, rest'')
              | None => None
              end
          | String "]" rest' => Some ([v], rest')
          | _ => None
          end
      | None => None
      end
  end.

Definition field (s : string) : option ((string * json) * string) :=
  match skip_ws s with
  | String c r =>
      if code c =? 34 then
        match string_body r with
        | Some (k, rest) =>
            match skip_ws rest with
            | String ":" rest' =>
                match value rest' with
                | Some (v, rest'') => Some ((k, v), rest'')
                | None => None
                end
            | _ => None
            end
        | None => None
        end
      else None
  | EmptyString => None
  end.

Fixpoint fields (n : nat) (s : string) : option (list (string * json) * string) :=
  match n with
  | O => None
  | S n' =>
      match field s with
      | Some (kv, rest) =>
          match skip_ws rest with
          | String "," rest' =>
              match fields n' rest' with
              | Some (kvs, rest'') => Some (kv :: kvs, rest'')
              | None => None
              end
          | String "}" rest' => Some ([kv], rest')
          | _ => None
          end
      | None => None
      end
  end.
End Composite.

Fixpoint value (fuel : nat) (s : string) : option (json * string) :=
  match fuel with
  | O => None
  | S fuel' =>
      match skip_ws s with
      | EmptyString => None
      | String c r as s' =>
          if code c =? 34 then
            match string_body r with
            | Some (str, rest) => Some (JStr str, rest)
            | None => None
            end
          else if code c =? 91 then
            match skip_ws r with
            | String "]" rest => Some (JArr [], rest)
            | _ =>
                match items (value fuel') (String.length r) r with
                | Some (vs, rest) => Some (JArr vs, rest)
                | None => None
                end
            end
          else if code c =? 123 then
            match skip_ws r with
            | String "}" rest => Some (JObj [], rest)
            | _ =>
                match fields (value fuel') (String.length r) r with
                | Some (kvs, rest) => Some (JObj kvs, rest)
                | None => None
                end
            end
          else if code c =? 110 then literal "null" JNull s'
          else if code c =? 116 then literal "true" (JBool true) s'
          else if code c =? 102 then literal "false" (JBool false) s'
          else number s'
      end
  end.

End JsonParse.

Definition JSON_parse (s : string) : completion json :=
  match JsonParse.value (S (String.length s)) s with
  | Some (v, rest) =>
      match JsonParse.skip_ws rest with
      | EmptyString => Normal v
      | _ => Throw (SyntaxError "Unexpected non-whitespace character after JSON")
      end
  | None => Throw (SyntaxError "Unexpected token in JSON")
  end.

Definition sample_json : json :=
  JObj [("answer", JStr "Paris"); ("tags", JArr [JNum 1; JNum (-20); JBool true; JNull]);
        ("note", JStr (String "010" (String backslash "x")))].

(* ------------------------------------------------------------------ *)
(** ** The runtime: zlib and RegExp

    [deflate_base64 s] is [zlib.deflateSync(s).toString('base64')] and
    [inflate_base64 s] is
    [zlib.inflateSync(Buffer.from(s, 'base64')).toString('utf8')]; deflate is
    lossless.  [RegExp_new] is [new RegExp(pattern)], which throws a
    [SyntaxError] on a malformed pattern; [RegExp_test] is [regex.test]
    (no [g] flag: it keeps no state). *)

Class Runtime : Type := {
  deflate_base64 : string -> string;
  inflate_base64 : string -> completion string;
  inflate_deflate : forall s, inflate_base64 (deflate_base64 s) = Normal s;
  regexp : Type;
  RegExp_new : string -> completion regexp;
  RegExp_test : regexp -> string -> bool
}.

(* ------------------------------------------------------------------ *)
(** ** [Map]: keys in insertion order *)

Module JsMap.
Section Ops.
Context {V : Type}.

Definition t : Type := list (string * V).

Definition empty : t := [].

Fixpoint get (k : string) (m : t) : option V :=
  match m with
  | [] => None
  | (k', v) :: rest => if String.eqb k k' then Some v else get k rest
  end.

Definition has (k : string) (m : t) : bool :=
  match get k m with Some _ => true | None => false end.

(** An existing key keeps its place; a new key goes last. *)
Fixpoint set (k : string) (v : V) (m : t) : t :=
  match m with
  | [] => [(k, v)]
  | (k', v') :: rest =>
      if String.eqb k k' then (k, v) :: rest else (k', v') :: set k v rest
  end.

Definition delete (k : string) (m : t) : t :=
  filter (fun kv => negb (String.eqb k (fst kv))) m.

Definition values (m : t) : list V := map snd m.
Definition keys (m : t) : list string := map fst m.
Definition size (m : t) : Z := Z.of_nat (List.length m).
End Ops.
Arguments t V : clear implicits.
End JsMap.

(* ------------------------------------------------------------------ *)
(** ** Entries and the cache object *)

Module Entry.
Record t : Type := mk {
  key : string;
  value : json;
  hash : string;
  timestamp : Z;
  ttl : Z;
  expiresAt : Z;
  accessCount : Z;
  lastAccess : Z;
  compressed : bool;
  metadata : json
}.

(** [entry.accessCount = n; entry.lastAccess = now]. *)
Definition touch (n now : Z) (e : t) : t :=
  mk (key e) (value e) (hash e) (timestamp e) (ttl e) (expiresAt e)
     n now (compressed e) (metadata e).
End Entry.

Record stats_t : Type := mk_stats {
  hits : Z;
  misses : Z;
  compression : Z;
  evictions : Z
}.

Record cache : Type := mk_cache {
  memoryCache : JsMap.t Entry.t;
  diskCache : JsMap.t Entry.t;
  storageDir : string;
  maxMemorySize : Z;
  maxDiskSize : Z;
  compressionThreshold : Z;
  ttl : Z;
  semanticThreshold : float;
  stats : stats_t
}.

Definition with_memoryCache (m : JsMap.t Entry.t) (c : cache) : cache :=
  mk_cache m (diskCache c) (storageDir c) (maxMemorySize c) (maxDiskSize c)
           (compressionThreshold c) (ttl c) (semanticThreshold c) (stats c).

Definition with_diskCache (d : JsMap.t Entry.t) (c : cache) : cache :=
  mk_cache (memoryCache c) d (storageDir c) (maxMemorySize c) (maxDiskSize c)
           (compressionThreshold c) (ttl c) (semanticThreshold c) (stats c).

Definition with_stats (s : stats_t) (c : cache) : cache :=
  mk_cache (memoryCache c) (diskCache c) (storageDir c) (maxMemorySize c)
           (maxDiskSize c) (compressionThreshold c) (ttl c) (semanticThreshold c) s.

(** [this.stats.hits++] and its siblings. *)
Definition hit (c : cache) : cache :=
  let s := stats c in
  with_stats (mk_stats (hits s + 1) (misses s) (compression s) (evictions s)) c.
Definition miss (c : cache) : cache :=
  let s := stats c in
  with_stats (mk_stats (hits s) (misses s + 1) (compression s) (evictions s)) c.
Definition compressed_one (c : cache) : cache :=
  let s := stats c in
  with_stats (mk_stats (hits s) (misses s) (compression s + 1) (evictions s)) c.
Definition evicted_one (c : cache) : cache :=
  let s := stats c in
  with_stats (mk_stats (hits s) (misses s) (compression s) (evictions s + 1)) c.

(** [x || d] on an optional number: [undefined] and [0] are falsy. *)
Definition or_default (x : option Z) (d : Z) : Z :=
  match x with
  | Some v => if v =? 0 then d else v
  | None => d
  end.

Definition or_default_float (x : option float) (d : float) : float :=
  match x with
  | Some v => if (PrimFloat.eqb v 0 || negb (PrimFloat.eqb v v))%bool then d else v
  | None => d
  end.

Definition or_default_string (x : option string) (d : string) : string :=
  match x with
  | Some v => if String.eqb v "" then d else v
  | None => d
  end.

Record cache_options : Type := mk_cache_options {
  o_storageDir : option string;
  o_maxMemorySize : option Z;
  o_maxDiskSize : option Z;
  o_compressionThreshold : option Z;
  o_ttl : option Z;
  o_semanticThreshold : option float
}.

Definition no_options : cache_options :=
  mk_cache_options None None None None None None.

(** The double written [0.85] in the source. *)
Definition default_semanticThreshold : float := 0x1.b333333333333p-1%float.

(** [new AdvancedCache(options)]; [ensureDir] only touches the file system. *)
Definition new_cache (options : cache_options) : cache :=
  mk_cache JsMap.empty JsMap.empty
    (or_default_string (o_storageDir options) "./cache/advanced")
    (or_default (o_maxMemorySize options) (100 * 1024 * 1024))
    (or_default (o_maxDiskSize options) (1024 * 1024 * 1024))
    (or_default (o_compressionThreshold options) 1024)
    (or_default (o_ttl options) (24 * 60 * 60 * 1000))
    (or_default_float (o_semanticThreshold options) default_semanticThreshold)
    (mk_stats 0 0 0 0).

Record set_options : Type := mk_set_options {
  opt_ttl : option Z;
  opt_metadata : option json
}.

Definition default_set_options : set_options := mk_set_options None None.

(* ------------------------------------------------------------------ *)
(** ** Methods: state and completion *)

Definition M (A : Type) : Type := cache -> completion A * cache.

Definition ret {A} (a : A) : M A := fun c => (Normal a, c).
Definition throw {A} (e : exn) : M A := fun c => (Throw e, c).
Definition bind {A B} (m : M A) (k : A -> M B) : M B :=
  fun c =>
    match m c with
    | (Normal a, c') => k a c'
    | (Throw e, c') => (Throw e, c')
    end.
Definition modify (f : cache -> cache) : M unit := fun c => (Normal tt, f c).
Definition lift {A} (r : completion A) : M A := fun c => (r, c).

Notation "x <- m ;; k" := (bind m (fun x => k))
  (at level 61, m at next level, right associativity).
Notation "m ;;; k" := (bind m (fun _ => k))
  (at level 61, right associativity).

(* ------------------------------------------------------------------ *)
(** ** Helpers of the class *)

(** [getSize(value)]: [JSON.stringify(value).length]. *)
Definition getSize (v : json) : Z := strlen (JSON_stringify v).

(** [isExpired(entry)]: [Date.now() > entry.expiresAt]. *)
Definition isExpired (now : Z) (e : Entry.t) : bool := now >? Entry.expiresAt e.

(** [reduce((sum, entry) => sum + this.getSize(entry.value), 0)]. *)
Definition total_size (m : JsMap.t Entry.t) : Z :=
  fold_left (fun sum e => sum + getSize (Entry.value e)) (JsMap.values m) 0.

Definition getMemorySizeUsage (c : cache) : Z := total_size (memoryCache c).
Definition getDiskSizeUsage (c : cache) : Z := total_size (diskCache c).

(** [Array.prototype.sort((a, b) => f(a) - f(b))]: a stable sort. *)
Section Sort.
Variable f : Entry.t -> Z.

Fixpoint insert_by (x : Entry.t) (l : list Entry.t) : list Entry.t :=
  match l with
  | [] => [x]
  | y :: rest => if f x <=? f y then x :: l else y :: insert_by x rest
  end.

Fixpoint sort_by (l : list Entry.t) : list Entry.t :=
  match l with
  | [] => []
  | x :: rest => insert_by x (sort_by rest)
  end.
End Sort.

Section WithRuntime.
Context {R : Runtime}.

(** [compress(value)]. *)
Definition compress (v : json) : json := JStr (deflate_base64 (JSON_stringify v)).

(** [decompress(compressed, wasCompressed)]. *)
Definition decompress (stored : json) (wasCompressed : bool) : completion json :=
  if negb wasCompressed then Normal stored
  else
    match stored with
    | JStr s => cbind (inflate_base64 s) JSON_parse
    | _ => Throw (TypeError "The first argument must be of type string")
    end.

(** [checkMemoryEviction()]. *)
Definition checkMemoryEviction : M unit :=
  fun c =>
    let currentSize := total_size (memoryCache c) in
    if currentSize >? maxMemorySize c then
      match sort_by Entry.lastAccess (JsMap.values (memoryCache c)) with
      | toEvict :: _ =>
          (Normal tt,
           evicted_one (with_memoryCache (JsMap.delete (Entry.hash toEvict) (memoryCache c)) c))
      | [] => (Throw (TypeError "Cannot read properties of undefined (reading 'hash')"), c)
      end
    else (Normal tt, c).

(** [checkDiskEviction()]. *)
Definition checkDiskEviction : M unit :=
  fun c =>
    let currentSize := total_size (diskCache c) in
    if currentSize >? maxDiskSize c then
      match sort_by Entry.timestamp (JsMap.values (diskCache c)) with
      | toEvict :: _ =>
          (Normal tt,
           evicted_one (with_diskCache (JsMap.delete (Entry.hash toEvict) (diskCache c)) c))
      | [] => (Throw (TypeError "Cannot read properties of undefined (reading 'hash')"), c)
      end
    else (Normal tt, c).

(** [set(key, value, options = {})]. *)
Definition set (key : string) (value : json) (options : set_options) (now : Z)
  : M Entry.t :=
  fun c =>
    let hash := hashKey key in
    let ttl := or_default (opt_ttl options) (ttl c) in
    let metadata :=
      match opt_metadata options with
      | Some m => if truthy m then m else JObj []
      | None => JObj []
      end in
    let size := getSize value in
    let shouldCompress := size >? compressionThreshold c in
    let entry :=
      Entry.mk key (if shouldCompress then compress value else value) hash
               now ttl (now + ttl) 0 now shouldCompress metadata in
    let c1 := if shouldCompress then compressed_one c else c in
    ((if size <? maxMemorySize c1 then
        modify (fun c => with_memoryCache (JsMap.set hash entry (memoryCache c)) c) ;;;
        checkMemoryEviction
      else
        modify (fun c => with_diskCache (JsMap.set hash entry (diskCache c)) c) ;;;
        checkDiskEviction) ;;;
     ret entry) c1.

(** [get(key)]; a miss returns [null]. *)
Definition get (key : string) (now : Z) : M json :=
  fun c =>
    let hash := hashKey key in
    let in_memory : option json * cache :=
      match JsMap.get hash (memoryCache c) with
      | Some entry =>
          if negb (isExpired now entry) then
            let entry' := Entry.touch (Entry.accessCount entry + 1) now entry in
            (Some (Entry.value entry),
             with_memoryCache (JsMap.set hash entry' (memoryCache c)) (hit c))
          else (None, with_memoryCache (JsMap.delete hash (memoryCache c)) c)
      | None => (None, c)
      end in
    match in_memory with
    | (Some v, c1) => (Normal v, c1)
    | (None, c1) =>
        match JsMap.get hash (diskCache c1) with
        | Some entry =>
            if negb (isExpired now entry) then
              (value <- lift (decompress (Entry.value entry) (Entry.compressed entry)) ;;
               set key value (mk_set_options (Some (ttl c1)) None) now ;;;
               modify hit ;;;
               ret value) c1
            else
              (Normal JNull, miss (with_diskCache (JsMap.delete hash (diskCache c1)) c1))
        | None => (Normal JNull, miss c1)
        end
    end.

(** [str.toLowerCase().split(/\s+/)] and [new Set(...)]. *)
Definition is_space (c : ascii) : bool :=
  let n := code c in (n =? 32) || ((9 <=? n) && (n <=? 13)).

Definition lower (c : ascii) : ascii :=
  let n := code c in if (65 <=? n) && (n <=? 90) then chr (n + 32) else c.

Fixpoint toLowerCase (s : string) : string :=
  match s with
  | EmptyString => EmptyString
  | String c s' => String (lower c) (toLowerCase s')
  end.

(** [in_gap]: the previous character belonged to a separator. *)
Fixpoint split_spaces (in_gap : bool) (s : string) : list string :=
  match s with
  | EmptyString => [""]
  | String c r =>
      if is_space c then
        if in_gap then split_spaces true r else "" :: split_spaces true r
      else
        match split_spaces false r with
        | tok :: rest => String c tok :: rest
        | [] => [str1 c]
        end
  end.

Definition mem_string (x : string) (l : list string) : bool :=
  existsb (String.eqb x) l.

(** [new Set(array)]: first occurrences, in order. *)
Fixpoint new_Set (seen l : list string) : list string :=
  match l with
  | [] => []
  | x :: rest =>
      if mem_string x seen then new_Set seen rest else x :: new_Set (x :: seen) rest
  end.

Definition tokens (s : string) : list string :=
  new_Set [] (split_spaces false (toLowerCase s)).

Definition float_of_Z (z : Z) : float := PrimFloat.of_uint63 (Uint63.of_Z z).

(** [calculateSimilarity(str1, str2)]. *)
Definition calculateSimilarity (s1 s2 : string) : float :=
  let tokens1 := tokens s1 in
  let tokens2 := tokens s2 in
  let intersection := filter (fun x => mem_string x tokens2) tokens1 in
  let union := new_Set [] (tokens1 ++ tokens2) in
  (float_of_Z (Z.of_nat (List.length intersection))
   / float_of_Z (Z.of_nat (List.length union)))%float.

Record semantic_result : Type := mk_semantic_result {
  sr_value : json;
  sr_similarity : float;
  sr_source : string
}.

(** One turn of the loop of [semanticGet]. *)
Definition semantic_step (query : string) (threshold : float)
           (best : option Entry.t * float) (entry : Entry.t) : option Entry.t * float :=
  let similarity := calculateSimilarity query (Entry.key entry) in
  if (PrimFloat.ltb (snd best) similarity && PrimFloat.leb threshold similarity)%bool
  then (Some entry, similarity)
  else best.

(** [semanticGet(query, threshold = this.semanticThreshold)]. *)
Definition semanticGet (query : string) (threshold : option float) (now : Z)
  : M (option semantic_result) :=
  fun c =>
    let threshold := match threshold with Some t => t | None => semanticThreshold c end in
    let '(bestMatch, bestScore) :=
      fold_left (semantic_step query threshold) (JsMap.values (memoryCache c))
                (None, 0%float) in
    match bestMatch with
    | Some b =>
        if negb (isExpired now b)
        then (Normal (Some (mk_semantic_result (Entry.value b) bestScore "memory")), hit c)
        else (Normal None, c)
    | None => (Normal None, c)
    end.

Record prefetched : Type := mk_prefetched {
  p_key : string;
  p_value : json;
  p_priority : string
}.

(** The [forEach] of [prefetch]. *)
Fixpoint prefetch_each (keys : list string) (priority : string) (now : Z)
         (entries : list prefetched) : M (list prefetched) :=
  match keys with
  | [] => ret entries
  | key :: rest =>
      cached <- get key now ;;
      prefetch_each rest priority now
        (if truthy cached then entries ++ [mk_prefetched key cached priority] else entries)
  end.

(** [prefetch(keys, priority = 'low')]. *)
Definition prefetch (keys : list string) (priority : option string) (now : Z)
  : M (list prefetched) :=
  prefetch_each keys (match priority with Some p => p | None => "low" end) now [].

(** The loop of [invalidateByPattern] over one tier: the entries are
    visited in order, a match is deleted under its map key. *)
Definition delete_matching (re : regexp) (m : JsMap.t Entry.t) : JsMap.t Entry.t :=
  fold_left (fun acc kv =>
               if RegExp_test re (Entry.key (snd kv)) then JsMap.delete (fst kv) acc else acc)
            m m.

(** [invalidateByPattern(pattern)]. *)
Definition invalidateByPattern (pattern : string) : M unit :=
  regex <- lift (RegExp_new pattern) ;;
  modify (fun c => with_memoryCache (delete_matching regex (memoryCache c)) c) ;;;
  modify (fun c => with_diskCache (delete_matching regex (diskCache c)) c).

(** [hashKey] on an argument that may be [null]: [Hash.update] accepts
    strings and buffers only. *)
Definition hashKey_arg (key : option string) : completion string :=
  match key with
  | Some k => Normal (hashKey k)
  | None => Throw (TypeError "The data argument must be of type string or an instance of Buffer, TypedArray, or DataView. Received null")
  end.

Record invalidate_options : Type := mk_invalidate_options {
  opt_pattern : option string
}.

(** [invalidate(key, options = {})]; an empty pattern is falsy. *)
Definition invalidate (key : option string) (options : invalidate_options) : M unit :=
  hash <- lift (hashKey_arg key) ;;
  match opt_pattern options with
  | Some (String a p) => invalidateByPattern (String a p)
  | _ =>
      modify (fun c => with_memoryCache (JsMap.delete hash (memoryCache c)) c) ;;;
      modify (fun c => with_diskCache (JsMap.delete hash (diskCache c)) c)
  end.

(** [clear()]. *)
Definition clear : M unit :=
  modify (fun c => with_stats (mk_stats 0 0 0 0)
                     (with_diskCache JsMap.empty (with_memoryCache JsMap.empty c))).

(** [Number.prototype.toFixed(digits)] below 1e21: the nearest multiple of
    [10^-digits], the larger one on a tie. *)
Definition fixed_digits (digits : nat) (n : Z) : string :=
  let d := decimal n in
  let d := (string_of_list_ascii (repeat "0"%char (S digits - String.length d)) ++ d)%string in
  let k := (String.length d - digits)%nat in
  match digits with
  | O => d
  | S _ => (substring 0 k d ++ "." ++ substring k digits d)%string
  end.

Definition toFixed (digits : nat) (x : float) : string :=
  match Prim2SF x with
  | S754_nan => "NaN"
  | S754_infinity s => if s then "-Infinity" else "Infinity"
  | S754_zero _ => fixed_digits digits 0
  | S754_finite s m e =>
      let scale := 10 ^ Z.of_nat digits in
      let n := if 0 <=? e then Z.pos m * 2 ^ e * scale
               else (2 * Z.pos m * scale + 2 ^ (- e)) / 2 ^ (1 - e) in
      ((if s then "-" else "") ++ fixed_digits digits n)%string
  end.

Record stats_report : Type := mk_stats_report {
  r_hits : Z;
  r_misses : Z;
  hitRate : string;
  compressionCount : Z;
  evictionCount : Z;
  memoryEntries : Z;
  diskEntries : Z;
  memorySize : Z;
  diskSize : Z
}.

(** [getStats()]. *)
Definition getStats (c : cache) : stats_report :=
  let totalRequests := hits (stats c) + misses (stats c) in
  let hitRate :=
    if totalRequests >? 0
    then (float_of_Z (hits (stats c)) / float_of_Z totalRequests * 100)%float
    else 0%float in
  mk_stats_report (hits (stats c)) (misses (stats c)) (toFixed 2 hitRate)
    (compression (stats c)) (evictions (stats c))
    (JsMap.size (memoryCache c)) (JsMap.size (diskCache c))
    (getMemorySizeUsage c) (getDiskSizeUsage c).

End WithRuntime.

(* ------------------------------------------------------------------ *)
(** ** A runtime to run examples on

    The theorems below hold for every [Runtime].  To evaluate concrete
    runs, [example_runtime] stands in for the engine: its codec marks the
    payload instead of deflating it, and its RegExp understands literal
    characters, [.] and a postfix [*] (an unanchored search, as
    [regex.test] does). *)

Module ExampleRuntime.

Definition marker : string := "eJ".

Definition deflate (s : string) : string := (marker ++ s)%string.

Definition inflate (s : string) : completion string :=
  match s with
  | String "e" (String "J" payload) => Normal payload
  | _ => Throw (ZlibError "incorrect header check")
  end.

Inductive atom : Type := Lit (c : ascii) | AnyChar.

Definition atom_ok (a : atom) (c : ascii) : bool :=
  match a with
  | Lit c' => Ascii.eqb c c'
  | AnyChar => negb ((code c =? 10) || (code c =? 13))
  end.

(** An atom and whether it is starred. *)
Definition item : Type := (atom * bool)%type.

Definition is_meta (c : ascii) : bool :=
  existsb (Ascii.eqb c) (list_ascii_of_string "\^$+?()[]{}|").

Fixpoint compile (s : string) : completion (list item) :=
  match s with
  | EmptyString => Normal []
  | String c rest =>
      if Ascii.eqb c "*" then Throw (SyntaxError "Nothing to repeat")
      else if is_meta c then Throw (SyntaxError "outside the fragment")
      else
        let a := if Ascii.eqb c "." then AnyChar else Lit c in
        match rest with
        | String "*" rest' => cbind (compile rest') (fun r => Normal ((a, true) :: r))
        | _ => cbind (compile rest) (fun r => Normal ((a, false) :: r))
        end
  end.

Fixpoint match_here (re : list item) : string -> bool :=
  match re with
  | [] => fun _ => true
  | (a, false) :: rest =>
      fun s =>
        match s with
        | String c s' => atom_ok a c && match_here rest s'
        | EmptyString => false
        end
  | (a, true) :: rest =>
      fix star (s : string) : bool :=
        match_here rest s
        || match s with
           | String c s' => atom_ok a c && star s'
           | EmptyString => false
           end
  end.

Fixpoint search (re : list item) (s : string) : bool :=
  match_here re s
  || match s with
     | String _ s' => search re s'
     | EmptyString => false
     end.

Lemma inflate_deflate (s : string) : inflate (deflate s) = Normal s.
Proof. reflexivity. Qed.

End ExampleRuntime.

Definition example_runtime : Runtime := {|
  deflate_base64 := ExampleRuntime.deflate;
  inflate_base64 := ExampleRuntime.inflate;
  inflate_deflate := ExampleRuntime.inflate_deflate;
  regexp := list ExampleRuntime.item;
  RegExp_new := ExampleRuntime.compile;
  RegExp_test := ExampleRuntime.search
|}.

Arguments hashKey : simpl never.

(* ================================================================== *)
(** * Vocabulary of the properties

    Definitions that the statements below use: what a method call leaves
    behind, written as a function; invariants; sequences of calls; the
    order on scores. *)

Module FloatKey.

(** A key whose lexicographic order is the order [SFcompare] decides on
    numbers that are not NaN. *)
Definition rank (x : spec_float) : Z * Z * Z :=
  match x with
  | S754_zero _ => (0, 0, 0)
  | S754_infinity s => (if s then -2 else 2, 0, 0)
  | S754_nan => (0, 0, 0)
  | S754_finite s m e => if s then (-1, - e, - Z.pos m) else (1, e, Z.pos m)
  end.

Definition lex (a b : Z * Z * Z) : comparison :=
  let '(a1, a2, a3) := a in
  let '(b1, b2, b3) := b in
  match a1 ?= b1 with
  | Eq => match a2 ?= b2 with
          | Eq => a3 ?= b3
          | r => r
          end
  | r => r
  end.

Definition is_nan (x : spec_float) : bool :=
  match x with S754_nan => true | _ => false end.

End FloatKey.

Module JsonText.
Import JsonParse.

(** What may follow a value in the printed text. *)
Definition closes (rest : string) : Prop :=
  match rest with
  | EmptyString => True
  | String c _ => c = ","%char \/ c = "]"%char \/ c = "}"%char
  end.

(** What ends a run of digits. *)
Definition no_digit (rest : string) : Prop :=
  match rest with
  | EmptyString => True
  | String c _ => is_digit c = false
  end.

(** The first character of a printed value. *)
Definition opens (c : ascii) : Prop :=
  is_ws c = false /\ c <> "]"%char /\ c <> "}"%char.

(** One member of a printed object. *)
Definition field_text (kv : string * json) : string :=
  (quote (fst kv) ++ ":" ++ JSON_stringify (snd kv))%string.

(** Induction on values that reaches the elements of arrays and the
    members of objects. *)
Section JsonInduction.
Variable P : json -> Prop.
Hypothesis Hnull : P JNull.
Hypothesis Hbool : forall b, P (JBool b).
Hypothesis Hnum : forall n, P (JNum n).
Hypothesis Hstr : forall s, P (JStr s).
Hypothesis Harr : forall xs, (forall x, In x xs -> P x) -> P (JArr xs).
Hypothesis Hobj : forall fs, (forall kv, In kv fs -> P (snd kv)) -> P (JObj fs).

Fixpoint json_nested_ind (v : json) : P v :=
  match v with
  | JNull => Hnull
  | JBool b => Hbool b
  | JNum n => Hnum n
  | JStr s => Hstr s
  | JArr xs =>
      Harr xs
        ((fix all (l : list json) : forall x, In x l -> P x :=
            match l with
            | [] => fun _ (H : False) => match H with end
            | y :: l' => fun x H =>
                match H with
                | or_introl E => eq_ind y P (json_nested_ind y) x E
                | or_intror H' => all l' x H'
                end
            end) xs)
  | JObj fs =>
      Hobj fs
        ((fix all (l : list (string * json)) : forall kv, In kv l -> P (snd kv) :=
            match l with
            | [] => fun _ (H : False) => match H with end
            | y :: l' => fun kv H =>
                match H with
                | or_introl E => eq_ind y (fun kv => P (snd kv)) (json_nested_ind (snd y)) kv E
                | or_intror H' => all l' kv H'
                end
            end) fs)
  end.
End JsonInduction.

End JsonText.

Section Vocabulary.
Context {R : Runtime}.

(** The first entry, in array order, with the least key. *)
Fixpoint first_least (f : Entry.t -> Z) (l : list Entry.t) : option Entry.t :=
  match l with
  | [] => None
  | x :: rest =>
      match first_least f rest with
      | Some y => if f x <=? f y then Some x else Some y
      | None => Some x
      end
  end.

(** The tier after its eviction check found it over budget: the head of
    the sorted array, that is the first least entry, is deleted. *)
Definition evict (f : Entry.t -> Z) (m : JsMap.t Entry.t) : JsMap.t Entry.t :=
  match first_least f (JsMap.values m) with
  | Some victim => JsMap.delete (Entry.hash victim) m
  | None => m
  end.

Definition after_memory_check (c : cache) : cache :=
  if total_size (memoryCache c) >? maxMemorySize c
  then evicted_one (with_memoryCache (evict Entry.lastAccess (memoryCache c)) c)
  else c.

Definition after_disk_check (c : cache) : cache :=
  if total_size (diskCache c) >? maxDiskSize c
  then evicted_one (with_diskCache (evict Entry.timestamp (diskCache c)) c)
  else c.

(** The entry object that [set] builds. *)
Definition set_entry (c : cache) (key : string) (value : json)
           (options : set_options) (now : Z) : Entry.t :=
  let ttl := or_default (opt_ttl options) (ttl c) in
  let big := getSize value >? compressionThreshold c in
  Entry.mk key (if big then compress value else value) (hashKey key)
           now ttl (now + ttl) 0 now big
           (match opt_metadata options with
            | Some m => if truthy m then m else JObj []
            | None => JObj []
            end).

(** The cache after the entry was stored, before the eviction check. *)
Definition set_stored (c : cache) (key : string) (value : json)
           (options : set_options) (now : Z) : cache :=
  let e := set_entry c key value options now in
  let c1 := if getSize value >? compressionThreshold c then compressed_one c else c in
  if getSize value <? maxMemorySize c
  then with_memoryCache (JsMap.set (hashKey key) e (memoryCache c1)) c1
  else with_diskCache (JsMap.set (hashKey key) e (diskCache c1)) c1.

(** The cache that [set] leaves behind. *)
Definition set_state (c : cache) (key : string) (value : json)
           (options : set_options) (now : Z) : cache :=
  if getSize value <? maxMemorySize c
  then after_memory_check (set_stored c key value options now)
  else after_disk_check (set_stored c key value options now).

(** The memory lookup of [get]: whether it found a live entry, and the
    cache it leaves when it did not (an expired entry is deleted). *)
Definition memory_live (key : string) (now : Z) (c : cache) : bool :=
  match JsMap.get (hashKey key) (memoryCache c) with
  | Some e => negb (isExpired now e)
  | None => false
  end.

Definition after_memory_miss (key : string) (c : cache) : cache :=
  match JsMap.get (hashKey key) (memoryCache c) with
  | Some _ => with_memoryCache (JsMap.delete (hashKey key) (memoryCache c)) c
  | None => c
  end.

(** A 1201-character array: above the default compression threshold. *)
Definition six_hundred_ones : json := JArr (repeat (JNum 1) 600).

Definition ten_byte_budget : cache :=
  new_cache (mk_cache_options None (Some 10) None None None None).

(** A tier as [set] builds it: one entry per key, each filed under its own
    [hash] field. *)
Definition tier_ok (m : JsMap.t Entry.t) : Prop :=
  NoDup (JsMap.keys m) /\ forall k e, In (k, e) m -> Entry.hash e = k.

Definition tiers_ok (c : cache) : Prop :=
  tier_ok (memoryCache c) /\ tier_ok (diskCache c).

(** The four configured numbers, which no method changes. *)
Definition config (c : cache) : Z * Z * Z * Z :=
  (maxMemorySize c, maxDiskSize c, compressionThreshold c, ttl c).

(** The size an entry for [v] takes in its tier. *)
Definition storedSize (c : cache) (v : json) : Z :=
  getSize (if getSize v >? compressionThreshold c then compress v else v).

Inductive op : Type :=
| OpSet (key : string) (value : json) (options : set_options)
| OpGet (key : string)
| OpSemanticGet (query : string) (threshold : option float)
| OpInvalidate (key : option string) (options : invalidate_options)
| OpClear.

(** Every entry of a tier satisfies [P]. *)
Definition all_entries (P : string -> Entry.t -> Prop) (m : JsMap.t Entry.t) : Prop :=
  forall k e, In (k, e) m -> P k e.

Definition step (o : op) (now : Z) (c : cache) : cache :=
  match o with
  | OpSet key value options => snd (set key value options now c)
  | OpGet key => snd (get key now c)
  | OpSemanticGet query threshold => snd (semanticGet query threshold now c)
  | OpInvalidate key options => snd (invalidate key options c)
  | OpClear => snd (clear c)
  end.

(** A sequence of calls, each with the clock value it reads. *)
Definition run (ops : list (op * Z)) (c : cache) : cache :=
  fold_left (fun c o => step (fst o) (snd o) c) ops c.

Definition exclusive (c : cache) : Prop :=
  forall h, JsMap.has h (memoryCache c) = true -> JsMap.has h (diskCache c) = false.

(** The invariant: [small] says on which side of the placement threshold
    the values of a hash fall; a disk entry decodes to a value that [set]
    would place on disk again. *)
Definition disk_entry_ok (small : string -> bool) (max : Z) (k : string) (e : Entry.t) : Prop :=
  small k = false
  /\ forall v, decompress (Entry.value e) (Entry.compressed e) = Normal v ->
               max <= getSize v.

Definition placed (small : string -> bool) (max : Z) (c : cache) : Prop :=
  maxMemorySize c = max
  /\ all_entries (fun k _ => small k = true) (memoryCache c)
  /\ all_entries (disk_entry_ok small max) (diskCache c).

Definition op_ok (small : string -> bool) (max : Z) (o : op) : Prop :=
  match o with
  | OpSet key value _ => (getSize value <? max) = small (hashKey key)
  | _ => True
  end.

(** Whether a call is a [set] that files a small value under hash [h]. *)
Definition sets_small (max : Z) (h : string) (o : op * Z) : bool :=
  match fst o with
  | OpSet key value _ => String.eqb (hashKey key) h && (getSize value <? max)
  | _ => false
  end.

Definition stable_calls : list (op * Z) :=
  [(OpSet "k" (JStr "0123456789") default_set_options, 1);
   (OpGet "k", 2);
   (OpSet "a" (JNum 1) default_set_options, 3);
   (OpSet "k" (JStr "abcdefghijkl") default_set_options, 4);
   (OpInvalidate (Some "a") (mk_invalidate_options None), 5);
   (OpGet "k", 6)].

Definition score (query : string) (e : Entry.t) : float :=
  calculateSimilarity query (Entry.key e).

(** An entry can be selected: its score is positive and reaches the
    threshold. *)
Definition qualifies (query : string) (threshold : float) (e : Entry.t) : bool :=
  PrimFloat.ltb 0 (score query e) && PrimFloat.leb threshold (score query e).

(** [b] is the first entry of [l] with the best score among those that
    qualify. *)
Definition first_best (query : string) (threshold : float)
           (l : list Entry.t) (b : Entry.t) : Prop :=
  qualifies query threshold b = true
  /\ exists l1 l2,
      l = l1 ++ b :: l2
      /\ (forall e, In e l1 -> qualifies query threshold e = true ->
                    PrimFloat.ltb (score query e) (score query b) = true)
      /\ (forall e, In e l2 -> qualifies query threshold e = true ->
                    PrimFloat.ltb (score query b) (score query e) = false).

(** What the loop of [semanticGet] holds after the entries [l]. *)
Definition loop_ok (query : string) (threshold : float)
           (l : list Entry.t) (st : option Entry.t * float) : Prop :=
  match st with
  | (None, s) => s = 0%float /\ forall e, In e l -> qualifies query threshold e = false
  | (Some b, s) => s = score query b /\ first_best query threshold l b
  end.

(** The claim's reading of [semanticGet]: the best-scoring live entry, when
    its score reaches the threshold. *)
Definition semanticGet_claimed (query : string) (threshold : float) (now : Z) (c : cache)
  : option (json * float) :=
  match filter (fun e => negb (isExpired now e)) (JsMap.values (memoryCache c)) with
  | [] => None
  | e0 :: rest =>
      let best := fold_left (fun b e => if PrimFloat.ltb (score query b) (score query e)
                                        then e else b) rest e0 in
      if PrimFloat.leb threshold (score query best)
      then Some (Entry.value best, score query best)
      else None
  end.

End Vocabulary.

(* ------------------------------------------------------------------ *)
(** ** Vocabulary of the further properties *)

(** A lower-case hexadecimal digit. *)
Definition is_hex_digit (c : ascii) : bool :=
  let n := code c in ((48 <=? n) && (n <=? 57)) || ((97 <=? n) && (n <=? 102)).

Section MoreVocabulary.
Context {R : Runtime}.

(** Every entry of the two tiers satisfies [P]. *)
Definition both_tiers (P : string -> Entry.t -> Prop) (c : cache) : Prop :=
  all_entries P (memoryCache c) /\ all_entries P (diskCache c).

(** What [P] must survive at one clock value, on a cache configured as
    [cfg]: the entry [set] builds, and the update a memory hit makes. *)
Definition kept_at (P : string -> Entry.t -> Prop) (cfg : Z * Z * Z * Z) (now : Z)
  : Prop :=
  (forall c key value options,
      config c = cfg -> P (hashKey key) (set_entry c key value options now))
  /\ (forall k e, P k e -> P k (Entry.touch (Entry.accessCount e + 1) now e)).

(** An entry as [set] builds it and [get] updates it: filed under the
    hash of its key, with a [ttl] that is not zero, and holding a payload
    that [decompress] reads.  (Nothing is said of the three time fields,
    which [set] takes from three reads of the clock.) *)
Definition well_formed (k : string) (e : Entry.t) : Prop :=
  k = hashKey (Entry.key e)
  /\ Entry.hash e = hashKey (Entry.key e)
  /\ Entry.ttl e <> 0
  /\ 0 <= Entry.accessCount e
  /\ exists v, decompress (Entry.value e) (Entry.compressed e) = Normal v.

(** The entry was created and last read before [bound]. *)
Definition written_before (bound : Z) (e : Entry.t) : Prop :=
  Entry.timestamp e < bound /\ Entry.lastAccess e < bound.

(** The requests that [getStats] counts. *)
Definition requests (c : cache) : Z := hits (stats c) + misses (stats c).

(** What the constructor fixes. *)
Definition settings (c : cache) : string * (Z * Z * Z * Z) * float :=
  (storageDir c, config c, semanticThreshold c).

Definition is_clear (o : op) : bool :=
  match o with OpClear => true | _ => false end.

(** Every value that the calls set is below the memory placement
    threshold [max]. *)
Definition sets_below (max : Z) (ops : list (op * Z)) : bool :=
  forallb (fun o => match fst o with
                    | OpSet _ value _ => getSize value <? max
                    | _ => true
                    end) ops.

(** The calls of [prefetch]: one [get] per key, all at the clock value of
    the call. *)
Definition gets (keys : list string) (now : Z) : list (op * Z) :=
  map (fun key => (OpGet key, now)) keys.

(** The items that [prefetch] is to return: for each key in turn, the
    value that its [get] returns, kept when it is truthy. *)
Fixpoint items_of_gets (keys : list string) (priority : string) (now : Z) (c : cache)
  : list prefetched :=
  match keys with
  | [] => []
  | key :: rest =>
      match fst (get key now c) with
      | Normal v => if truthy v then [mk_prefetched key v priority] else []
      | Throw _ => []
      end ++ items_of_gets rest priority now (snd (get key now c))
  end.

(** [set(key, value, options)] with one clock value for each of its three
    reads of [Date.now()]: for [timestamp], for [expiresAt] and for
    [lastAccess]. *)
Definition set_reads (key : string) (value : json) (options : set_options)
           (t_timestamp t_expires t_access : Z) : M Entry.t :=
  fun c =>
    let hash := hashKey key in
    let ttl := or_default (opt_ttl options) (ttl c) in
    let metadata :=
      match opt_metadata options with
      | Some m => if truthy m then m else JObj []
      | None => JObj []
      end in
    let size := getSize value in
    let shouldCompress := size >? compressionThreshold c in
    let entry :=
      Entry.mk key (if shouldCompress then compress value else value) hash
               t_timestamp ttl (t_expires + ttl) 0 t_access shouldCompress metadata in
    let c1 := if shouldCompress then compressed_one c else c in
    ((if size <? maxMemorySize c1 then
        modify (fun c => with_memoryCache (JsMap.set hash entry (memoryCache c)) c) ;;;
        checkMemoryEviction
      else
        modify (fun c => with_diskCache (JsMap.set hash entry (diskCache c)) c) ;;;
        checkDiskEviction) ;;;
     ret entry) c1.

(** The four ways a [get] ends. *)
Inductive get_outcome (key : string) (now : Z) (c : cache) : Prop :=
| FromMemory (e : Entry.t)
    (Hget : JsMap.get (hashKey key) (memoryCache c) = Some e)
    (Hlive : isExpired now e = false)
    (Hrun : get key now c
            = (Normal (Entry.value e),
               with_memoryCache
                 (JsMap.set (hashKey key) (Entry.touch (Entry.accessCount e + 1) now e)
                            (memoryCache c))
                 (hit c)))
| FromDisk (e : Entry.t) (v : json)
    (Hmem : memory_live key now c = false)
    (Hget : JsMap.get (hashKey key) (diskCache c) = Some e)
    (Hlive : isExpired now e = false)
    (Hdec : decompress (Entry.value e) (Entry.compressed e) = Normal v)
    (Hrun : get key now c
            = (Normal v,
               hit (set_state (after_memory_miss key c) key v
                              (mk_set_options (Some (ttl c)) None) now)))
| PayloadThrows (e : Entry.t) (err : exn)
    (Hmem : memory_live key now c = false)
    (Hget : JsMap.get (hashKey key) (diskCache c) = Some e)
    (Hlive : isExpired now e = false)
    (Hdec : decompress (Entry.value e) (Entry.compressed e) = Throw err)
    (Hrun : get key now c = (Throw err, after_memory_miss key c))
| NoLiveEntry
    (Hmem : memory_live key now c = false)
    (Hdisk : forall e, JsMap.get (hashKey key) (diskCache c) = Some e -> isExpired now e = true)
    (Hrun : get key now c
            = (Normal JNull,
               miss (with_diskCache (JsMap.delete (hashKey key) (diskCache c))
                                    (after_memory_miss key c)))).

End MoreVocabulary.

(* ================================================================== *)
(** * Properties *)

(** ** The runtime models on known values *)

Example sha256_empty :
  hashKey "" = "e3b0c44298fc1c149afbf4c8996fb92427ae41e4649b934ca495991b7852b855".
Proof. vm_compute. reflexivity. Qed.

Example sha256_abc :
  hashKey "abc" = "ba7816bf8f01cfea414140de5dae2223b00361a396177a9cb410ff61f20015ad".
Proof. vm_compute. reflexivity. Qed.

Example sha256_userA :
  hashKey "userA-query" = "218398ebb22d9fc85a651d4f62c20f80b1772cf97cdb40051d1deb6475d838a3".
Proof. vm_compute. reflexivity. Qed.

Example sha256_two_blocks :
  hashKey "aaaaaaaaaaaaaaaaaaaaaaaaaaaaaaaaaaaaaaaaaaaaaaaaaaaaaaaa"
  = "b35439a4ac6f0948b6d6f9e3c6af0f5f590ce20f1bde7090ef7970686ec6738a".
Proof. vm_compute. reflexivity. Qed.

Example stringify_sample :
  JSON_stringify (JObj [("answer", JStr "Paris"); ("n", JArr [JNum 1; JNum (-20)])])
  = (String "{" (quote "answer") ++ ":" ++ quote "Paris" ++ ","
       ++ quote "n" ++ ":[1,-20]}")%string.
Proof. reflexivity. Qed.

Example parse_stringify_sample :
  JSON_parse (JSON_stringify sample_json) = Normal sample_json.
Proof. vm_compute. reflexivity. Qed.

Example toFixed_examples :
  toFixed 2 75%float = "75.00" /\ toFixed 2 0%float = "0.00"
  /\ toFixed 2 0.125%float = "0.13" /\ toFixed 2 (2 / 3 * 100)%float = "66.67"
  /\ toFixed 2 100%float = "100.00" /\ toFixed 0 2.5%float = "3".
Proof. vm_compute. repeat split. Qed.

Example split_examples :
  split_spaces false "a b" = ["a"; "b"] /\ split_spaces false " a" = [""; "a"]
  /\ split_spaces false "a  " = ["a"; ""] /\ split_spaces false "" = [""]
  /\ split_spaces false "What  IS" = ["What"; "IS"].
Proof. vm_compute. repeat split. Qed.

Example regexp_examples :
  let R := example_runtime in
  cbind (RegExp_new "userA.*")
        (fun re => Normal (RegExp_test re "userA-query", RegExp_test re "userB-query"))
  = Normal (true, false)
  /\ cbind (RegExp_new ".*France.*")
           (fun re => Normal (RegExp_test re "What is the capital of France?"))
     = Normal true.
Proof. vm_compute. split; reflexivity. Qed.

(** ** [JSON.parse] reads back what [JSON.stringify] prints *)

Module JsonRoundTrip.
Import JsonParse JsonText.

Lemma append_assoc (a b c : string) : ((a ++ b) ++ c = a ++ (b ++ c))%string.
Proof. induction a as [|x a IH]; cbn; [reflexivity|now rewrite IH]. Qed.

Lemma length_append (a b : string) :
  String.length (a ++ b) = (String.length a + String.length b)%nat.
Proof. induction a as [|x a IH]; cbn; [reflexivity|now rewrite IH]. Qed.

Lemma closes_no_digit rest : closes rest -> no_digit rest.
Proof. destruct rest as [|c r]; cbn; [tauto|]. intros [-> | [-> | ->]]; reflexivity. Qed.

Lemma digits_digit c r acc :
  is_digit c = true -> digits (String c r) acc = digits r (10 * acc + (code c - 48)).
Proof. intros H. cbn [digits]. now rewrite H. Qed.

Lemma digits_stop rest acc : no_digit rest -> digits rest acc = (acc, rest).
Proof. destruct rest as [|c r]; cbn; [reflexivity|]. now intros ->. Qed.

Lemma digits_acc d p rest :
  no_digit rest ->
  digits (NilEmpty.string_of_uint d ++ rest) (Z.pos p) = (Z.pos (Pos.of_uint_acc d p), rest).
Proof.
intros Hrest. revert p.
induction d as [|d IH|d IH|d IH|d IH|d IH|d IH|d IH|d IH|d IH|d IH]; intros p;
  cbn [NilEmpty.string_of_uint append Pos.of_uint_acc];
  [now apply digits_stop|..];
  rewrite digits_digit by reflexivity;
  rewrite <- IH; f_equal; vm_compute (code _); lia.
Qed.

Lemma digits_uint d rest :
  no_digit rest ->
  digits (NilEmpty.string_of_uint d ++ rest) 0 = (Z.of_uint d, rest).
Proof.
intros Hrest. unfold Z.of_uint.
induction d as [|d IH|d IH|d IH|d IH|d IH|d IH|d IH|d IH|d IH|d IH];
  cbn [NilEmpty.string_of_uint append Pos.of_uint];
  [now apply digits_stop| |..];
  rewrite digits_digit by reflexivity.
- exact IH.
- apply (digits_acc d 1 rest Hrest).
- apply (digits_acc d 2 rest Hrest).
- apply (digits_acc d 3 rest Hrest).
- apply (digits_acc d 4 rest Hrest).
- apply (digits_acc d 5 rest Hrest).
- apply (digits_acc d 6 rest Hrest).
- apply (digits_acc d 7 rest Hrest).
- apply (digits_acc d 8 rest Hrest).
- apply (digits_acc d 9 rest Hrest).
Qed.

(** The decimal text of an unsigned number starts with a digit. *)
Lemma uint_text d :
  exists c r, NilZero.string_of_uint d = String c r /\ is_digit c = true
              /\ forall rest, digits (String c r ++ rest) 0
                               = digits (NilZero.string_of_uint d ++ rest) 0.
Proof.
destruct d; cbn; eexists _, _; repeat split.
Qed.

Lemma digits_nilzero d rest :
  no_digit rest ->
  digits (NilZero.string_of_uint d ++ rest) 0 = (Z.of_uint d, rest).
Proof.
intros Hrest. destruct d; try apply (digits_uint _ rest Hrest).
cbn [NilZero.string_of_uint append]. rewrite digits_digit by reflexivity.
now apply digits_stop.
Qed.

Lemma number_decimal z rest :
  no_digit rest -> number (decimal z ++ rest) = Some (JNum z, rest).
Proof.
intros Hrest. unfold decimal. destruct z as [|p|p]; cbn [Z.to_int NilZero.string_of_int].
- cbn. now rewrite digits_stop.
- pose proof (digits_nilzero (Pos.to_uint p) rest Hrest) as H.
  destruct (uint_text (Pos.to_uint p)) as (c & r & Htext & Hc & _).
  rewrite Htext in *. cbn [append] in *. unfold number.
  assert (Hminus : c <> "-"%char) by (intros ->; discriminate).
  destruct c as [[] [] [] [] [] [] [] []]; try discriminate Hc;
    rewrite Hc; rewrite H; unfold Z.of_uint; rewrite Unsigned.of_to; reflexivity.
- pose proof (digits_nilzero (Pos.to_uint p) rest Hrest) as H.
  destruct (uint_text (Pos.to_uint p)) as (c & r & Htext & Hc & _).
  rewrite Htext in *. cbn [append] in *. unfold number.
  rewrite Hc, H. unfold Z.of_uint. rewrite Unsigned.of_to. reflexivity.
Qed.

Lemma string_body_escape_char c t :
  string_body (escape_char c ++ t)
  = match string_body t with
    | Some (body, rest) => Some (String c body, rest)
    | None => None
    end.
Proof. destruct c as [[] [] [] [] [] [] [] []]; reflexivity. Qed.

Lemma string_body_escape s rest :
  string_body (escape s ++ String dquote rest) = Some (s, rest).
Proof.
induction s as [|c s IH]; cbn [escape].
- reflexivity.
- now rewrite append_assoc, string_body_escape_char, IH.
Qed.

Lemma quote_append s rest :
  (quote s ++ rest)%string = String dquote (escape s ++ String dquote rest).
Proof.
unfold quote, str1. cbn [append]. now rewrite append_assoc.
Qed.

Lemma value_string fuel s rest :
  value (S fuel) (quote s ++ rest) = Some (JStr s, rest).
Proof.
rewrite quote_append. cbn - [string_body]. now rewrite string_body_escape.
Qed.

Lemma substring_all s n : (String.length s <= n)%nat -> substring 0 n s = s.
Proof.
revert n. induction s as [|c s IH]; intros n H; destruct n; cbn in *; try reflexivity; try lia.
rewrite IH; [reflexivity|lia].
Qed.

Lemma substring_prefix w rest : substring 0 (String.length w) (w ++ rest) = w.
Proof.
induction w as [|c w IH]; cbn.
- now destruct rest.
- now rewrite IH.
Qed.

Lemma substring_suffix w rest n :
  (String.length rest <= n)%nat -> substring (String.length w) n (w ++ rest) = rest.
Proof.
intros H. induction w as [|c w IH]; cbn; [now apply substring_all|exact IH].
Qed.

Lemma literal_ok word v rest : literal word v (word ++ rest) = Some (v, rest).
Proof.
unfold literal. rewrite substring_prefix, String.eqb_refl, substring_suffix; [reflexivity|].
rewrite length_append. lia.
Qed.

Lemma value_null fuel rest : value (S fuel) ("null" ++ rest) = Some (JNull, rest).
Proof. exact (literal_ok "null" JNull rest). Qed.

Lemma value_true fuel rest : value (S fuel) ("true" ++ rest) = Some (JBool true, rest).
Proof. exact (literal_ok "true" (JBool true) rest). Qed.

Lemma value_false fuel rest : value (S fuel) ("false" ++ rest) = Some (JBool false, rest).
Proof. exact (literal_ok "false" (JBool false) rest). Qed.

Lemma value_number fuel c r :
  is_digit c = true \/ c = "-"%char -> value (S fuel) (String c r) = number (String c r).
Proof.
intros [H| ->]; [|reflexivity].
destruct c as [[] [] [] [] [] [] [] []]; try discriminate H; reflexivity.
Qed.

Lemma head_uint d :
  exists c r, NilZero.string_of_uint d = String c r /\ is_digit c = true.
Proof. destruct d; cbn; eexists _, _; split; reflexivity. Qed.

Lemma digit_opens c : is_digit c = true -> opens c.
Proof.
intros H. destruct c as [[] [] [] [] [] [] [] []]; try discriminate H;
  (split; [reflexivity|split; discriminate]).
Qed.

Lemma stringify_head v : exists c s, JSON_stringify v = String c s /\ opens c.
Proof.
assert (Hlit : forall c, is_ws c = false -> c <> "]"%char -> c <> "}"%char -> opens c)
  by (intros; repeat split; assumption).
destruct v as [|[]|z|str|xs|fs]; cbn [JSON_stringify].
- eexists _, _. split; [reflexivity|]. apply Hlit; [reflexivity|discriminate..].
- eexists _, _. split; [reflexivity|]. apply Hlit; [reflexivity|discriminate..].
- eexists _, _. split; [reflexivity|]. apply Hlit; [reflexivity|discriminate..].
- unfold decimal. destruct z as [|p|p]; cbn [Z.to_int NilZero.string_of_int].
  + eexists _, _. split; [reflexivity|]. apply Hlit; [reflexivity|discriminate..].
  + destruct (head_uint (Pos.to_uint p)) as (c & r & -> & Hc).
    eexists _, _. split; [reflexivity|]. now apply digit_opens.
  + eexists _, _. split; [reflexivity|]. apply Hlit; [reflexivity|discriminate..].
- eexists _, _. split; [reflexivity|]. apply Hlit; [reflexivity|discriminate..].
- eexists _, _. split; [reflexivity|]. apply Hlit; [reflexivity|discriminate..].
- eexists _, _. split; [reflexivity|]. apply Hlit; [reflexivity|discriminate..].
Qed.

Lemma value_array fuel c s :
  opens c ->
  value (S fuel) (String "[" (String c s))
  = match items (value fuel) (String.length (String c s)) (String c s) with
    | Some (vs, rest) => Some (JArr vs, rest)
    | None => None
    end.
Proof.
intros (Hws & Hclose & _).
destruct c as [[] [] [] [] [] [] [] []]; try discriminate Hws; try congruence; reflexivity.
Qed.

Lemma length_join_elem sep l x :
  In x l -> (String.length x <= String.length (join sep l))%nat.
Proof.
induction l as [|y l IH]; [intros []|].
intros [->|Hin]; destruct l as [|z l]; cbn [join]; rewrite ?length_append; try lia.
- destruct Hin.
- specialize (IH Hin). cbn [join] in IH. lia.
Qed.

Lemma length_join_count sep (l : list string) :
  (forall x, In x l -> x <> "") ->
  (List.length l <= String.length (join sep l))%nat.
Proof.
induction l as [|y l IH]; intros Hne; [cbn; lia|].
assert (Hy : (1 <= String.length y)%nat).
{ specialize (Hne y (or_introl eq_refl)). destruct y; [congruence|cbn; lia]. }
destruct l as [|z l]; cbn [join List.length]; rewrite ?length_append; [lia|].
assert (IH' := IH (fun x H => Hne x (or_intror H))). cbn [List.length join] in IH'. lia.
Qed.

Section Composite.
Variable pv : string -> option (json * string).

Lemma items_ok xs : forall n rest,
  xs <> [] ->
  (List.length xs <= n)%nat ->
  (forall x, In x xs -> forall rest', closes rest' ->
             pv (JSON_stringify x ++ rest') = Some (x, rest')) ->
  items pv n (join "," (map JSON_stringify xs) ++ String "]" rest) = Some (xs, rest).
Proof.
induction xs as [|x xs IH]; intros n rest Hne Hn Hpv; [congruence|].
destruct n as [|n]; [cbn in Hn; lia|].
destruct xs as [|y xs].
- cbn [map join items]. rewrite Hpv; [|now left|cbn; tauto]. reflexivity.
- cbn [map join]. rewrite !append_assoc. cbn [append items].
  rewrite Hpv; [|now left|cbn; tauto]. cbn [skip_ws is_ws]. cbn - [items join map].
  change (JSON_stringify y :: map JSON_stringify xs) with (map JSON_stringify (y :: xs)).
  rewrite IH; [reflexivity|discriminate|cbn in *; lia|].
  intros z Hz. apply Hpv. now right.
Qed.

Lemma field_ok k v rest :
  pv (JSON_stringify v ++ rest) = Some (v, rest) ->
  field pv (field_text (k, v) ++ rest) = Some ((k, v), rest).
Proof.
intros Hpv. unfold field_text. cbn [fst snd].
rewrite append_assoc, quote_append. unfold field. cbn - [string_body].
rewrite string_body_escape. cbn. now rewrite Hpv.
Qed.

Lemma fields_ok fs : forall n rest,
  fs <> [] ->
  (List.length fs <= n)%nat ->
  (forall kv, In kv fs -> forall rest', closes rest' ->
              pv (JSON_stringify (snd kv) ++ rest') = Some (snd kv, rest')) ->
  fields pv n (join "," (map field_text fs) ++ String "}" rest) = Some (fs, rest).
Proof.
induction fs as [|[k v] fs IH]; intros n rest Hne Hn Hpv; [congruence|].
destruct n as [|n]; [cbn in Hn; lia|].
destruct fs as [|kv fs].
- cbn [map join fields]. rewrite field_ok; [reflexivity|].
  apply (Hpv (k, v)); [now left|cbn; tauto].
- cbn [map join]. rewrite !append_assoc. cbn [append fields].
  rewrite field_ok; [|apply (Hpv (k, v)); [now left|cbn; tauto]].
  cbn - [fields join map].
  change (field_text kv :: map field_text fs) with (map field_text (kv :: fs)).
  rewrite IH; [reflexivity|discriminate|cbn in *; lia|].
  intros z Hz. apply Hpv. now right.
Qed.
End Composite.

Lemma decimal_head z :
  exists c r, decimal z = String c r /\ (is_digit c = true \/ c = "-"%char).
Proof.
unfold decimal. destruct z as [|p|p]; cbn [Z.to_int NilZero.string_of_int].
- eexists _, _. split; [reflexivity|now left].
- destruct (head_uint (Pos.to_uint p)) as (c & r & -> & Hc).
  eexists _, _. split; [reflexivity|now left].
- eexists _, _. split; [reflexivity|now right].
Qed.

Lemma stringify_not_empty v : JSON_stringify v <> "".
Proof. destruct (stringify_head v) as (c & s & -> & _). discriminate. Qed.

Lemma stringify_fields fs :
  JSON_stringify (JObj fs) = ("{" ++ join "," (map field_text fs) ++ "}")%string.
Proof. reflexivity. Qed.

Lemma field_text_not_empty kv : field_text kv <> "".
Proof. unfold field_text, quote, str1. cbn. discriminate. Qed.

Lemma value_object fuel s :
  value (S fuel) (String "{" (String dquote s))
  = match fields (value fuel) (String.length (String dquote s)) (String dquote s) with
    | Some (kvs, rest) => Some (JObj kvs, rest)
    | None => None
    end.
Proof. reflexivity. Qed.

(** Parsing the printed text of a value gives the value back, whatever
    follows it in an enclosing array or object. *)
Lemma value_stringify v : forall fuel rest,
  (String.length (JSON_stringify v) < fuel)%nat ->
  closes rest ->
  value fuel (JSON_stringify v ++ rest) = Some (v, rest).
Proof.
induction v as [|b|z|str|xs IH|fs IH] using json_nested_ind;
  intros fuel rest Hfuel Hrest; (destruct fuel as [|fuel]; [lia|]).
- apply value_null.
- destruct b; [apply value_true|apply value_false].
- cbn [JSON_stringify].
  destruct (decimal_head z) as (c & r & E & Hc).
  rewrite <- (number_decimal z rest (closes_no_digit _ Hrest)).
  rewrite E. cbn [append]. now apply value_number.
- apply value_string.
- cbn [JSON_stringify] in *. destruct xs as [|x xs].
  + reflexivity.
  + set (J := join "," (map JSON_stringify (x :: xs))) in *.
    assert (EJ : (("[" ++ J ++ "]") ++ rest = String "[" (J ++ String "]" rest))%string).
    { cbn [append]. now rewrite append_assoc. }
    rewrite EJ.
    assert (HJ : exists c s, (J ++ String "]" rest)%string = String c s /\ opens c).
    { destruct (stringify_head x) as (c & s & E & Hc). subst J.
      destruct xs; cbn [map join]; rewrite E; cbn [append]; eauto. }
    destruct HJ as (c & s & E & Hc). rewrite E, (value_array fuel c s Hc), <- E.
    cbn [append String.length] in Hfuel. rewrite length_append in Hfuel.
    change (String.length "]") with 1%nat in Hfuel.
    change (String.length "}") with 1%nat in Hfuel.
    subst J. rewrite items_ok; [reflexivity|discriminate| |].
    * rewrite length_append.
      assert (H := length_join_count "," (map JSON_stringify (x :: xs))).
      rewrite length_map in H.
      enough (List.length (x :: xs) <= String.length (join "," (map JSON_stringify (x :: xs))))%nat by lia.
      apply H. intros y Hy. apply in_map_iff in Hy. destruct Hy as (w & <- & _).
      apply stringify_not_empty.
    * intros y Hy rest' Hrest'. apply IH; [assumption| |assumption].
      assert (H := length_join_elem "," (map JSON_stringify (x :: xs)) (JSON_stringify y)
                     (in_map _ _ _ Hy)). lia.
- rewrite stringify_fields in *. destruct fs as [|kv fs].
  + reflexivity.
  + set (J := join "," (map field_text (kv :: fs))) in *.
    assert (EJ : (("{" ++ J ++ "}") ++ rest = String "{" (J ++ String "}" rest))%string).
    { cbn [append]. now rewrite append_assoc. }
    rewrite EJ.
    assert (HJ : exists s, (J ++ String "}" rest)%string = String dquote s).
    { subst J. destruct fs; cbn [map join]; unfold field_text at 1, quote, str1;
        cbn [append]; eauto. }
    destruct HJ as (s & E). rewrite E, (value_object fuel s), <- E.
    cbn [append String.length] in Hfuel. rewrite length_append in Hfuel.
    change (String.length "]") with 1%nat in Hfuel.
    change (String.length "}") with 1%nat in Hfuel.
    subst J. rewrite fields_ok; [reflexivity|discriminate| |].
    * rewrite length_append.
      assert (H := length_join_count "," (map field_text (kv :: fs))).
      rewrite length_map in H.
      enough (List.length (kv :: fs) <= String.length (join "," (map field_text (kv :: fs))))%nat by lia.
      apply H. intros y Hy. apply in_map_iff in Hy. destruct Hy as (w & <- & _).
      apply field_text_not_empty.
    * intros y Hy rest' Hrest'. apply IH; [assumption| |assumption].
      assert (H := length_join_elem "," (map field_text (kv :: fs)) (field_text y)
                     (in_map _ _ _ Hy)).
      unfold field_text at 1 in H. rewrite !length_append in H. lia.
Qed.

Lemma append_empty (s : string) : (s ++ "")%string = s.
Proof. induction s as [|c s IH]; cbn; [reflexivity|now rewrite IH]. Qed.

End JsonRoundTrip.

Lemma JSON_parse_stringify (v : json) : JSON_parse (JSON_stringify v) = Normal v.
Proof.
unfold JSON_parse.
rewrite <- (JsonRoundTrip.append_empty (JSON_stringify v)) at 2.
rewrite JsonRoundTrip.value_stringify; [reflexivity|lia|exact I].
Qed.

(** ** Maps *)

Module JsMapFacts.
Import JsMap.

Section Facts.
Context {V : Type}.
Implicit Types (m : JsMap.t V) (k : string) (v : V).

Lemma get_set_same k v m : get k (set k v m) = Some v.
Proof.
  induction m as [|[k' v'] m IH]; simpl.
  - now rewrite String.eqb_refl.
  - destruct (String.eqb k k') eqn:E; simpl; rewrite ?String.eqb_refl, ?E; auto.
Qed.

Lemma get_set_other k k' v m : k <> k' -> get k' (set k v m) = get k' m.
Proof.
  intros Hne. induction m as [|[k0 v0] m IH]; simpl.
  - destruct (String.eqb_spec k' k); congruence.
  - destruct (String.eqb_spec k k0) as [->|Hk]; simpl.
    + destruct (String.eqb_spec k' k0); congruence.
    + now rewrite IH.
Qed.

Lemma get_delete_same k m : get k (delete k m) = None.
Proof.
  induction m as [|[k' v'] m IH]; simpl; auto.
  destruct (String.eqb k k') eqn:E; simpl; rewrite ?E; auto.
Qed.

Lemma get_delete_other k k' m : k <> k' -> get k' (delete k m) = get k' m.
Proof.
  intros Hne. induction m as [|[k0 v0] m IH]; simpl; auto.
  destruct (String.eqb_spec k k0) as [->|Hk]; simpl.
  - destruct (String.eqb_spec k' k0); congruence.
  - now rewrite IH.
Qed.

Lemma has_set_same k v m : has k (set k v m) = true.
Proof. unfold has. now rewrite get_set_same. Qed.

Lemma has_set_other k k' v m : k <> k' -> has k' (set k v m) = has k' m.
Proof. intros. unfold has. now rewrite get_set_other. Qed.

Lemma has_delete_same k m : has k (delete k m) = false.
Proof. unfold has. now rewrite get_delete_same. Qed.

Lemma has_delete_other k k' m : k <> k' -> has k' (delete k m) = has k' m.
Proof. intros. unfold has. now rewrite get_delete_other. Qed.

Lemma has_delete_false k k' m : has k' m = false -> has k' (delete k m) = false.
Proof.
  intros H. destruct (string_dec k k') as [->|Hne].
  - apply has_delete_same.
  - now rewrite has_delete_other.
Qed.

Lemma get_In k v m : get k m = Some v -> In (k, v) m.
Proof.
  induction m as [|[k' v'] m IH]; simpl; [discriminate|].
  destruct (String.eqb_spec k k') as [->|Hk]; intros H.
  - left. congruence.
  - right. auto.
Qed.

Lemma has_keys k m : has k m = true <-> In k (keys m).
Proof.
  unfold has, keys. induction m as [|[k' v'] m IH]; simpl.
  - split; [discriminate|tauto].
  - destruct (String.eqb_spec k k') as [->|Hk].
    + split; auto.
    + rewrite IH. split; [tauto|]. intros [H|H]; [congruence|auto].
Qed.

Lemma In_get k v m : NoDup (keys m) -> In (k, v) m -> get k m = Some v.
Proof.
  unfold keys. induction m as [|[k' v'] m IH]; simpl; [tauto|].
  intros Hnd [H|H].
  - inversion H; subst. now rewrite String.eqb_refl.
  - inversion Hnd as [|? ? Hnotin Hnd']; subst.
    destruct (String.eqb_spec k k') as [->|Hk]; auto.
    exfalso. apply Hnotin. change k' with (fst (k', v)). now apply in_map.
Qed.

Lemma keys_set k k' v m : In k' (keys (set k v m)) <-> k' = k \/ In k' (keys m).
Proof.
  unfold keys. induction m as [|[k0 v0] m IH]; simpl.
  - intuition.
  - destruct (String.eqb_spec k k0) as [->|Hk]; simpl.
    + intuition.
    + rewrite IH. intuition.
Qed.

Lemma keys_delete k k' m : In k' (keys (delete k m)) <-> k' <> k /\ In k' (keys m).
Proof.
  unfold keys, delete. induction m as [|[k0 v0] m IH]; simpl.
  - intuition.
  - destruct (String.eqb_spec k k0) as [->|Hk]; simpl; rewrite IH.
    + intuition congruence.
    + intuition congruence.
Qed.

Lemma In_set k v m kv : In kv (set k v m) -> kv = (k, v) \/ In kv m.
Proof.
  induction m as [|[k0 v0] m IH]; simpl.
  - intuition.
  - destruct (String.eqb k k0); simpl; intuition.
Qed.

Lemma In_delete k m kv : In kv (delete k m) -> In kv m /\ fst kv <> k.
Proof.
  unfold delete. rewrite filter_In. intros [H1 H2]. split; auto.
  destruct (String.eqb_spec k (fst kv)); simpl in H2; congruence.
Qed.

Lemma NoDup_set k v m : NoDup (keys m) -> NoDup (keys (set k v m)).
Proof.
  unfold keys. induction m as [|[k0 v0] m IH]; simpl; intros Hnd.
  - constructor; [tauto|constructor].
  - inversion Hnd as [|? ? Hnotin Hnd']; subst.
    destruct (String.eqb_spec k k0) as [->|Hk]; simpl.
    + now constructor.
    + constructor; auto.
      intros Hin. apply (keys_set k k0 v m) in Hin. destruct Hin; [congruence|auto].
Qed.

Lemma NoDup_delete k m : NoDup (keys m) -> NoDup (keys (delete k m)).
Proof.
  unfold keys, delete. induction m as [|[k0 v0] m IH]; simpl; intros Hnd; auto.
  inversion Hnd as [|? ? Hnotin Hnd']; subst.
  destruct (String.eqb k k0); simpl; auto.
  constructor; auto.
  intros Hin. apply Hnotin. apply in_map_iff in Hin. destruct Hin as [x [Hx Hin]].
  apply filter_In in Hin. apply in_map_iff. exists x. tauto.
Qed.

Lemma set_not_empty k v m : set k v m <> [].
Proof. destruct m as [|[k0 v0] m]; simpl; [|destruct (String.eqb k k0)]; discriminate. Qed.

Lemma delete_absent k m : has k m = false -> delete k m = m.
Proof.
  unfold has, delete. induction m as [|[k0 v0] m IH]; simpl; auto.
  destruct (String.eqb k k0); simpl; [discriminate|].
  intros H. now rewrite IH.
Qed.
End Facts.
End JsMapFacts.

(** ** The stable sort and its first element *)

Section SortFacts.
Variable f : Entry.t -> Z.

Lemma hd_insert_by x l :
  hd_error (insert_by f x l)
  = match hd_error l with
    | Some y => if f x <=? f y then Some x else Some y
    | None => Some x
    end.
Proof. destruct l as [|y l]; simpl; auto. destruct (f x <=? f y); auto. Qed.

Lemma hd_sort_by l : hd_error (sort_by f l) = first_least f l.
Proof.
  induction l as [|x l IH]; simpl; auto.
  now rewrite hd_insert_by, IH.
Qed.

Lemma first_least_None l : first_least f l = None -> l = [].
Proof.
  destruct l as [|x l]; simpl; auto.
  destruct (first_least f l) as [y|]; [destruct (f x <=? f y)|]; discriminate.
Qed.

Lemma first_least_split l x :
  first_least f l = Some x ->
  exists l1 l2, l = l1 ++ x :: l2
                /\ (forall y, In y l1 -> f x < f y)
                /\ (forall y, In y l2 -> f x <= f y).
Proof.
  revert x. induction l as [|a l IH]; simpl; intros x H; [discriminate|].
  destruct (first_least f l) as [y|] eqn:E.
  - destruct (IH y eq_refl) as (l1 & l2 & Hl & H1 & H2).
    destruct (Z.leb_spec (f a) (f y)); inversion H; subst.
    + exists [], (l1 ++ y :: l2). split; [reflexivity|]. split; [simpl; tauto|].
      intros z Hz. apply in_app_or in Hz. destruct Hz as [Hz|[<-|Hz]].
      * apply H1 in Hz. lia.
      * lia.
      * apply H2 in Hz. lia.
    + exists (a :: l1), l2. split; [reflexivity|]. split; auto.
      intros z [<-|Hz]; auto.
  - apply first_least_None in E. subst. inversion H; subst.
    exists [], []. simpl. tauto.
Qed.

Lemma first_least_In l x : first_least f l = Some x -> In x l.
Proof.
  intros H. destruct (first_least_split _ _ H) as (l1 & l2 & -> & _).
  apply in_or_app. right. now left.
Qed.

Lemma first_least_le l x y : first_least f l = Some x -> In y l -> f x <= f y.
Proof.
  intros H Hy. destruct (first_least_split _ _ H) as (l1 & l2 & -> & H1 & H2).
  apply in_app_or in Hy. destruct Hy as [Hy|[<-|Hy]].
  - apply H1 in Hy. lia.
  - lia.
  - auto.
Qed.

Lemma sort_by_head l :
  sort_by f l = match first_least f l with
                | Some x => x :: tl (sort_by f l)
                | None => []
                end.
Proof.
  rewrite <- hd_sort_by. destruct (sort_by f l); reflexivity.
Qed.
End SortFacts.

(** ** Sizes *)

Lemma getSize_nonneg v : 0 <= getSize v.
Proof. unfold getSize, strlen. lia. Qed.

Lemma fold_size_shift (l : list Entry.t) (a : Z) :
  fold_left (fun sum e => sum + getSize (Entry.value e)) l a
  = a + fold_left (fun sum e => sum + getSize (Entry.value e)) l 0.
Proof.
  revert a. induction l as [|e l IH]; intros a; cbn [fold_left]; [lia|].
  rewrite (IH (a + _)), (IH (0 + _)). lia.
Qed.

Lemma total_size_nil : total_size [] = 0.
Proof. reflexivity. Qed.

Lemma total_size_cons k e m :
  total_size ((k, e) :: m) = getSize (Entry.value e) + total_size m.
Proof.
  unfold total_size, JsMap.values. simpl. rewrite fold_size_shift. lia.
Qed.

Lemma total_size_nonneg m : 0 <= total_size m.
Proof.
  induction m as [|[k e] m IH]; [rewrite total_size_nil; lia|].
  rewrite total_size_cons. pose proof (getSize_nonneg (Entry.value e)). lia.
Qed.

Lemma total_size_delete_le k m : total_size (JsMap.delete k m) <= total_size m.
Proof.
  induction m as [|[k' e] m IH]; simpl; [lia|].
  destruct (String.eqb k k'); simpl; rewrite ?total_size_cons.
  - pose proof (getSize_nonneg (Entry.value e)). lia.
  - lia.
Qed.

Lemma total_size_delete k e m :
  NoDup (JsMap.keys m) -> JsMap.get k m = Some e ->
  total_size (JsMap.delete k m) = total_size m - getSize (Entry.value e).
Proof.
  unfold JsMap.keys. induction m as [|[k' e'] m IH]; simpl; [discriminate|].
  intros Hnd Hget. inversion Hnd as [|? ? Hnotin Hnd']; subst.
  destruct (String.eqb_spec k k') as [->|Hk]; simpl.
  - inversion Hget; subst. rewrite total_size_cons.
    rewrite JsMapFacts.delete_absent; [lia|].
    destruct (JsMap.has k' m) eqn:E; auto.
    apply JsMapFacts.has_keys in E. contradiction.
  - rewrite !total_size_cons, IH; auto. lia.
Qed.

Lemma length_delete k (e : Entry.t) (m : JsMap.t Entry.t) :
  NoDup (JsMap.keys m) -> JsMap.get k m = Some e ->
  S (List.length (JsMap.delete k m)) = List.length m.
Proof.
  unfold JsMap.keys. induction m as [|[k' e'] m IH]; simpl; [discriminate|].
  intros Hnd Hget. inversion Hnd as [|? ? Hnotin Hnd']; subst.
  destruct (String.eqb_spec k k') as [->|Hk]; simpl.
  - rewrite JsMapFacts.delete_absent; auto.
    destruct (JsMap.has k' m) eqn:E; auto.
    apply JsMapFacts.has_keys in E. contradiction.
  - f_equal. now apply IH.
Qed.

Lemma size_delete k (e : Entry.t) (m : JsMap.t Entry.t) :
  NoDup (JsMap.keys m) -> JsMap.get k m = Some e ->
  JsMap.size (JsMap.delete k m) = JsMap.size m - 1.
Proof.
  intros Hnd Hget. unfold JsMap.size.
  rewrite <- (length_delete k e m Hnd Hget). lia.
Qed.

(** ** What [set] and [get] compute *)

Section CacheFacts.
Context {R : Runtime}.

Lemma values_nil (m : JsMap.t Entry.t) : JsMap.values m = [] -> m = [].
Proof. destruct m; [auto|discriminate]. Qed.

Lemma checkMemoryEviction_run c :
  memoryCache c <> [] ->
  checkMemoryEviction c = (Normal tt, after_memory_check c).
Proof.
  intros Hne. unfold checkMemoryEviction, after_memory_check, evict.
  destruct (total_size (memoryCache c) >? maxMemorySize c); auto.
  rewrite sort_by_head.
  destruct (first_least Entry.lastAccess (JsMap.values (memoryCache c))) eqn:E; auto.
  apply first_least_None, values_nil in E. contradiction.
Qed.

Lemma checkDiskEviction_run c :
  diskCache c <> [] ->
  checkDiskEviction c = (Normal tt, after_disk_check c).
Proof.
  intros Hne. unfold checkDiskEviction, after_disk_check, evict.
  destruct (total_size (diskCache c) >? maxDiskSize c); auto.
  rewrite sort_by_head.
  destruct (first_least Entry.timestamp (JsMap.values (diskCache c))) eqn:E; auto.
  apply first_least_None, values_nil in E. contradiction.
Qed.

(** [set] never throws. *)
Lemma set_run c key value options now :
  set key value options now c
  = (Normal (set_entry c key value options now), set_state c key value options now).
Proof.
  unfold set, set_state, set_stored, set_entry, bind, modify, ret.
  assert (Hmax : forall b, maxMemorySize (if b : bool then compressed_one c else c)
                           = maxMemorySize c) by (intros []; reflexivity).
  rewrite Hmax.
  destruct (getSize value <? maxMemorySize c).
  - rewrite checkMemoryEviction_run; [reflexivity|].
    simpl. apply JsMapFacts.set_not_empty.
  - rewrite checkDiskEviction_run; [reflexivity|].
    simpl. apply JsMapFacts.set_not_empty.
Qed.

Lemma get_memory_hit c key now e :
  JsMap.get (hashKey key) (memoryCache c) = Some e ->
  isExpired now e = false ->
  get key now c
  = (Normal (Entry.value e),
     with_memoryCache
       (JsMap.set (hashKey key) (Entry.touch (Entry.accessCount e + 1) now e) (memoryCache c))
       (hit c)).
Proof. intros Hget Hlive. unfold get. now rewrite Hget, Hlive. Qed.

Lemma diskCache_after_memory_miss key c :
  diskCache (after_memory_miss key c) = diskCache c.
Proof. unfold after_memory_miss. now destruct (JsMap.get _ _). Qed.

Lemma get_disk_hit c key now e v :
  memory_live key now c = false ->
  JsMap.get (hashKey key) (diskCache c) = Some e ->
  isExpired now e = false ->
  decompress (Entry.value e) (Entry.compressed e) = Normal v ->
  get key now c
  = (Normal v,
     hit (set_state (after_memory_miss key c) key v
                    (mk_set_options (Some (ttl c)) None) now)).
Proof.
  unfold memory_live, after_memory_miss, get. intros Hmem Hget Hlive Hdec.
  destruct (JsMap.get (hashKey key) (memoryCache c)) as [e0|] eqn:E.
  - destruct (isExpired now e0); [|discriminate]. simpl.
    rewrite Hget, Hlive. simpl. unfold bind, lift, modify, ret. rewrite Hdec.
    now rewrite set_run.
  - rewrite Hget, Hlive. simpl. unfold bind, lift, modify, ret. rewrite Hdec.
    now rewrite set_run.
Qed.

Lemma get_miss c key now :
  memory_live key now c = false ->
  match JsMap.get (hashKey key) (diskCache c) with
  | Some e => isExpired now e = true
  | None => True
  end ->
  get key now c
  = (Normal JNull,
     miss (with_diskCache (JsMap.delete (hashKey key) (diskCache c))
                          (after_memory_miss key c))).
Proof.
  unfold memory_live, after_memory_miss, get. intros Hmem Hdisk.
  destruct (JsMap.get (hashKey key) (memoryCache c)) as [e0|] eqn:E.
  - destruct (isExpired now e0); [|discriminate]. simpl.
    destruct (JsMap.get (hashKey key) (diskCache c)) as [e|] eqn:E'.
    + now rewrite Hdisk.
    + rewrite (JsMapFacts.delete_absent _ (diskCache c)); [reflexivity|].
      unfold JsMap.has. now rewrite E'.
  - destruct (JsMap.get (hashKey key) (diskCache c)) as [e|] eqn:E'.
    + now rewrite Hdisk.
    + rewrite (JsMapFacts.delete_absent _ (diskCache c)); [reflexivity|].
      unfold JsMap.has. now rewrite E'.
Qed.

End CacheFacts.

(** ** Round trip through [set] and [get] *)

Section RoundTrip.
Context {R : Runtime}.

Lemma get_delete_Some {V} (k h : string) (m : JsMap.t V) (x : V) :
  JsMap.get h (JsMap.delete k m) = Some x -> JsMap.get h m = Some x.
Proof.
  destruct (string_dec k h) as [->|Hne].
  - now rewrite JsMapFacts.get_delete_same.
  - now rewrite JsMapFacts.get_delete_other.
Qed.

Lemma get_evict_Some f h m x :
  JsMap.get h (evict f m) = Some x -> JsMap.get h m = Some x.
Proof.
  unfold evict. destruct (first_least f (JsMap.values m)); auto.
  apply get_delete_Some.
Qed.

(** An entry found in memory right after a [set] that chose the memory
    tier is the entry that [set] built. *)
Lemma memory_after_set c key value options now x :
  getSize value < maxMemorySize c ->
  JsMap.get (hashKey key) (memoryCache (set_state c key value options now)) = Some x ->
  x = set_entry c key value options now.
Proof.
  intros Hsmall. unfold set_state, set_stored.
  apply Z.ltb_lt in Hsmall. rewrite Hsmall.
  unfold after_memory_check.
  match goal with |- context [if ?b then evicted_one _ else _] => destruct b end;
    simpl; intros H; [apply get_evict_Some in H|];
    destruct (getSize value >? compressionThreshold c); simpl in H;
    rewrite JsMapFacts.get_set_same in H; congruence.
Qed.

Lemma disk_after_set c key value options now x :
  maxMemorySize c <= getSize value ->
  JsMap.get (hashKey key) (diskCache (set_state c key value options now)) = Some x ->
  x = set_entry c key value options now.
Proof.
  intros Hbig. unfold set_state, set_stored.
  apply Z.ltb_ge in Hbig. rewrite Hbig.
  unfold after_disk_check.
  match goal with |- context [if ?b then evicted_one _ else _] => destruct b end;
    simpl; intros H; [apply get_evict_Some in H|];
    destruct (getSize value >? compressionThreshold c); simpl in H;
    rewrite JsMapFacts.get_set_same in H; congruence.
Qed.

(** C1 (the code departs from the claim).  A value above the compression
    threshold that [set] places in the memory tier is stored as its
    compressed payload, and the memory branch of [get] returns the stored
    field as it is: the [get] that follows the [set] returns the base64
    string [compress value], not [value]. *)
Theorem get_after_set_returns_compressed_payload
        (c : cache) (key : string) (value : json) (options : set_options) (now : Z) :
  compressionThreshold c < getSize value ->
  getSize value < maxMemorySize c ->
  0 <= or_default (opt_ttl options) (ttl c) ->
  JsMap.has (hashKey key) (memoryCache (snd (set key value options now c))) = true ->
  fst (get key now (snd (set key value options now c)))
  = Normal (JStr (deflate_base64 (JSON_stringify value)))
  /\ (forall items, value = JArr items ->
      fst (get key now (snd (set key value options now c))) <> Normal value).
Proof.
  intros Hbig Hsmall Httl Hin. rewrite set_run in *. simpl in *.
  unfold JsMap.has in Hin.
  destruct (JsMap.get (hashKey key) (memoryCache (set_state c key value options now)))
    as [x|] eqn:E; [|discriminate].
  pose proof (memory_after_set _ _ _ _ _ _ Hsmall E) as ->.
  assert (Hget : fst (get key now (set_state c key value options now))
                 = Normal (JStr (deflate_base64 (JSON_stringify value)))).
  { rewrite (get_memory_hit _ _ _ _ E).
    - simpl. apply Z.gtb_lt in Hbig. now rewrite Hbig.
    - unfold isExpired. simpl. rewrite Z.gtb_ltb. apply Z.ltb_ge. lia. }
  split; [exact Hget|].
  intros items ->. rewrite Hget. discriminate.
Qed.

End RoundTrip.

Lemma get_after_set_returns_compressed_payload_witness :
  let R := example_runtime in
  fst (get "k" 1000 (snd (set "k" six_hundred_ones default_set_options 1000
                              (new_cache no_options))))
  = Normal (JStr (deflate_base64 (JSON_stringify six_hundred_ones)))
  /\ (forall items, six_hundred_ones = JArr items ->
      fst (get "k" 1000 (snd (set "k" six_hundred_ones default_set_options 1000
                                  (new_cache no_options))))
      <> Normal six_hundred_ones).
Proof.
  apply (@get_after_set_returns_compressed_payload example_runtime
           (new_cache no_options) "k" six_hundred_ones default_set_options 1000).
  - vm_compute. reflexivity.
  - vm_compute. reflexivity.
  - vm_compute. discriminate.
  - vm_compute. reflexivity.
Defined.

(** ** Which fields a step leaves alone *)

Section Frames.
Context {R : Runtime}.

Lemma memoryCache_after_disk_check c :
  memoryCache (after_disk_check c) = memoryCache c.
Proof. unfold after_disk_check. now destruct (_ >? _). Qed.

Lemma diskCache_after_memory_check c :
  diskCache (after_memory_check c) = diskCache c.
Proof. unfold after_memory_check. now destruct (_ >? _). Qed.

Lemma memoryCache_set_stored_big c key value options now :
  maxMemorySize c <= getSize value ->
  memoryCache (set_stored c key value options now) = memoryCache c.
Proof.
  intros H. apply Z.ltb_ge in H. unfold set_stored. rewrite H.
  now destruct (getSize value >? compressionThreshold c).
Qed.

Lemma diskCache_set_stored_small c key value options now :
  getSize value < maxMemorySize c ->
  diskCache (set_stored c key value options now) = diskCache c.
Proof.
  intros H. apply Z.ltb_lt in H. unfold set_stored. rewrite H.
  now destruct (getSize value >? compressionThreshold c).
Qed.

Lemma memoryCache_set_stored_small c key value options now :
  getSize value < maxMemorySize c ->
  memoryCache (set_stored c key value options now)
  = JsMap.set (hashKey key) (set_entry c key value options now) (memoryCache c).
Proof.
  intros H. apply Z.ltb_lt in H. unfold set_stored. rewrite H.
  now destruct (getSize value >? compressionThreshold c).
Qed.

Lemma diskCache_set_stored_big c key value options now :
  maxMemorySize c <= getSize value ->
  diskCache (set_stored c key value options now)
  = JsMap.set (hashKey key) (set_entry c key value options now) (diskCache c).
Proof.
  intros H. apply Z.ltb_ge in H. unfold set_stored. rewrite H.
  now destruct (getSize value >? compressionThreshold c).
Qed.

Lemma config_set_stored c key value options now :
  maxMemorySize (set_stored c key value options now) = maxMemorySize c
  /\ maxDiskSize (set_stored c key value options now) = maxDiskSize c
  /\ compressionThreshold (set_stored c key value options now) = compressionThreshold c
  /\ ttl (set_stored c key value options now) = ttl c.
Proof.
  unfold set_stored.
  destruct (getSize value <? maxMemorySize c), (getSize value >? compressionThreshold c);
    repeat split.
Qed.

Lemma memoryCache_set_state_big c key value options now :
  maxMemorySize c <= getSize value ->
  memoryCache (set_state c key value options now) = memoryCache c.
Proof.
  intros H. unfold set_state. pose proof H as H'. apply Z.ltb_ge in H'. rewrite H'.
  now rewrite memoryCache_after_disk_check, memoryCache_set_stored_big.
Qed.

Lemma diskCache_set_state_small c key value options now :
  getSize value < maxMemorySize c ->
  diskCache (set_state c key value options now) = diskCache c.
Proof.
  intros H. unfold set_state. pose proof H as H'. apply Z.ltb_lt in H'. rewrite H'.
  now rewrite diskCache_after_memory_check, diskCache_set_stored_small.
Qed.

Lemma has_after_memory_miss key c :
  JsMap.has (hashKey key) (memoryCache (after_memory_miss key c))
  = false.
Proof.
  unfold after_memory_miss.
  destruct (JsMap.get (hashKey key) (memoryCache c)) eqn:E; simpl.
  - apply JsMapFacts.has_delete_same.
  - unfold JsMap.has. now rewrite E.
Qed.

Lemma config_after_memory_miss key c :
  maxMemorySize (after_memory_miss key c) = maxMemorySize c
  /\ maxDiskSize (after_memory_miss key c) = maxDiskSize c
  /\ compressionThreshold (after_memory_miss key c) = compressionThreshold c
  /\ ttl (after_memory_miss key c) = ttl c.
Proof. unfold after_memory_miss. destruct (JsMap.get _ _); repeat split. Qed.

End Frames.

(** ** Promotion *)

Section Promotion.
Context {R : Runtime}.

(** C3 (the code departs from the claim).  A live disk-tier entry whose
    value is at or above the memory placement threshold is returned by
    [get], but the [set] that [get] calls to promote it chooses the tier by
    the same size test again: the entry goes back to the disk tier, the
    memory tier still has no entry for the key, and no later [get] of the
    key is answered from memory. *)
Theorem disk_hit_is_not_promoted (c : cache) (key : string) (now : Z)
        (e : Entry.t) (v : json) :
  memory_live key now c = false ->
  JsMap.get (hashKey key) (diskCache c) = Some e ->
  isExpired now e = false ->
  decompress (Entry.value e) (Entry.compressed e) = Normal v ->
  maxMemorySize c <= getSize v ->
  fst (get key now c) = Normal v
  /\ JsMap.has (hashKey key) (memoryCache (snd (get key now c))) = false
  /\ forall later, memory_live key later (snd (get key now c)) = false.
Proof.
  intros Hmem Hget Hlive Hdec Hbig.
  rewrite (get_disk_hit _ _ _ _ _ Hmem Hget Hlive Hdec). simpl.
  assert (Hno : JsMap.has (hashKey key)
                  (memoryCache (set_state (after_memory_miss key c) key v
                                          (mk_set_options (Some (ttl c)) None) now)) = false).
  { rewrite memoryCache_set_state_big.
    - apply has_after_memory_miss.
    - destruct (config_after_memory_miss key c) as (-> & _). exact Hbig. }
  split; [reflexivity|]. split; [exact Hno|].
  intros later. unfold memory_live. simpl.
  unfold JsMap.has in Hno. revert Hno.
  match goal with |- context [JsMap.get ?h ?m] => destruct (JsMap.get h m) end;
    [discriminate 1|auto].
Qed.

End Promotion.

Lemma disk_hit_is_not_promoted_witness :
  let R := example_runtime in
  let c := snd (set "k" (JStr "0123456789") default_set_options 1000 ten_byte_budget) in
  fst (get "k" 1001 c) = Normal (JStr "0123456789")
  /\ JsMap.has (hashKey "k") (memoryCache (snd (get "k" 1001 c))) = false
  /\ forall later, memory_live "k" later (snd (get "k" 1001 c)) = false.
Proof.
  apply (@disk_hit_is_not_promoted example_runtime
           (snd (@set example_runtime "k" (JStr "0123456789") default_set_options 1000
                      ten_byte_budget))
           "k" 1001
           (@set_entry example_runtime ten_byte_budget "k" (JStr "0123456789")
                       default_set_options 1000)
           (JStr "0123456789")).
  - vm_compute. reflexivity.
  - vm_compute. reflexivity.
  - vm_compute. reflexivity.
  - vm_compute. reflexivity.
  - vm_compute. discriminate.
Defined.

(** ** Invalidation *)

Section Invalidation.
Context {R : Runtime}.

(** On a tier whose keys are distinct the loop of [invalidateByPattern]
    is a filter: exactly the entries whose original key matches go. *)
Lemma delete_matching_acc re (todo acc : JsMap.t Entry.t) :
  fold_left (fun acc kv =>
               if RegExp_test re (Entry.key (snd kv)) then JsMap.delete (fst kv) acc else acc)
            todo acc
  = filter (fun kv => negb (existsb (fun kv' => String.eqb (fst kv') (fst kv)
                                                && RegExp_test re (Entry.key (snd kv')))
                                    todo))
           acc.
Proof.
  revert acc. induction todo as [|[k e] todo IH]; intros acc; simpl.
  - induction acc as [|a acc IHacc]; simpl; congruence.
  - rewrite IH. destruct (RegExp_test re (Entry.key e)); simpl.
    + unfold JsMap.delete. induction acc as [|[k' e'] acc IHacc]; simpl; auto.
      rewrite (String.eqb_sym k k').
      destruct (String.eqb k' k); simpl.
      * apply IHacc.
      * destruct (existsb _ todo); simpl; [apply IHacc|now rewrite IHacc].
    + apply filter_ext. intros [k' e']. simpl. now rewrite andb_false_r.
Qed.

Lemma delete_matching_filter re (m : JsMap.t Entry.t) :
  NoDup (JsMap.keys m) ->
  delete_matching re m
  = filter (fun kv => negb (RegExp_test re (Entry.key (snd kv)))) m.
Proof.
  intros Hnd. unfold delete_matching. rewrite delete_matching_acc.
  apply filter_ext_in. intros [k e] Hin. simpl. f_equal.
  destruct (RegExp_test re (Entry.key e)) eqn:Ht.
  - apply existsb_exists. exists (k, e). simpl. now rewrite String.eqb_refl, Ht.
  - destruct (existsb _ m) eqn:Ex; auto.
    apply existsb_exists in Ex. destruct Ex as ([k' e'] & Hin' & Hx). simpl in Hx.
    apply andb_true_iff in Hx. destruct Hx as [Hk Ht'].
    apply String.eqb_eq in Hk. subst k'.
    pose proof (JsMapFacts.In_get _ _ _ Hnd Hin) as G1.
    pose proof (JsMapFacts.In_get _ _ _ Hnd Hin') as G2.
    congruence.
Qed.

(** In pattern mode a string key plays no part. *)
Lemma invalidate_pattern_ignores_string_key key a p c :
  invalidate (Some key) (mk_invalidate_options (Some (String a p))) c
  = invalidateByPattern (String a p) c.
Proof. reflexivity. Qed.

(** C5 (the code departs from the claim).  [invalidate] hashes its key
    argument before it looks at the options, and hashing [null] throws:
    [invalidate(null, {pattern})] ends in a [TypeError] and removes
    nothing, in either tier, whatever the pattern. *)
Theorem invalidate_null_key_throws (c : cache) (options : invalidate_options) :
  exists msg, invalidate None options c = (Throw (TypeError msg), c).
Proof. eexists. reflexivity. Qed.

(** The scenario of the claim: both entries are still there. *)
Lemma invalidate_null_userA_scenario v1 v2 t1 t2 :
  let c := snd (set "userB-query" v2 default_set_options t2
                    (snd (set "userA-query" v1 default_set_options t1
                              (new_cache no_options)))) in
  exists msg,
    invalidate None (mk_invalidate_options (Some "userA.*")) c
    = (Throw (TypeError msg), c).
Proof. intros c. eexists. reflexivity. Qed.

End Invalidation.

(** ** The entry written back by a disk hit *)

Section DiskHit.
Context {R : Runtime}.

Lemma get_set_state_memory c key value options now :
  getSize value < maxMemorySize c ->
  total_size (JsMap.set (hashKey key) (set_entry c key value options now) (memoryCache c))
  <= maxMemorySize c ->
  JsMap.get (hashKey key) (memoryCache (set_state c key value options now))
  = Some (set_entry c key value options now).
Proof.
  intros Hsmall Hfit. unfold set_state. pose proof Hsmall as H. apply Z.ltb_lt in H.
  rewrite H. unfold after_memory_check.
  destruct (config_set_stored c key value options now) as (-> & _).
  rewrite memoryCache_set_stored_small by assumption.
  rewrite Z.gtb_ltb. apply Z.ltb_ge in Hfit.
  rewrite Hfit. rewrite memoryCache_set_stored_small by assumption.
  apply JsMapFacts.get_set_same.
Qed.

Lemma get_set_state_disk c key value options now :
  maxMemorySize c <= getSize value ->
  total_size (JsMap.set (hashKey key) (set_entry c key value options now) (diskCache c))
  <= maxDiskSize c ->
  JsMap.get (hashKey key) (diskCache (set_state c key value options now))
  = Some (set_entry c key value options now).
Proof.
  intros Hbig Hfit. unfold set_state. pose proof Hbig as H. apply Z.ltb_ge in H.
  rewrite H. unfold after_disk_check.
  destruct (config_set_stored c key value options now) as (_ & -> & _).
  rewrite diskCache_set_stored_big by assumption.
  rewrite Z.gtb_ltb. apply Z.ltb_ge in Hfit.
  rewrite Hfit. rewrite diskCache_set_stored_big by assumption.
  apply JsMapFacts.get_set_same.
Qed.

(** C10.  A [get] that hits a live disk-tier entry calls [set] with the
    store's default TTL: the entry that call builds and stores expires at
    the current time plus the default TTL, whatever the expiry of the
    entry that was hit, and starts with [accessCount] 0, fresh timestamps
    and empty metadata.  It is the entry found under the key in the tier
    chosen by the value's size, unless the eviction check that follows
    removed it; it is there when that tier is within its budget. *)
Theorem disk_hit_reinserts_fresh_entry (c : cache) (key : string) (now : Z)
        (e : Entry.t) (v : json) :
  memory_live key now c = false ->
  JsMap.get (hashKey key) (diskCache c) = Some e ->
  isExpired now e = false ->
  decompress (Entry.value e) (Entry.compressed e) = Normal v ->
  exists fresh c',
    set key v (mk_set_options (Some (ttl c)) None) now (after_memory_miss key c)
    = (Normal fresh, c')
    /\ get key now c = (Normal v, hit c')
    /\ Entry.key fresh = key
    /\ Entry.ttl fresh = ttl c
    /\ Entry.expiresAt fresh = now + ttl c
    /\ Entry.accessCount fresh = 0
    /\ Entry.timestamp fresh = now
    /\ Entry.lastAccess fresh = now
    /\ Entry.metadata fresh = JObj []
    /\ (getSize v < maxMemorySize c ->
        (forall x, JsMap.get (hashKey key) (memoryCache (hit c')) = Some x -> x = fresh)
        /\ (total_size (JsMap.set (hashKey key) fresh (memoryCache (after_memory_miss key c)))
            <= maxMemorySize c ->
            JsMap.get (hashKey key) (memoryCache (hit c')) = Some fresh))
    /\ (maxMemorySize c <= getSize v ->
        (forall x, JsMap.get (hashKey key) (diskCache (hit c')) = Some x -> x = fresh)
        /\ (total_size (JsMap.set (hashKey key) fresh (diskCache c)) <= maxDiskSize c ->
            JsMap.get (hashKey key) (diskCache (hit c')) = Some fresh)).
Proof.
  intros Hmem Hget Hlive Hdec.
  destruct (config_after_memory_miss key c) as (Hmax & Hdmax & Hthr & Httl).
  exists (set_entry (after_memory_miss key c) key v (mk_set_options (Some (ttl c)) None) now),
         (set_state (after_memory_miss key c) key v (mk_set_options (Some (ttl c)) None) now).
  assert (Hdef : or_default (Some (ttl c)) (ttl c) = ttl c).
  { unfold or_default. destruct (ttl c =? 0); reflexivity. }
  split; [apply set_run|].
  split; [now apply get_disk_hit with (e := e)|].
  unfold set_entry at 1 2 3 4 5 6 7.
  cbn [Entry.key Entry.ttl Entry.expiresAt Entry.accessCount Entry.timestamp
       Entry.lastAccess Entry.metadata opt_ttl opt_metadata].
  rewrite Httl, Hdef.
  repeat (split; [reflexivity|]).
  split.
  - intros Hsmall. rewrite <- Hmax in Hsmall. split.
    + intros x Hx. simpl in Hx. now apply memory_after_set in Hx.
    + intros Hfit. simpl. rewrite <- Hmax in Hfit. now apply get_set_state_memory.
  - intros Hbig. rewrite <- Hmax in Hbig. split.
    + intros x Hx. simpl in Hx. now apply disk_after_set in Hx.
    + intros Hfit. simpl. rewrite <- Hdmax in Hfit.
      rewrite <- (diskCache_after_memory_miss key c) in Hfit.
      now apply get_set_state_disk.
Qed.

End DiskHit.

Lemma disk_hit_reinserts_fresh_entry_witness :
  let R := example_runtime in
  let c := snd (set "k" (JStr "0123456789") (mk_set_options (Some 5000) None) 1000
                    ten_byte_budget) in
  exists fresh c',
    get "k" 2000 c = (Normal (JStr "0123456789"), hit c')
    /\ Entry.expiresAt fresh = 2000 + ttl c
    /\ Entry.accessCount fresh = 0.
Proof.
  intros R c.
  pose (e := @set_entry example_runtime ten_byte_budget "k" (JStr "0123456789")
                        (mk_set_options (Some 5000) None) 1000).
  assert (H1 : memory_live "k" 2000 c = false) by (vm_compute; reflexivity).
  assert (H2 : JsMap.get (hashKey "k") (diskCache c) = Some e) by (vm_compute; reflexivity).
  assert (H3 : isExpired 2000 e = false) by (vm_compute; reflexivity).
  assert (H4 : decompress (Entry.value e) (Entry.compressed e) = Normal (JStr "0123456789"))
    by (vm_compute; reflexivity).
  destruct (@disk_hit_reinserts_fresh_entry example_runtime c "k" 2000 e
              (JStr "0123456789") H1 H2 H3 H4)
    as (fresh & c' & _ & Hget & _ & _ & Hexp & Hcount & _).
  exists fresh, c'. exact (conj Hget (conj Hexp Hcount)).
Defined.

(** ** Expiry *)

Section Expiry.
Context {R : Runtime}.

Lemma or_default_nonzero T d : T <> 0 -> or_default (Some T) d = T.
Proof. intros H. unfold or_default. apply Z.eqb_neq in H. now rewrite H. Qed.

Lemma has_get_Some {V} h (m : JsMap.t V) :
  JsMap.has h m = true -> exists x, JsMap.get h m = Some x.
Proof. unfold JsMap.has. destruct (JsMap.get h m) as [x|]; [eauto|discriminate]. Qed.

Lemma has_get_None {V} h (m : JsMap.t V) :
  JsMap.has h m = false -> JsMap.get h m = None.
Proof. unfold JsMap.has. destruct (JsMap.get h m) as [x|]; [discriminate|auto]. Qed.

Lemma decompress_set_entry c key value options now :
  decompress (Entry.value (set_entry c key value options now))
             (Entry.compressed (set_entry c key value options now))
  = Normal value.
Proof.
unfold set_entry, decompress, compress. cbn [Entry.value Entry.compressed].
destruct (getSize value >? compressionThreshold c); cbn [negb]; [|reflexivity].
rewrite inflate_deflate. apply JSON_parse_stringify.
Qed.

(** C7 (amended).  An entry set with a non-zero [ttl] of [T] at time [t0]
    that is where [set] put it, the other tier holding nothing under its
    hash, is returned by [get] up to and including time [t0 + T], and is
    absent at any later time: the test is [now > expiresAt].  The disk
    tier returns the value whether [set] compressed it or not; the memory
    tier returns the stored field, which is the value when [set] did not
    compress it. *)
Theorem ttl_expiry_boundary (c : cache) (key : string) (value : json) (T : Z)
        (metadata : option json) (t0 t : Z) :
  T <> 0 ->
  (if getSize value <? maxMemorySize c
   then JsMap.has (hashKey key)
          (memoryCache (snd (set key value (mk_set_options (Some T) metadata) t0 c))) = true
        /\ JsMap.has (hashKey key)
             (diskCache (snd (set key value (mk_set_options (Some T) metadata) t0 c))) = false
   else JsMap.has (hashKey key)
          (diskCache (snd (set key value (mk_set_options (Some T) metadata) t0 c))) = true
        /\ JsMap.has (hashKey key)
             (memoryCache (snd (set key value (mk_set_options (Some T) metadata) t0 c))) = false) ->
  (t <= t0 + T ->
   (getSize value < maxMemorySize c -> getSize value <= compressionThreshold c) ->
   fst (get key t (snd (set key value (mk_set_options (Some T) metadata) t0 c)))
   = Normal value)
  /\ (t0 + T < t ->
      fst (get key t (snd (set key value (mk_set_options (Some T) metadata) t0 c)))
      = Normal JNull).
Proof.
  intros HT. rewrite set_run. simpl.
  set (options := mk_set_options (Some T) metadata).
  set (c1 := set_state c key value options t0).
  assert (Hexp : forall now, isExpired now (set_entry c key value options t0)
                             = (now >? t0 + T)).
  { intros now. unfold isExpired, set_entry, options.
    cbn [Entry.expiresAt opt_ttl]. now rewrite or_default_nonzero. }
  destruct (Z.ltb_spec (getSize value) (maxMemorySize c)) as [Hsmall|Hbig];
    intros [Hmine Hother].
  - apply has_get_Some in Hmine. destruct Hmine as [x Hx].
    pose proof (memory_after_set _ _ _ _ _ _ Hsmall Hx) as ->.
    apply has_get_None in Hother.
    split.
    + intros Ht Hraw. specialize (Hraw Hsmall). rewrite (get_memory_hit _ _ _ _ Hx).
      * simpl.
        destruct (Z.gtb_spec (getSize value) (compressionThreshold c)); [lia|reflexivity].
      * rewrite Hexp. rewrite Z.gtb_ltb. apply Z.ltb_ge. lia.
    + intros Ht. rewrite get_miss; [reflexivity| |].
      * unfold memory_live. fold c1. rewrite Hx, Hexp.
        apply Z.gtb_lt in Ht. now rewrite Ht.
      * fold c1. now rewrite Hother.
  - apply has_get_Some in Hmine. destruct Hmine as [x Hx].
    pose proof (disk_after_set _ _ _ _ _ _ Hbig Hx) as ->.
    apply has_get_None in Hother.
    assert (Hmem : forall now, memory_live key now c1 = false).
    { intros now. unfold memory_live. now rewrite Hother. }
    split.
    + intros Ht _.
      rewrite (get_disk_hit _ _ _ _ value (Hmem t) Hx); [reflexivity| |].
      * rewrite Hexp. rewrite Z.gtb_ltb. apply Z.ltb_ge. lia.
      * apply decompress_set_entry.
    + intros Ht. rewrite get_miss; [reflexivity|apply Hmem|].
      fold c1. rewrite Hx, Hexp. now apply Z.gtb_lt.
Qed.

End Expiry.

Lemma ttl_expiry_boundary_witness :
  let R := example_runtime in
  (fst (get "k" 1050 (snd (set "k" (JStr "v") (mk_set_options (Some 50) None) 1000
                               (new_cache no_options))))
   = Normal (JStr "v")
   /\ fst (get "k" 1051 (snd (set "k" (JStr "v") (mk_set_options (Some 50) None) 1000
                                  (new_cache no_options))))
      = Normal JNull)
  /\ (fst (get "k" 1050 (snd (set "k" six_hundred_ones (mk_set_options (Some 50) None) 1000
                                  ten_byte_budget)))
      = Normal six_hundred_ones
      /\ fst (get "k" 1051 (snd (set "k" six_hundred_ones (mk_set_options (Some 50) None) 1000
                                     ten_byte_budget)))
         = Normal JNull).
Proof.
  intros R.
  assert (HT : 50 <> 0) by discriminate.
  assert (Hplaced :
            if getSize (JStr "v") <? maxMemorySize (new_cache no_options)
            then JsMap.has (hashKey "k")
                   (memoryCache (snd (set "k" (JStr "v") (mk_set_options (Some 50) None) 1000
                                          (new_cache no_options)))) = true
                 /\ JsMap.has (hashKey "k")
                      (diskCache (snd (set "k" (JStr "v") (mk_set_options (Some 50) None) 1000
                                           (new_cache no_options)))) = false
            else JsMap.has (hashKey "k")
                   (diskCache (snd (set "k" (JStr "v") (mk_set_options (Some 50) None) 1000
                                        (new_cache no_options)))) = true
                 /\ JsMap.has (hashKey "k")
                      (memoryCache (snd (set "k" (JStr "v") (mk_set_options (Some 50) None) 1000
                                             (new_cache no_options)))) = false)
    by (vm_compute; split; reflexivity).
  assert (Hdisk :
            if getSize six_hundred_ones <? maxMemorySize ten_byte_budget
            then JsMap.has (hashKey "k")
                   (memoryCache (snd (set "k" six_hundred_ones (mk_set_options (Some 50) None)
                                          1000 ten_byte_budget))) = true
                 /\ JsMap.has (hashKey "k")
                      (diskCache (snd (set "k" six_hundred_ones (mk_set_options (Some 50) None)
                                           1000 ten_byte_budget))) = false
            else JsMap.has (hashKey "k")
                   (diskCache (snd (set "k" six_hundred_ones (mk_set_options (Some 50) None)
                                        1000 ten_byte_budget))) = true
                 /\ JsMap.has (hashKey "k")
                      (memoryCache (snd (set "k" six_hundred_ones (mk_set_options (Some 50) None)
                                             1000 ten_byte_budget))) = false)
    by (vm_compute; split; reflexivity).
  assert (Hraw : getSize (JStr "v") < maxMemorySize (new_cache no_options) ->
                 getSize (JStr "v") <= compressionThreshold (new_cache no_options))
    by (intros _; vm_compute; intros H; discriminate H).
  assert (Hcompressed : getSize six_hundred_ones < maxMemorySize ten_byte_budget ->
                        getSize six_hundred_ones <= compressionThreshold ten_byte_budget)
    by (vm_compute; intros H; discriminate H).
  assert (H1050 : 1050 <= 1000 + 50) by (vm_compute; intros H; discriminate H).
  assert (H1051 : 1000 + 50 < 1051) by (vm_compute; reflexivity).
  pose proof (@ttl_expiry_boundary example_runtime (new_cache no_options) "k" (JStr "v")
                50 None 1000 1050 HT Hplaced) as [Hin _].
  pose proof (@ttl_expiry_boundary example_runtime (new_cache no_options) "k" (JStr "v")
                50 None 1000 1051 HT Hplaced) as [_ Hout].
  pose proof (@ttl_expiry_boundary example_runtime ten_byte_budget "k" six_hundred_ones
                50 None 1000 1050 HT Hdisk) as [Hin' _].
  pose proof (@ttl_expiry_boundary example_runtime ten_byte_budget "k" six_hundred_ones
                50 None 1000 1051 HT Hdisk) as [_ Hout'].
  exact (conj (conj (Hin H1050 Hraw) (Hout H1051))
              (conj (Hin' H1050 Hcompressed) (Hout' H1051))).
Defined.

(** C7, the claim as stated fails: with [ttl] 50 set at time 1000, a [get] at
    time 1050, 50 ms after creation, still returns the value. *)
Lemma get_at_elapsed_ttl_still_hits :
  let R := example_runtime in
  50 <= 1050 - 1000
  /\ fst (get "k" 1050 (snd (set "k" (JStr "v") (mk_set_options (Some 50) None) 1000
                               (new_cache no_options))))
     = Normal (JStr "v")
  /\ JStr "v" <> JNull.
Proof.
  intros R. split; [apply Z.leb_le; vm_compute; reflexivity|].
  split; [vm_compute; reflexivity|discriminate].
Qed.

(** ** Statistics *)

(** C6 (amended).  [getStats] reports [hitRate] as a string: the percentage
    [hits / (hits + misses) * 100] printed with two decimals by [toFixed],
    ["0.00"] when no request was made; after 3 hits and 1 miss it is
    ["75.00"]. *)
Theorem getStats_hitRate_is_percentage_string (c : cache) :
  hitRate (getStats c)
  = toFixed 2 (if hits (stats c) + misses (stats c) >? 0
               then (float_of_Z (hits (stats c))
                     / float_of_Z (hits (stats c) + misses (stats c)) * 100)%float
               else 0%float)
  /\ (hits (stats c) + misses (stats c) <= 0 -> hitRate (getStats c) = "0.00")
  /\ (hits (stats c) = 3 -> misses (stats c) = 1 -> hitRate (getStats c) = "75.00").
Proof.
  split; [reflexivity|]. split.
  - intros H. unfold getStats. cbn [hitRate].
    destruct (Z.gtb_spec (hits (stats c) + misses (stats c)) 0); [lia|].
    vm_compute. reflexivity.
  - intros H3 H1. unfold getStats. cbn [hitRate]. rewrite H3, H1.
    vm_compute. reflexivity.
Qed.

(** C6, the claim as stated fails: after three hits and one miss the
    reported rate is the string ["75.00"], not 0.75. *)
Lemma hitRate_after_three_hits_one_miss :
  let R := example_runtime in
  let c0 := snd (set "k" (JStr "v") default_set_options 1000 (new_cache no_options)) in
  let c := snd (get "absent" 1004 (snd (get "k" 1003 (snd (get "k" 1002
                (snd (get "k" 1001 c0))))))) in
  hits (stats c) = 3 /\ misses (stats c) = 1
  /\ hitRate (getStats c) = "75.00"
  /\ hitRate (getStats c) <> "0.75"
  /\ hitRate (getStats c) <> "0.75000".
Proof.
  vm_compute. repeat split; discriminate.
Qed.

(** ** Eviction *)

Lemma tier_ok_empty : tier_ok [].
Proof. split; [constructor|intros k e []]. Qed.

Lemma tier_ok_set h e m : Entry.hash e = h -> tier_ok m -> tier_ok (JsMap.set h e m).
Proof.
intros Hh [Hnd Hk]. split.
- now apply JsMapFacts.NoDup_set.
- intros k x Hin. apply JsMapFacts.In_set in Hin. destruct Hin as [Heq|Hin].
  + inversion Heq; subst. reflexivity.
  + auto.
Qed.

Lemma tier_ok_delete k m : tier_ok m -> tier_ok (JsMap.delete k m).
Proof.
intros [Hnd Hk]. split.
- now apply JsMapFacts.NoDup_delete.
- intros k' x Hin. apply JsMapFacts.In_delete in Hin. destruct Hin as [Hin _]. auto.
Qed.

Lemma tier_ok_evict f m : tier_ok m -> tier_ok (evict f m).
Proof.
intros H. unfold evict. destruct (first_least f (JsMap.values m)); auto.
now apply tier_ok_delete.
Qed.

Lemma In_values (m : JsMap.t Entry.t) e :
  In e (JsMap.values m) -> exists k, In (k, e) m.
Proof.
unfold JsMap.values. intros H. apply in_map_iff in H.
destruct H as ([k x] & Hx & Hin). simpl in Hx. subst. eauto.
Qed.

Lemma tier_ok_get m e :
  tier_ok m -> In e (JsMap.values m) -> JsMap.get (Entry.hash e) m = Some e.
Proof.
intros [Hnd Hk] Hin. apply In_values in Hin. destruct Hin as [k Hin].
rewrite (Hk _ _ Hin). now apply JsMapFacts.In_get.
Qed.

(** What one eviction check does to a tier that is over its budget. *)
Lemma evict_removes_first_least f m :
  tier_ok m -> m <> [] ->
  exists victim,
    In victim (JsMap.values m)
    /\ (forall x, In x (JsMap.values m) -> f victim <= f x)
    /\ evict f m = JsMap.delete (Entry.hash victim) m
    /\ JsMap.get (Entry.hash victim) m = Some victim
    /\ JsMap.size (evict f m) = JsMap.size m - 1
    /\ total_size (evict f m) = total_size m - getSize (Entry.value victim).
Proof.
intros Hok Hne. unfold evict.
destruct (first_least f (JsMap.values m)) as [victim|] eqn:E.
- pose proof (first_least_In _ _ _ E) as Hin.
  pose proof (tier_ok_get _ _ Hok Hin) as Hget.
  exists victim. split; [exact Hin|]. split.
  + intros x Hx. now apply (first_least_le f (JsMap.values m)).
  + split; [reflexivity|]. split; [exact Hget|]. split.
    * now apply size_delete with (e := victim); [apply Hok|].
    * now apply total_size_delete; [apply Hok|].
- apply first_least_None in E. destruct m; [contradiction|discriminate].
Qed.

Section EvictionOnSet.
Context {R : Runtime}.

Lemma evictions_compressed_flag c (b : bool) :
  evictions (stats (if b then compressed_one c else c)) = evictions (stats c).
Proof. now destruct b. Qed.

Lemma evictions_set_stored c key value options now :
  evictions (stats (set_stored c key value options now)) = evictions (stats c).
Proof.
unfold set_stored.
destruct (getSize value <? maxMemorySize c), (getSize value >? compressionThreshold c);
  reflexivity.
Qed.

(** One [set] on a cache whose tiers are well formed: what its eviction
    check does. *)
Lemma set_eviction_step (c : cache) (key : string) (value : json)
        (options : set_options) (now : Z) :
  tier_ok (memoryCache c) -> tier_ok (diskCache c) ->
  exists e c',
    set key value options now c = (Normal e, c')
    /\ tier_ok (memoryCache c') /\ tier_ok (diskCache c')
    /\ (getSize value < maxMemorySize c ->
        let m := JsMap.set (hashKey key) e (memoryCache c) in
        diskCache c' = diskCache c
        /\ (total_size m <= maxMemorySize c ->
            memoryCache c' = m /\ evictions (stats c') = evictions (stats c))
        /\ (maxMemorySize c < total_size m ->
            exists victim,
              In victim (JsMap.values m)
              /\ (forall x, In x (JsMap.values m) ->
                            Entry.lastAccess victim <= Entry.lastAccess x)
              /\ memoryCache c' = JsMap.delete (Entry.hash victim) m
              /\ JsMap.size (memoryCache c') = JsMap.size m - 1
              /\ total_size (memoryCache c') = total_size m - getSize (Entry.value victim)
              /\ evictions (stats c') = evictions (stats c) + 1))
    /\ (maxMemorySize c <= getSize value ->
        let d := JsMap.set (hashKey key) e (diskCache c) in
        memoryCache c' = memoryCache c
        /\ (total_size d <= maxDiskSize c ->
            diskCache c' = d /\ evictions (stats c') = evictions (stats c))
        /\ (maxDiskSize c < total_size d ->
            exists victim,
              In victim (JsMap.values d)
              /\ (forall x, In x (JsMap.values d) ->
                            Entry.timestamp victim <= Entry.timestamp x)
              /\ diskCache c' = JsMap.delete (Entry.hash victim) d
              /\ JsMap.size (diskCache c') = JsMap.size d - 1
              /\ total_size (diskCache c') = total_size d - getSize (Entry.value victim)
              /\ evictions (stats c') = evictions (stats c) + 1)).
Proof.
intros Hmem Hdisk.
exists (set_entry c key value options now), (set_state c key value options now).
split; [apply set_run|].
set (e := set_entry c key value options now).
assert (Hhash : Entry.hash e = hashKey key) by reflexivity.
pose proof (config_set_stored c key value options now) as (Hmax & Hdmax & _).
pose proof (evictions_set_stored c key value options now) as Hev.
destruct (Z.ltb_spec (getSize value) (maxMemorySize c)) as [Hsmall|Hbig].
- pose proof (memoryCache_set_stored_small c key value options now Hsmall) as Hm.
  pose proof (diskCache_set_stored_small c key value options now Hsmall) as Hd.
  fold e in Hm.
  assert (Hok : tier_ok (JsMap.set (hashKey key) e (memoryCache c)))
    by now apply tier_ok_set.
  assert (Hstate : set_state c key value options now
                   = after_memory_check (set_stored c key value options now)).
  { unfold set_state. apply Z.ltb_lt in Hsmall. now rewrite Hsmall. }
  rewrite Hstate. unfold after_memory_check. rewrite Hm, Hmax.
  destruct (Z.gtb_spec (total_size (JsMap.set (hashKey key) e (memoryCache c)))
                       (maxMemorySize c)) as [Hover|Hfit].
  + destruct (evict_removes_first_least Entry.lastAccess _ Hok
                (JsMapFacts.set_not_empty _ _ _))
      as (victim & Hin & Hleast & Hev' & _ & Hsize & Htotal).
    cbn [memoryCache diskCache stats evicted_one with_memoryCache with_stats evictions].
    rewrite Hd, Hev.
    split; [now apply tier_ok_evict|]. split; [assumption|].
    split; [|intros; lia].
    intros _. cbv zeta. split; [reflexivity|]. split; [intros; lia|].
    intros _. exists victim. repeat split; assumption.
  + rewrite Hm, Hd, Hev.
    split; [assumption|]. split; [assumption|].
    split; [|intros; lia].
    intros _. cbv zeta. split; [reflexivity|]. split; [tauto|intros; lia].
- pose proof (memoryCache_set_stored_big c key value options now Hbig) as Hm.
  pose proof (diskCache_set_stored_big c key value options now Hbig) as Hd.
  fold e in Hd.
  assert (Hok : tier_ok (JsMap.set (hashKey key) e (diskCache c)))
    by now apply tier_ok_set.
  assert (Hstate : set_state c key value options now
                   = after_disk_check (set_stored c key value options now)).
  { unfold set_state. apply Z.ltb_ge in Hbig. now rewrite Hbig. }
  rewrite Hstate. unfold after_disk_check. rewrite Hd, Hdmax.
  destruct (Z.gtb_spec (total_size (JsMap.set (hashKey key) e (diskCache c)))
                       (maxDiskSize c)) as [Hover|Hfit].
  + destruct (evict_removes_first_least Entry.timestamp _ Hok
                (JsMapFacts.set_not_empty _ _ _))
      as (victim & Hin & Hleast & Hev' & _ & Hsize & Htotal).
    cbn [memoryCache diskCache stats evicted_one with_diskCache with_stats evictions].
    rewrite Hm, Hev.
    split; [assumption|]. split; [now apply tier_ok_evict|].
    split; [intros; lia|].
    intros _. cbv zeta. split; [reflexivity|]. split; [intros; lia|].
    intros _. exists victim. repeat split; assumption.
  + rewrite Hm, Hd, Hev.
    split; [assumption|]. split; [assumption|].
    split; [intros; lia|].
    intros _. cbv zeta. split; [reflexivity|]. split; [tauto|intros; lia].
Qed.

End EvictionOnSet.

(** A run that ends over the budget: with a budget of 10, four
    2-character values and then a 9-character one leave 15 characters in
    the memory tier, after the one eviction that the last [set]
    triggers. *)
Lemma memory_tier_over_budget_after_set :
  let R := example_runtime in
  let c := snd (set "e" (JNum 123456789) default_set_options 5
           (snd (set "d" (JNum 44) default_set_options 4
           (snd (set "c" (JNum 33) default_set_options 3
           (snd (set "b" (JNum 22) default_set_options 2
           (snd (set "a" (JNum 11) default_set_options 1 ten_byte_budget))))))))) in
  maxMemorySize c = 10
  /\ getMemorySizeUsage c = 15
  /\ map (fun kv => Entry.key (snd kv)) (memoryCache c) = ["b"; "c"; "d"; "e"]
  /\ evictions (stats c) = 1
  /\ maxMemorySize c < getMemorySizeUsage c.
Proof.
vm_compute. repeat split.
Qed.

(** ** Least-recently-used order *)

Lemma first_least_intro f l1 x l2 :
  (forall y, In y l1 -> f x < f y) ->
  (forall y, In y l2 -> f x <= f y) ->
  first_least f (l1 ++ x :: l2) = Some x.
Proof.
intros H1 H2. induction l1 as [|a l1 IH]; simpl.
- destruct (first_least f l2) as [y|] eqn:E; auto.
  pose proof (first_least_In _ _ _ E) as Hy. apply H2 in Hy.
  destruct (Z.leb_spec (f x) (f y)); [reflexivity|lia].
- rewrite IH by (intros y Hy; apply H1; now right).
  specialize (H1 a (or_introl eq_refl)).
  destruct (Z.leb_spec (f a) (f x)); [lia|reflexivity].
Qed.

Section LeastRecentlyUsed.
Context {R : Runtime}.

Lemma config_set_state c key value options now :
  config (set_state c key value options now) = config c.
Proof.
unfold set_state, after_memory_check, after_disk_check, set_stored, config.
destruct (getSize value <? maxMemorySize c), (getSize value >? compressionThreshold c);
  cbn [memoryCache diskCache with_memoryCache with_diskCache maxMemorySize maxDiskSize
       compressed_one with_stats];
  match goal with |- context [if ?b then evicted_one _ else _] => destruct b end;
  reflexivity.
Qed.

Lemma set_entry_config c c' key value options now :
  config c' = config c ->
  set_entry c' key value options now = set_entry c key value options now.
Proof.
unfold config, set_entry. intros H. injection H as _ _ -> ->. reflexivity.
Qed.

Lemma value_set_entry c key value options now :
  getSize (Entry.value (set_entry c key value options now)) = storedSize c value.
Proof. reflexivity. Qed.

Lemma set_state_memory_fits c key value options now :
  getSize value < maxMemorySize c ->
  total_size (JsMap.set (hashKey key) (set_entry c key value options now) (memoryCache c))
  <= maxMemorySize c ->
  memoryCache (set_state c key value options now)
  = JsMap.set (hashKey key) (set_entry c key value options now) (memoryCache c)
  /\ evictions (stats (set_state c key value options now)) = evictions (stats c).
Proof.
intros Hsmall Hfit. unfold set_state. pose proof Hsmall as H. apply Z.ltb_lt in H.
rewrite H. unfold after_memory_check.
destruct (config_set_stored c key value options now) as (-> & _).
rewrite memoryCache_set_stored_small by assumption.
rewrite Z.gtb_ltb. apply Z.ltb_ge in Hfit. rewrite Hfit.
rewrite memoryCache_set_stored_small by assumption.
split; [reflexivity|apply evictions_set_stored].
Qed.

Lemma set_state_memory_overflows c key value options now :
  getSize value < maxMemorySize c ->
  maxMemorySize c
  < total_size (JsMap.set (hashKey key) (set_entry c key value options now) (memoryCache c)) ->
  memoryCache (set_state c key value options now)
  = evict Entry.lastAccess
          (JsMap.set (hashKey key) (set_entry c key value options now) (memoryCache c))
  /\ evictions (stats (set_state c key value options now)) = evictions (stats c) + 1.
Proof.
intros Hsmall Hover. unfold set_state. pose proof Hsmall as H. apply Z.ltb_lt in H.
rewrite H. unfold after_memory_check.
destruct (config_set_stored c key value options now) as (-> & _).
rewrite memoryCache_set_stored_small by assumption.
apply Z.gtb_lt in Hover. rewrite Hover.
cbn [memoryCache stats evicted_one with_memoryCache with_stats evictions].
now rewrite evictions_set_stored.
Qed.

Lemma set_absent_appends {V} h (v : V) (m : JsMap.t V) :
  JsMap.has h m = false -> JsMap.set h v m = m ++ [(h, v)].
Proof.
unfold JsMap.has. induction m as [|[k x] m IH]; simpl; auto.
destruct (String.eqb h k); [discriminate|]. intros H. now rewrite IH.
Qed.

Lemma total_size_app m1 m2 : total_size (m1 ++ m2) = total_size m1 + total_size m2.
Proof.
induction m1 as [|[k e] m1 IH]; simpl app.
- rewrite total_size_nil. lia.
- rewrite !total_size_cons, IH. lia.
Qed.

Lemma config_fields c c' :
  config c' = config c ->
  maxMemorySize c' = maxMemorySize c /\ forall v, storedSize c' v = storedSize c v.
Proof.
unfold config. intros H. injection H as Hm _ Hthr _. split; [exact Hm|].
intros v. unfold storedSize. now rewrite Hthr.
Qed.

(** A [set] of a new key whose entry fits: the entry is appended. *)
Lemma set_state_appends c key value options now :
  getSize value < maxMemorySize c ->
  JsMap.has (hashKey key) (memoryCache c) = false ->
  total_size (memoryCache c) + storedSize c value <= maxMemorySize c ->
  memoryCache (set_state c key value options now)
  = memoryCache c ++ [(hashKey key, set_entry c key value options now)]
  /\ evictions (stats (set_state c key value options now)) = evictions (stats c).
Proof.
intros Hsmall Hnew Hfit. rewrite <- set_absent_appends by assumption.
apply set_state_memory_fits; [assumption|].
rewrite set_absent_appends by assumption.
rewrite total_size_app, total_size_cons, total_size_nil, value_set_entry. lia.
Qed.

(** C8 (amended).  The memory-tier check evicts the first entry, in
    insertion order, with the least [lastAccess].  With A, B and C inserted
    in this order into an empty memory tier whose budget they fit, A read
    by [get] at a clock value strictly later than B's insertion, and D
    inserted so that the tier overflows, the check run by that last [set]
    evicts B: A, C and D remain, and the eviction counter has grown by
    one. *)
Theorem lru_evicts_B_not_A
        (c : cache) (kA kB kC kD : string) (vA vB vC vD : json) (t1 t2 t3 t4 t5 : Z) :
  memoryCache c = [] ->
  NoDup [hashKey kA; hashKey kB; hashKey kC; hashKey kD] ->
  Forall (fun v => getSize v < maxMemorySize c) [vA; vB; vC; vD] ->
  storedSize c vA + storedSize c vB + storedSize c vC <= maxMemorySize c ->
  maxMemorySize c < storedSize c vA + storedSize c vB + storedSize c vC + storedSize c vD ->
  t4 <= t1 + ttl c ->
  t2 < t4 -> t2 <= t3 -> t2 <= t5 ->
  let c3 := snd (set kC vC default_set_options t3
            (snd (set kB vB default_set_options t2
            (snd (set kA vA default_set_options t1 c))))) in
  let c5 := snd (set kD vD default_set_options t5 (snd (get kA t4 c3))) in
  JsMap.keys (memoryCache c3) = [hashKey kA; hashKey kB; hashKey kC]
  /\ evictions (stats c3) = evictions (stats c)
  /\ JsMap.keys (memoryCache c5) = [hashKey kA; hashKey kC; hashKey kD]
  /\ JsMap.has (hashKey kB) (memoryCache c5) = false
  /\ evictions (stats c5) = evictions (stats c) + 1.
Proof.
intros Hempty Hnd Hsizes Hfit Hover Hlive HBA HBC HBD.
inversion Hsizes as [|? ? HsA Hs1]; subst. inversion Hs1 as [|? ? HsB Hs2]; subst.
inversion Hs2 as [|? ? HsC Hs3]; subst. inversion Hs3 as [|? ? HsD _]; subst.
clear Hsizes Hs1 Hs2 Hs3.
assert (Hne : hashKey kA <> hashKey kB /\ hashKey kA <> hashKey kC
              /\ hashKey kA <> hashKey kD /\ hashKey kB <> hashKey kC
              /\ hashKey kB <> hashKey kD /\ hashKey kC <> hashKey kD).
{ inversion Hnd as [|? ? NA Hnd1]; subst. inversion Hnd1 as [|? ? NB Hnd2]; subst.
  inversion Hnd2 as [|? ? NC _]; subst. simpl in NA, NB, NC.
  repeat split; intros E; rewrite E in *; tauto. }
destruct Hne as (AB & AC & AD & BC & BD & CD).
pose proof (storedSize c vA) as _.
assert (PA : 0 <= storedSize c vA) by apply getSize_nonneg.
assert (PB : 0 <= storedSize c vB) by apply getSize_nonneg.
assert (PC : 0 <= storedSize c vC) by apply getSize_nonneg.
set (eA := set_entry c kA vA default_set_options t1).
set (eB := set_entry c kB vB default_set_options t2).
set (eC := set_entry c kC vC default_set_options t3).
set (eD := set_entry c kD vD default_set_options t5).
assert (EAB : String.eqb (hashKey kB) (hashKey kA) = false) by (apply String.eqb_neq; congruence).
assert (EAC : String.eqb (hashKey kC) (hashKey kA) = false) by (apply String.eqb_neq; congruence).
assert (EBC : String.eqb (hashKey kC) (hashKey kB) = false) by (apply String.eqb_neq; congruence).
assert (EAD : String.eqb (hashKey kD) (hashKey kA) = false) by (apply String.eqb_neq; congruence).
assert (EBD : String.eqb (hashKey kD) (hashKey kB) = false) by (apply String.eqb_neq; congruence).
assert (ECD : String.eqb (hashKey kD) (hashKey kC) = false) by (apply String.eqb_neq; congruence).
assert (ECB : String.eqb (hashKey kB) (hashKey kC) = false) by (apply String.eqb_neq; congruence).
assert (EDB : String.eqb (hashKey kB) (hashKey kD) = false) by (apply String.eqb_neq; congruence).
intros c3 c5. subst c3 c5.
rewrite !set_run. cbn [snd].
(* set A, set B, set C *)
set (c1 := set_state c kA vA default_set_options t1).
assert (K1 : config c1 = config c) by apply config_set_state.
destruct (set_state_appends c kA vA default_set_options t1) as [M1 E1];
  [assumption|now rewrite Hempty|rewrite Hempty, total_size_nil; lia|].
fold c1 eA in M1, E1. rewrite Hempty in M1. cbn [app] in M1.
set (c2 := set_state c1 kB vB default_set_options t2).
assert (K2 : config c2 = config c) by (unfold c2; now rewrite config_set_state).
destruct (config_fields c c1 K1) as [X1 S1].
destruct (set_state_appends c1 kB vB default_set_options t2) as [M2 E2].
{ lia. }
{ rewrite M1. unfold JsMap.has. cbn [JsMap.get]. now rewrite EAB. }
{ rewrite M1, X1, S1, total_size_cons, total_size_nil. unfold eA.
  rewrite value_set_entry. lia. }
fold c2 in M2, E2. rewrite (set_entry_config c c1) in M2 by assumption.
fold eB in M2. rewrite M1 in M2. cbn [app] in M2.
set (c3 := set_state c2 kC vC default_set_options t3).
assert (K3 : config c3 = config c) by (unfold c3; now rewrite config_set_state).
destruct (config_fields c c2 K2) as [X2 S2].
destruct (set_state_appends c2 kC vC default_set_options t3) as [M3 E3].
{ lia. }
{ rewrite M2. unfold JsMap.has. cbn [JsMap.get]. now rewrite EAC, EBC. }
{ rewrite M2, X2, S2, !total_size_cons, total_size_nil. unfold eA, eB.
  rewrite !value_set_entry. lia. }
fold c3 in M3, E3. rewrite (set_entry_config c c2) in M3 by assumption.
fold eC in M3. rewrite M2 in M3. cbn [app] in M3.
split; [now rewrite M3|]. split; [congruence|].
(* get A *)
assert (GA : JsMap.get (hashKey kA) (memoryCache c3) = Some eA).
{ rewrite M3. cbn [JsMap.get]. now rewrite String.eqb_refl. }
assert (LA : isExpired t4 eA = false).
{ unfold isExpired, eA, set_entry. cbn [Entry.expiresAt opt_ttl default_set_options or_default].
  rewrite Z.gtb_ltb. apply Z.ltb_ge. lia. }
rewrite (get_memory_hit c3 kA t4 eA GA LA). cbn [snd].
set (eA' := Entry.touch (Entry.accessCount eA + 1) t4 eA).
set (c4 := with_memoryCache (JsMap.set (hashKey kA) eA' (memoryCache c3)) (hit c3)).
assert (K4 : config c4 = config c) by (transitivity (config c3); [reflexivity|exact K3]).
assert (M4 : memoryCache c4 = [(hashKey kA, eA'); (hashKey kB, eB); (hashKey kC, eC)]).
{ unfold c4. cbn [memoryCache with_memoryCache]. rewrite M3. cbn [JsMap.set].
  now rewrite String.eqb_refl. }
assert (E4 : evictions (stats c4) = evictions (stats c3)) by reflexivity.
(* set D *)
destruct (config_fields c c4 K4) as [X4 S4].
assert (M5 : JsMap.set (hashKey kD) (set_entry c4 kD vD default_set_options t5) (memoryCache c4)
             = [(hashKey kA, eA'); (hashKey kB, eB); (hashKey kC, eC); (hashKey kD, eD)]).
{ rewrite (set_entry_config c c4) by assumption. fold eD. rewrite M4. cbn [JsMap.set].
  now rewrite EAD, EBD, ECD. }
destruct (set_state_memory_overflows c4 kD vD default_set_options t5) as [M6 E6].
{ lia. }
{ rewrite M5, X4, !total_size_cons, total_size_nil. unfold eA', eA, eB, eC, eD.
  cbn [Entry.touch Entry.value]. rewrite !value_set_entry. lia. }
rewrite M5 in M6.
assert (V : first_least Entry.lastAccess
              (JsMap.values [(hashKey kA, eA'); (hashKey kB, eB); (hashKey kC, eC);
                             (hashKey kD, eD)]) = Some eB).
{ apply (first_least_intro Entry.lastAccess [eA'] eB [eC; eD]).
  - intros y [<-|[]]. cbn. lia.
  - intros y [<-|[<-|[]]]; cbn; lia. }
unfold evict in M6. rewrite V in M6.
change (Entry.hash eB) with (hashKey kB) in M6.
unfold JsMap.delete in M6. cbn [filter fst] in M6.
rewrite EAB, String.eqb_refl, ECB, EDB in M6. cbn [negb] in M6.
rewrite M6. split; [reflexivity|]. split.
- unfold JsMap.has. cbn [JsMap.get]. now rewrite EAB, ECB, EDB.
- rewrite E6. congruence.
Qed.

End LeastRecentlyUsed.

Lemma lru_evicts_B_not_A_witness :
  let R := example_runtime in
  let c3 := snd (set "C" (JNum 333) default_set_options 3
            (snd (set "B" (JNum 222) default_set_options 2
            (snd (set "A" (JNum 111) default_set_options 1 ten_byte_budget))))) in
  let c5 := snd (set "D" (JNum 4444) default_set_options 5 (snd (get "A" 4 c3))) in
  JsMap.keys (memoryCache c3) = [hashKey "A"; hashKey "B"; hashKey "C"]
  /\ evictions (stats c3) = evictions (stats ten_byte_budget)
  /\ JsMap.keys (memoryCache c5) = [hashKey "A"; hashKey "C"; hashKey "D"]
  /\ JsMap.has (hashKey "B") (memoryCache c5) = false
  /\ evictions (stats c5) = evictions (stats ten_byte_budget) + 1.
Proof.
intros R.
apply (@lru_evicts_B_not_A example_runtime ten_byte_budget "A" "B" "C" "D"
         (JNum 111) (JNum 222) (JNum 333) (JNum 4444) 1 2 3 4 5).
- reflexivity.
- vm_compute. repeat constructor; simpl; intuition discriminate.
- repeat constructor; vm_compute; reflexivity.
- apply Z.leb_le. vm_compute. reflexivity.
- apply Z.ltb_lt. vm_compute. reflexivity.
- apply Z.leb_le. vm_compute. reflexivity.
- apply Z.ltb_lt. vm_compute. reflexivity.
- apply Z.leb_le. vm_compute. reflexivity.
- apply Z.leb_le. vm_compute. reflexivity.
Defined.

(** C8, the claim as stated fails: when the five calls read the same
    millisecond from the clock, every [lastAccess] is equal, the stable
    sort keeps insertion order, and the entry evicted is A, not B. *)
Lemma same_millisecond_evicts_A :
  let R := example_runtime in
  let c3 := snd (set "C" (JNum 333) default_set_options 1
            (snd (set "B" (JNum 222) default_set_options 1
            (snd (set "A" (JNum 111) default_set_options 1 ten_byte_budget))))) in
  let c5 := snd (set "D" (JNum 4444) default_set_options 1 (snd (get "A" 1 c3))) in
  fst (get "A" 1 c3) = Normal (JNum 111)
  /\ map (fun kv => Entry.key (snd kv)) (memoryCache c5) = ["B"; "C"; "D"]
  /\ JsMap.has (hashKey "A") (memoryCache c5) = false
  /\ JsMap.has (hashKey "B") (memoryCache c5) = true
  /\ evictions (stats c5) = 1.
Proof.
vm_compute. repeat split.
Qed.

(** ** One tier per hash *)

Lemma all_entries_incl P (m m' : JsMap.t Entry.t) :
  incl m' m -> all_entries P m -> all_entries P m'.
Proof. intros Hincl H k e Hin. apply H, Hincl, Hin. Qed.

Lemma all_entries_set P h e m :
  P h e -> all_entries P m -> all_entries P (JsMap.set h e m).
Proof.
intros Hnew H k x Hin. apply JsMapFacts.In_set in Hin.
destruct Hin as [Heq|Hin]; [inversion Heq; subst; exact Hnew|now apply H].
Qed.

Lemma incl_delete {V} k (m : JsMap.t V) : incl (JsMap.delete k m) m.
Proof. intros kv Hin. now apply JsMapFacts.In_delete in Hin. Qed.

Lemma incl_evict f m : incl (evict f m) m.
Proof.
unfold evict. destruct (first_least f (JsMap.values m)); [apply incl_delete|apply incl_refl].
Qed.

Section Exclusive.
Context {R : Runtime}.

Lemma incl_delete_matching re (m : JsMap.t Entry.t) : incl (delete_matching re m) m.
Proof.
unfold delete_matching.
assert (H : forall (todo acc : JsMap.t Entry.t),
           incl (fold_left (fun acc kv =>
                              if RegExp_test re (Entry.key (snd kv))
                              then JsMap.delete (fst kv) acc else acc) todo acc) acc).
{ induction todo as [|kv todo IH]; intros acc; simpl; [apply incl_refl|].
  eapply incl_tran; [apply IH|].
  destruct (RegExp_test re (Entry.key (snd kv))); [apply incl_delete|apply incl_refl]. }
apply H.
Qed.

Lemma get_disk_throws c key now e err :
  memory_live key now c = false ->
  JsMap.get (hashKey key) (diskCache c) = Some e ->
  isExpired now e = false ->
  decompress (Entry.value e) (Entry.compressed e) = Throw err ->
  get key now c = (Throw err, after_memory_miss key c).
Proof.
unfold memory_live, after_memory_miss, get. intros Hmem Hget Hlive Hdec.
destruct (JsMap.get (hashKey key) (memoryCache c)) as [e0|] eqn:E.
- destruct (isExpired now e0); [|discriminate]. simpl.
  rewrite Hget, Hlive. simpl. unfold bind, lift. now rewrite Hdec.
- rewrite Hget, Hlive. simpl. unfold bind, lift. now rewrite Hdec.
Qed.

Lemma placed_exclusive small max c : placed small max c -> exclusive c.
Proof.
intros (_ & Hmem & Hdisk) h Hin.
destruct (JsMap.has h (diskCache c)) eqn:E; [|reflexivity].
apply has_get_Some in Hin. destruct Hin as [x Hx]. apply JsMapFacts.get_In in Hx.
apply has_get_Some in E. destruct E as [y Hy]. apply JsMapFacts.get_In in Hy.
apply Hmem in Hx. apply Hdisk in Hy. destruct Hy as [Hy _]. congruence.
Qed.

Lemma placed_set small max c key value options now :
  op_ok small max (OpSet key value options) ->
  placed small max c ->
  placed small max (set_state c key value options now).
Proof.
intros Hside (Hmax & Hmem & Hdisk). cbn [op_ok] in Hside. subst max.
pose proof (config_set_state c key value options now) as Hcfg.
unfold config in Hcfg. injection Hcfg as Hm _ _ _.
split; [exact Hm|].
destruct (Z.ltb_spec (getSize value) (maxMemorySize c)) as [Hsmall|Hbig].
- split.
  + unfold set_state. pose proof Hsmall as H. apply Z.ltb_lt in H. rewrite H.
    unfold after_memory_check.
    match goal with |- context [if ?b then evicted_one _ else _] => destruct b end;
      cbn [memoryCache evicted_one with_memoryCache with_stats];
      rewrite memoryCache_set_stored_small by assumption.
    * eapply all_entries_incl; [apply incl_evict|]. apply all_entries_set; auto.
    * apply all_entries_set; auto.
  + now rewrite diskCache_set_state_small.
- split.
  + now rewrite memoryCache_set_state_big.
  + assert (Hnew : disk_entry_ok small (maxMemorySize c) (hashKey key)
                                 (set_entry c key value options now)).
    { split; [auto|]. intros v Hv. rewrite decompress_set_entry in Hv.
      injection Hv as <-. assumption. }
    unfold set_state. pose proof Hbig as H. apply Z.ltb_ge in H. rewrite H.
    unfold after_disk_check.
    match goal with |- context [if ?b then evicted_one _ else _] => destruct b end;
      cbn [diskCache evicted_one with_diskCache with_stats];
      rewrite diskCache_set_stored_big by assumption.
    * eapply all_entries_incl; [apply incl_evict|]. now apply all_entries_set.
    * now apply all_entries_set.
Qed.

Lemma placed_after_memory_miss small max key c :
  placed small max c -> placed small max (after_memory_miss key c).
Proof.
intros (Hmax & Hmem & Hdisk). unfold after_memory_miss.
destruct (JsMap.get (hashKey key) (memoryCache c)); [|split; [assumption|split; assumption]].
split; [assumption|split]; try assumption.
cbn [memoryCache with_memoryCache]. eapply all_entries_incl; [apply incl_delete|assumption].
Qed.

Lemma placed_get small max c key now :
  placed small max c -> placed small max (snd (get key now c)).
Proof.
intros Hp. pose proof Hp as (Hmax & Hmem & Hdisk).
destruct (memory_live key now c) eqn:Hlive.
- unfold memory_live in Hlive.
  destruct (JsMap.get (hashKey key) (memoryCache c)) as [e0|] eqn:E; [|discriminate].
  apply negb_true_iff in Hlive. rewrite (get_memory_hit _ _ _ _ E Hlive). cbn [snd].
  split; [assumption|split]; try assumption.
  cbn [memoryCache with_memoryCache]. apply all_entries_set; [|assumption].
  apply JsMapFacts.get_In in E. now apply Hmem in E.
- destruct (JsMap.get (hashKey key) (diskCache c)) as [e|] eqn:E.
  + destruct (isExpired now e) eqn:Hexp.
    * rewrite get_miss; [|assumption|now rewrite E]. cbn [snd].
      destruct (placed_after_memory_miss small max key c Hp) as (Hmax' & Hmem' & Hdisk').
      split; [assumption|split]; try assumption.
      cbn [diskCache with_diskCache miss with_stats].
      eapply all_entries_incl; [apply incl_delete|assumption].
    * destruct (decompress (Entry.value e) (Entry.compressed e)) as [v|err] eqn:Hdec.
      -- rewrite (get_disk_hit _ _ _ _ _ Hlive E Hexp Hdec). cbn [snd].
         pose proof (JsMapFacts.get_In _ _ _ E) as Hin. apply Hdisk in Hin.
         destruct Hin as [Hside Hv]. pose proof (Hv v Hdec) as Hbig.
         assert (Hset : placed small max
                          (set_state (after_memory_miss key c) key v
                                     (mk_set_options (Some (ttl c)) None) now)).
         { apply placed_set; [|now apply placed_after_memory_miss].
           cbn [op_ok]. rewrite Hside. apply Z.ltb_ge. assumption. }
         exact Hset.
      -- rewrite (get_disk_throws _ _ _ _ _ Hlive E Hexp Hdec). cbn [snd].
         now apply placed_after_memory_miss.
  + rewrite get_miss; [|assumption|now rewrite E]. cbn [snd].
    destruct (placed_after_memory_miss small max key c Hp) as (Hmax' & Hmem' & Hdisk').
    split; [assumption|split]; try assumption.
    cbn [diskCache with_diskCache miss with_stats].
    eapply all_entries_incl; [apply incl_delete|assumption].
Qed.

Lemma placed_semanticGet small max c query threshold now :
  placed small max c -> placed small max (snd (semanticGet query threshold now c)).
Proof.
intros Hp. unfold semanticGet.
destruct (fold_left _ _ _) as [[b|] score]; [destruct (negb (isExpired now b))|]; exact Hp.
Qed.

Lemma placed_invalidate small max c key options :
  placed small max c -> placed small max (snd (invalidate key options c)).
Proof.
intros Hp. pose proof Hp as (Hmax & Hmem & Hdisk).
unfold invalidate, bind, lift, hashKey_arg.
destruct key as [k|]; [|exact Hp].
assert (Hsingle : placed small max
          (snd ((modify (fun c => with_memoryCache (JsMap.delete (hashKey k) (memoryCache c)) c) ;;;
                 modify (fun c => with_diskCache (JsMap.delete (hashKey k) (diskCache c)) c)) c))).
{ cbn. split; [assumption|split];
    (eapply all_entries_incl; [apply incl_delete|assumption]). }
destruct (opt_pattern options) as [[|a p]|]; try exact Hsingle.
unfold invalidateByPattern, bind, lift, modify.
destruct (RegExp_new (String a p)) as [re|err]; [|exact Hp].
cbn. split; [assumption|split];
  (eapply all_entries_incl; [apply incl_delete_matching|assumption]).
Qed.

Lemma placed_step small max o now c :
  op_ok small max o -> placed small max c -> placed small max (step o now c).
Proof.
intros Hok Hp. destruct o as [k v opts|k|q thr|k opts|]; cbn [step].
- rewrite set_run. now apply placed_set.
- now apply placed_get.
- now apply placed_semanticGet.
- now apply placed_invalidate.
- destruct Hp as (Hmax & _). split; [exact Hmax|split]; intros k e [].
Qed.

Lemma placed_run small max ops c :
  Forall (fun o => op_ok small max (fst o)) ops ->
  placed small max c -> placed small max (run ops c).
Proof.
unfold run. revert c. induction ops as [|o ops IH]; intros c Hok Hp; simpl; auto.
inversion Hok; subst. apply IH; auto. now apply placed_step.
Qed.

End Exclusive.

(** ** Budgets along a run *)

Section Reachable.
Context {R : Runtime}.

Lemma tier_ok_delete_matching re m : tier_ok m -> tier_ok (delete_matching re m).
Proof.
unfold delete_matching.
assert (H : forall (todo acc : JsMap.t Entry.t),
           tier_ok acc ->
           tier_ok (fold_left (fun acc kv =>
                                 if RegExp_test re (Entry.key (snd kv))
                                 then JsMap.delete (fst kv) acc else acc) todo acc)).
{ induction todo as [|kv todo IH]; intros acc Hacc; simpl; [assumption|].
  apply IH. destruct (RegExp_test re (Entry.key (snd kv))); [now apply tier_ok_delete|assumption]. }
apply H.
Qed.

Lemma tiers_ok_set_state c key value options now :
  tiers_ok c -> tiers_ok (set_state c key value options now).
Proof.
intros [Hmem Hdisk].
destruct (set_eviction_step c key value options now Hmem Hdisk)
  as (e & c' & Hset & Hmem' & Hdisk' & _).
rewrite set_run in Hset. injection Hset as _ <-. now split.
Qed.

Lemma tiers_ok_after_memory_miss key c :
  tiers_ok c -> tiers_ok (after_memory_miss key c).
Proof.
intros [Hmem Hdisk]. unfold after_memory_miss.
destruct (JsMap.get (hashKey key) (memoryCache c)); [|now split].
split; [|assumption]. cbn [memoryCache with_memoryCache]. now apply tier_ok_delete.
Qed.

Lemma tiers_ok_get c key now : tiers_ok c -> tiers_ok (snd (get key now c)).
Proof.
intros Hok. pose proof Hok as [Hmem Hdisk].
destruct (memory_live key now c) eqn:Hlive.
- unfold memory_live in Hlive.
  destruct (JsMap.get (hashKey key) (memoryCache c)) as [e0|] eqn:E; [|discriminate].
  apply negb_true_iff in Hlive. rewrite (get_memory_hit _ _ _ _ E Hlive). cbn [snd].
  split; [|assumption]. cbn [memoryCache with_memoryCache].
  apply tier_ok_set; [|assumption].
  apply JsMapFacts.get_In in E. destruct Hmem as [_ Hk]. exact (Hk _ _ E).
- pose proof (tiers_ok_after_memory_miss key c Hok) as [Hmem' Hdisk'].
  destruct (JsMap.get (hashKey key) (diskCache c)) as [e|] eqn:E.
  + destruct (isExpired now e) eqn:Hexp.
    * rewrite get_miss; [|assumption|now rewrite E]. cbn [snd].
      split; [assumption|]. cbn [diskCache with_diskCache miss with_stats].
      now apply tier_ok_delete.
    * destruct (decompress (Entry.value e) (Entry.compressed e)) as [v|err] eqn:Hdec.
      -- rewrite (get_disk_hit _ _ _ _ _ Hlive E Hexp Hdec). cbn [snd].
         apply (tiers_ok_set_state (after_memory_miss key c)). now split.
      -- rewrite (get_disk_throws _ _ _ _ _ Hlive E Hexp Hdec). cbn [snd]. now split.
  + rewrite get_miss; [|assumption|now rewrite E]. cbn [snd].
    split; [assumption|]. cbn [diskCache with_diskCache miss with_stats].
    now apply tier_ok_delete.
Qed.

Lemma tiers_ok_step o now c : tiers_ok c -> tiers_ok (step o now c).
Proof.
intros Hok. pose proof Hok as [Hmem Hdisk].
destruct o as [k v opts|k|q thr|k opts|]; cbn [step].
- rewrite set_run. now apply tiers_ok_set_state.
- now apply tiers_ok_get.
- unfold semanticGet.
  destruct (fold_left _ _ _) as [[b|] s]; [destruct (negb (isExpired now b))|]; exact Hok.
- unfold invalidate, bind, lift, hashKey_arg.
  destruct k as [k|]; [|exact Hok].
  assert (Hsingle : tiers_ok
            (snd ((modify (fun c => with_memoryCache
                                      (JsMap.delete (hashKey k) (memoryCache c)) c) ;;;
                   modify (fun c => with_diskCache
                                      (JsMap.delete (hashKey k) (diskCache c)) c)) c))).
  { cbn. split; now apply tier_ok_delete. }
  destruct (opt_pattern opts) as [[|a p]|]; try exact Hsingle.
  unfold invalidateByPattern, bind, lift, modify.
  destruct (RegExp_new (String a p)) as [re|err]; [|exact Hok].
  cbn. split; now apply tier_ok_delete_matching.
- split; apply tier_ok_empty.
Qed.

Lemma tiers_ok_run ops c : tiers_ok c -> tiers_ok (run ops c).
Proof.
unfold run. revert c. induction ops as [|o ops IH]; intros c Hok; simpl; auto.
apply IH. now apply tiers_ok_step.
Qed.

(** What one [set] evicts.  On a cache reached from a new one by any
    sequence of calls, [set] runs one eviction check on the tier that
    received the entry, and a check evicts at most once.  When the tier is within its
    budget after the insertion it is left as it is; otherwise exactly one
    entry goes, one with the least [lastAccess] (memory tier) or the least
    [timestamp] (disk tier): the eviction counter grows by one and the
    total shrinks by that entry's size, which need not bring it back under
    the budget.  The other tier is untouched. *)
Theorem set_evicts_at_most_one
        (config_options : cache_options) (ops : list (op * Z))
        (key : string) (value : json) (options : set_options) (now : Z) :
  let c := run ops (new_cache config_options) in
  exists e c',
    set key value options now c = (Normal e, c')
    /\ (getSize value < maxMemorySize c ->
        let m := JsMap.set (hashKey key) e (memoryCache c) in
        diskCache c' = diskCache c
        /\ (total_size m <= maxMemorySize c ->
            memoryCache c' = m /\ evictions (stats c') = evictions (stats c))
        /\ (maxMemorySize c < total_size m ->
            exists victim,
              In victim (JsMap.values m)
              /\ (forall x, In x (JsMap.values m) ->
                            Entry.lastAccess victim <= Entry.lastAccess x)
              /\ memoryCache c' = JsMap.delete (Entry.hash victim) m
              /\ JsMap.size (memoryCache c') = JsMap.size m - 1
              /\ total_size (memoryCache c') = total_size m - getSize (Entry.value victim)
              /\ evictions (stats c') = evictions (stats c) + 1))
    /\ (maxMemorySize c <= getSize value ->
        let d := JsMap.set (hashKey key) e (diskCache c) in
        memoryCache c' = memoryCache c
        /\ (total_size d <= maxDiskSize c ->
            diskCache c' = d /\ evictions (stats c') = evictions (stats c))
        /\ (maxDiskSize c < total_size d ->
            exists victim,
              In victim (JsMap.values d)
              /\ (forall x, In x (JsMap.values d) ->
                            Entry.timestamp victim <= Entry.timestamp x)
              /\ diskCache c' = JsMap.delete (Entry.hash victim) d
              /\ JsMap.size (diskCache c') = JsMap.size d - 1
              /\ total_size (diskCache c') = total_size d - getSize (Entry.value victim)
              /\ evictions (stats c') = evictions (stats c) + 1)).
Proof.
intros c.
assert (Hok : tiers_ok c).
{ apply tiers_ok_run. split; apply tier_ok_empty. }
destruct Hok as [Hmem Hdisk].
destruct (set_eviction_step c key value options now Hmem Hdisk)
  as (e & c' & Hset & _ & _ & Hsmall & Hbig).
exists e, c'. split; [exact Hset|]. split; assumption.
Qed.

End Reachable.

Section TiersTheorem.
Context {R : Runtime}.

(** A condition under which the tiers stay apart: starting from a new
    cache, after any sequence of [set], [get], [semanticGet],
    [invalidate] and [clear] calls in which the values set under one hash
    all fall on the same side of the placement threshold, no hash is in
    both tier maps. *)
Theorem tiers_exclusive_when_placement_is_stable
        (options : cache_options) (ops : list (op * Z)) :
  (forall k1 v1 o1 t1 k2 v2 o2 t2,
     In (OpSet k1 v1 o1, t1) ops -> In (OpSet k2 v2 o2, t2) ops ->
     hashKey k1 = hashKey k2 ->
     (getSize v1 <? maxMemorySize (new_cache options))
     = (getSize v2 <? maxMemorySize (new_cache options))) ->
  exclusive (run ops (new_cache options)).
Proof.
intros Hside.
remember (maxMemorySize (new_cache options)) as max eqn:Hmax.
set (small := fun h => existsb (sets_small max h) ops).
apply (placed_exclusive small max).
apply placed_run.
- apply Forall_forall. intros [o t] Hin.
  destruct o as [k v opts|k|q thr|k opts|]; cbn [op_ok fst]; auto.
  destruct (getSize v <? max) eqn:E; symmetry.
  + unfold small. apply existsb_exists. exists (OpSet k v opts, t). split; [assumption|].
    unfold sets_small. cbn. now rewrite String.eqb_refl, E.
  + destruct (small (hashKey k)) eqn:Es; [|reflexivity].
    apply existsb_exists in Es. destruct Es as ([o' t'] & Hin' & Hs).
    unfold sets_small in Hs. cbn in Hs.
    destruct o' as [k' v' opts'|?|? ?|? ?|]; try discriminate.
    apply andb_true_iff in Hs. destruct Hs as [Hk Hv]. apply String.eqb_eq in Hk.
    rewrite (Hside k' v' opts' t' k v opts t Hin' Hin Hk) in Hv. congruence.
- split; [now symmetry|]. split; intros k e [].
Qed.

End TiersTheorem.

Lemma tiers_exclusive_when_placement_is_stable_witness :
  let R := example_runtime in
  exclusive (run stable_calls
                 (new_cache (mk_cache_options None (Some 10) None None None None))).
Proof.
intros R.
apply (@tiers_exclusive_when_placement_is_stable example_runtime
         (mk_cache_options None (Some 10) None None None None) stable_calls).
intros k1 v1 o1 t1 k2 v2 o2 t2 H1 H2. unfold stable_calls in H1, H2.
simpl in H1, H2.
repeat (destruct H1 as [H1|H1]; [inversion H1; subst|]); try discriminate H1;
  try contradiction;
  repeat (destruct H2 as [H2|H2]; [inversion H2; subst|]); try discriminate H2;
  try contradiction;
  intros Hh; first [vm_compute; reflexivity|vm_compute in Hh; discriminate Hh].
Defined.

(** A key set with a small value and set again with a value of at least
    [maxMemorySize] characters is in both tier maps. *)
Lemma reset_key_in_both_tiers :
  let R := example_runtime in
  let c := run [(OpSet "k" (JNum 1) default_set_options, 1);
                (OpSet "k" (JStr "0123456789") default_set_options, 2)]
               ten_byte_budget in
  JsMap.has (hashKey "k") (memoryCache c) = true
  /\ JsMap.has (hashKey "k") (diskCache c) = true.
Proof.
vm_compute. split; reflexivity.
Qed.

(** ** Comparing binary64 scores *)

Module FloatOrder.
Import FloatKey.

Lemma SFcompare_rank x y :
  is_nan x = false -> is_nan y = false ->
  SFcompare x y = Some (lex (rank x) (rank y)).
Proof.
destruct x as [sx|sx| |sx mx ex], y as [sy|sy| |sy my ey]; cbn [is_nan];
  try discriminate; intros _ _;
  try (destruct sx; reflexivity); try (destruct sy; reflexivity);
  try (destruct sx, sy; reflexivity).
unfold SFcompare, rank, lex.
destruct sx, sy; try reflexivity.
cbn. rewrite Z.compare_opp, (Z.compare_antisym ex ey).
destruct (ex ?= ey); reflexivity.
Qed.

Lemma lex_spec a b :
  match lex a b with
  | Lt => let '(a1, a2, a3) := a in let '(b1, b2, b3) := b in
          a1 < b1 \/ (a1 = b1 /\ (a2 < b2 \/ (a2 = b2 /\ a3 < b3)))
  | Eq => a = b
  | Gt => let '(a1, a2, a3) := a in let '(b1, b2, b3) := b in
          b1 < a1 \/ (a1 = b1 /\ (b2 < a2 \/ (a2 = b2 /\ b3 < a3)))
  end.
Proof.
destruct a as [[a1 a2] a3], b as [[b1 b2] b3]. unfold lex.
destruct (Z.compare_spec a1 b1); [|lia|lia].
destruct (Z.compare_spec a2 b2); [|lia|lia].
destruct (Z.compare_spec a3 b3); [congruence|lia|lia].
Qed.

Lemma SFltb_true (a b : spec_float) :
  SFltb a b = true ->
  is_nan a = false /\ is_nan b = false /\ lex (rank a) (rank b) = Lt.
Proof.
intros H.
destruct (is_nan a) eqn:Na; [destruct a; try discriminate Na; discriminate H|].
destruct (is_nan b) eqn:Nb;
  [destruct b; try discriminate Nb; destruct a; discriminate H|].
unfold SFltb in H. rewrite SFcompare_rank in H by assumption.
destruct (lex _ _); try discriminate H. auto.
Qed.

Lemma SFleb_true (a b : spec_float) :
  SFleb a b = true ->
  is_nan a = false /\ is_nan b = false /\ lex (rank a) (rank b) <> Gt.
Proof.
intros H.
destruct (is_nan a) eqn:Na; [destruct a; try discriminate Na; discriminate H|].
destruct (is_nan b) eqn:Nb;
  [destruct b; try discriminate Nb; destruct a; discriminate H|].
unfold SFleb in H. rewrite SFcompare_rank in H by assumption.
destruct (lex _ _); try discriminate H; repeat split; discriminate.
Qed.

(** [x < y], [x <= y] on floats, through their ranks. *)
Lemma ltb_true x y :
  PrimFloat.ltb x y = true ->
  is_nan (Prim2SF x) = false /\ is_nan (Prim2SF y) = false
  /\ lex (rank (Prim2SF x)) (rank (Prim2SF y)) = Lt.
Proof. rewrite FloatAxioms.ltb_spec. apply SFltb_true. Qed.

Lemma leb_true x y :
  PrimFloat.leb x y = true ->
  is_nan (Prim2SF x) = false /\ is_nan (Prim2SF y) = false
  /\ lex (rank (Prim2SF x)) (rank (Prim2SF y)) <> Gt.
Proof. rewrite FloatAxioms.leb_spec. apply SFleb_true. Qed.

Lemma ltb_of_rank x y :
  is_nan (Prim2SF x) = false -> is_nan (Prim2SF y) = false ->
  PrimFloat.ltb x y = match lex (rank (Prim2SF x)) (rank (Prim2SF y)) with
                      | Lt => true
                      | _ => false
                      end.
Proof.
intros Nx Ny. rewrite FloatAxioms.ltb_spec. unfold SFltb. now rewrite SFcompare_rank.
Qed.

Lemma ltb_trans x y z :
  PrimFloat.ltb x y = true -> PrimFloat.ltb y z = true -> PrimFloat.ltb x z = true.
Proof.
intros H1 H2. apply ltb_true in H1, H2.
destruct H1 as (Nx & Ny & L1), H2 as (_ & Nz & L2).
rewrite ltb_of_rank by assumption.
pose proof (lex_spec (rank (Prim2SF x)) (rank (Prim2SF y))) as S1.
pose proof (lex_spec (rank (Prim2SF y)) (rank (Prim2SF z))) as S2.
pose proof (lex_spec (rank (Prim2SF x)) (rank (Prim2SF z))) as S3.
rewrite L1 in S1. rewrite L2 in S2.
destruct (rank (Prim2SF x)) as [[x1 x2] x3], (rank (Prim2SF y)) as [[y1 y2] y3],
  (rank (Prim2SF z)) as [[z1 z2] z3].
destruct (lex (x1, x2, x3) (z1, z2, z3)); [|reflexivity|].
- injection S3 as -> -> ->. lia.
- lia.
Qed.

(** Among numbers that are not NaN, [y] not above [x] and [x < z] give
    [y < z]. *)
Lemma not_ltb_ltb_trans x y z :
  is_nan (Prim2SF y) = false ->
  PrimFloat.ltb x y = false -> PrimFloat.ltb x z = true -> PrimFloat.ltb y z = true.
Proof.
intros Ny H1 H2. apply ltb_true in H2. destruct H2 as (Nx & Nz & L2).
rewrite ltb_of_rank in H1 by assumption. rewrite ltb_of_rank by assumption.
pose proof (lex_spec (rank (Prim2SF x)) (rank (Prim2SF y))) as S1.
pose proof (lex_spec (rank (Prim2SF x)) (rank (Prim2SF z))) as S2.
pose proof (lex_spec (rank (Prim2SF y)) (rank (Prim2SF z))) as S3.
rewrite L2 in S2.
destruct (rank (Prim2SF x)) as [[x1 x2] x3], (rank (Prim2SF y)) as [[y1 y2] y3],
  (rank (Prim2SF z)) as [[z1 z2] z3].
destruct (lex (x1, x2, x3) (y1, y2, y3)); [|discriminate|];
  (destruct (lex (y1, y2, y3) (z1, z2, z3)); [|reflexivity|]);
  try (injection S1 as -> -> ->); try (injection S3 as -> -> ->); lia.
Qed.

End FloatOrder.

(** ** Semantic lookup *)

Section SemanticLoop.
Variable query : string.
Variable threshold : float.

Lemma loop_step l st e :
  loop_ok query threshold l st -> loop_ok query threshold (l ++ [e]) (semantic_step query threshold st e).
Proof.
destruct st as [[b|] s]; unfold loop_ok, semantic_step; cbn [snd].
- intros (-> & Hq & l1 & l2 & -> & Hbefore & Hafter).
  fold (score query e).
  destruct (PrimFloat.ltb (score query b) (score query e)) eqn:Hlt;
    [destruct (PrimFloat.leb threshold (score query e)) eqn:Hle|]; cbn [andb].
  + (* a new best *)
    assert (Hqb := Hq). unfold qualifies in Hqb. apply andb_true_iff in Hqb.
    destruct Hqb as [Hpos _].
    split; [reflexivity|]. split.
    * unfold qualifies. rewrite Hle, (FloatOrder.ltb_trans _ _ _ Hpos Hlt). reflexivity.
    * exists (l1 ++ b :: l2), []. split; [reflexivity|]. split; [|intros x []].
      intros x Hx Hqx. apply in_app_or in Hx. destruct Hx as [Hx|[<-|Hx]].
      -- exact (FloatOrder.ltb_trans _ _ _ (Hbefore x Hx Hqx) Hlt).
      -- exact Hlt.
      -- apply (FloatOrder.not_ltb_ltb_trans (score query b)); [|now apply Hafter|exact Hlt].
         unfold qualifies in Hqx. apply andb_true_iff in Hqx. destruct Hqx as [_ Hx2].
         now apply FloatOrder.leb_true in Hx2.
  + split; [reflexivity|]. split; [exact Hq|].
    exists l1, (l2 ++ [e]). split; [now rewrite <- app_assoc|]. split; [exact Hbefore|].
    intros x Hx Hqx. apply in_app_or in Hx. destruct Hx as [Hx|[<-|[]]]; [now apply Hafter|].
    unfold qualifies in Hqx. apply andb_true_iff in Hqx. destruct Hqx as [_ Hx2]. congruence.
  + split; [reflexivity|]. split; [exact Hq|].
    exists l1, (l2 ++ [e]). split; [now rewrite <- app_assoc|]. split; [exact Hbefore|].
    intros x Hx Hqx. apply in_app_or in Hx. destruct Hx as [Hx|[<-|[]]]; [now apply Hafter|].
    exact Hlt.
- intros (-> & Hnone). fold (score query e).
  change (PrimFloat.ltb 0 (score query e) && PrimFloat.leb threshold (score query e))%bool
    with (qualifies query threshold e).
  destruct (qualifies query threshold e) eqn:Hq.
  + split; [reflexivity|]. split; [exact Hq|].
    exists l, []. split; [reflexivity|]. split; [|intros x []].
    intros x Hx Hqx. rewrite (Hnone x Hx) in Hqx. discriminate.
  + split; [reflexivity|]. intros x Hx. apply in_app_or in Hx.
    destruct Hx as [Hx|[<-|[]]]; auto.
Qed.

Lemma loop_all rest : forall l st,
  loop_ok query threshold l st -> loop_ok query threshold (l ++ rest) (fold_left (semantic_step query threshold) rest st).
Proof.
induction rest as [|e rest IH]; intros l st H; cbn [fold_left].
- now rewrite app_nil_r.
- replace (l ++ e :: rest) with ((l ++ [e]) ++ rest) by (now rewrite <- app_assoc).
  apply IH. now apply loop_step.
Qed.

Lemma semantic_loop l :
  loop_ok query threshold l (fold_left (semantic_step query threshold) l (None, 0%float)).
Proof.
apply (loop_all l [] (None, 0%float)). split; [reflexivity|intros e []].
Qed.

(** Two ways to split a list around an element. *)
Lemma split_cases {A} (l1 l1' l2 l2' : list A) (b b' : A) :
  l1 ++ b :: l2 = l1' ++ b' :: l2' ->
  (b = b' /\ l1 = l1' /\ l2 = l2')
  \/ (In b' l1 /\ In b l2') \/ (In b l1' /\ In b' l2).
Proof.
revert l1'. induction l1 as [|a l1 IH]; intros [|a' l1'] H; cbn in H.
- injection H as -> ->. now left.
- injection H as -> ->. right. right. split; [now left|].
  apply in_or_app. right. now left.
- injection H as -> <-. right. left. split; [now left|].
  apply in_or_app. right. now left.
- injection H as -> H. destruct (IH _ H) as [(-> & -> & ->)|[[H1 H2]|[H1 H2]]].
  + now left.
  + right. left. split; [now right|assumption].
  + right. right. split; [now right|assumption].
Qed.

Lemma first_best_unique l b b' :
  first_best query threshold l b -> first_best query threshold l b' -> b = b'.
Proof.
intros (Hq & l1 & l2 & -> & Hb1 & Hb2) (Hq' & l1' & l2' & Heq & Hb1' & Hb2').
destruct (split_cases _ _ _ _ _ _ Heq) as [(-> & _)|[[H1 H2]|[H1 H2]]]; [reflexivity| |].
- pose proof (Hb1 b' H1 Hq') as X. pose proof (Hb2' b H2 Hq) as Y. congruence.
- pose proof (Hb1' b H1 Hq) as X. pose proof (Hb2 b' H2 Hq') as Y. congruence.
Qed.

End SemanticLoop.

(** The score is a Jaccard index: the token lists are sets, and the two
    counts are those of their intersection and of their union. *)
Lemma mem_string_In x l : mem_string x l = true <-> In x l.
Proof.
unfold mem_string. rewrite existsb_exists. split.
- intros (y & Hy & Heq). apply String.eqb_eq in Heq. now subst.
- intros H. exists x. split; [assumption|apply String.eqb_refl].
Qed.

Lemma new_Set_In seen l x :
  In x (new_Set seen l) <-> In x l /\ ~ In x seen.
Proof.
revert seen. induction l as [|a l IH]; intros seen; cbn [new_Set].
- cbn. tauto.
- destruct (mem_string a seen) eqn:E.
  + apply mem_string_In in E. rewrite IH. cbn. split.
    * tauto.
    * intros [[<-|H] Hn]; [contradiction|tauto].
  + assert (Hna : ~ In a seen).
    { intros H. apply mem_string_In in H. congruence. }
    cbn. rewrite IH. cbn. split.
    * intros [<-|[H Hn]]; [tauto|]. split; [tauto|]. intros Hs. apply Hn. now right.
    * intros [[<-|H] Hn]; [now left|].
      destruct (string_dec a x) as [->|Hne]; [now left|]. right. split; [assumption|].
      intros [Heq|Hs]; [congruence|contradiction].
Qed.

Lemma new_Set_NoDup seen l : NoDup (new_Set seen l).
Proof.
revert seen. induction l as [|a l IH]; intros seen; cbn [new_Set]; [constructor|].
destruct (mem_string a seen); [apply IH|].
constructor; [|apply IH]. rewrite new_Set_In. cbn. tauto.
Qed.

Lemma split_spaces_not_nil in_gap s : split_spaces in_gap s <> [].
Proof.
revert in_gap. induction s as [|c s IH]; intros in_gap; cbn [split_spaces]; [discriminate|].
destruct (is_space c).
- destruct in_gap; [apply IH|discriminate].
- destruct (split_spaces false s); discriminate.
Qed.

Lemma tokens_not_nil s : tokens s <> [].
Proof.
unfold tokens. pose proof (split_spaces_not_nil false (toLowerCase s)) as H.
destruct (split_spaces false (toLowerCase s)) as [|x l]; [contradiction|].
cbn. discriminate.
Qed.

Lemma calculateSimilarity_jaccard s1 s2 :
  exists intersection union,
    NoDup (tokens s1) /\ NoDup (tokens s2) /\ NoDup intersection /\ NoDup union
    /\ (forall x, In x intersection <-> In x (tokens s1) /\ In x (tokens s2))
    /\ (forall x, In x union <-> In x (tokens s1) \/ In x (tokens s2))
    /\ union <> []
    /\ calculateSimilarity s1 s2
       = (float_of_Z (Z.of_nat (List.length intersection))
          / float_of_Z (Z.of_nat (List.length union)))%float.
Proof.
exists (filter (fun x => mem_string x (tokens s2)) (tokens s1)),
       (new_Set [] (tokens s1 ++ tokens s2)).
split; [apply new_Set_NoDup|]. split; [apply new_Set_NoDup|].
split; [apply NoDup_filter, new_Set_NoDup|]. split; [apply new_Set_NoDup|].
split.
{ intros x. rewrite filter_In, mem_string_In. tauto. }
split.
{ intros x. rewrite new_Set_In, in_app_iff. cbn. tauto. }
split; [|reflexivity].
pose proof (tokens_not_nil s1) as H. destruct (tokens s1) as [|x l]; [contradiction|].
cbn. discriminate.
Qed.

Lemma first_best_filter (P : Entry.t -> bool) query thr l b :
  first_best query thr l b -> P b = true -> first_best query thr (filter P l) b.
Proof.
intros (Hq & l1 & l2 & -> & Hbefore & Hafter) Hb.
split; [exact Hq|].
exists (filter P l1), (filter P l2). split.
- rewrite filter_app. cbn [filter]. now rewrite Hb.
- split; intros e He; apply filter_In in He; destruct He as [He _];
    [now apply Hbefore|now apply Hafter].
Qed.

(** C4 (amended).  [semanticGet] never reads the disk tier and never
    returns an expired entry.  The score of an entry is the Jaccard index
    of the lower-cased, whitespace-split token sets of the query and of
    the entry's key; an entry qualifies when its score is positive and at
    least the threshold.  Whatever [semanticGet] returns is the stored
    value and the score of the first entry, in insertion order, with the
    best score among the live entries of the memory tier that qualify,
    and the hit counter grows.  The result is absent when no live entry
    qualifies; there is a result when a live entry qualifies and no
    expired entry left in the memory tier does. *)
Theorem semanticGet_selects_first_best
        (c : cache) (query : string) (threshold : option float) (now : Z) :
  let thr := match threshold with Some t => t | None => semanticThreshold c end in
  let entries := JsMap.values (memoryCache c) in
  let live := filter (fun e => negb (isExpired now e)) entries in
  (forall d, fst (semanticGet query threshold now (with_diskCache d c))
             = fst (semanticGet query threshold now c))
  /\ (forall e, exists intersection union,
         NoDup intersection /\ NoDup union
         /\ (forall x, In x intersection
                       <-> In x (tokens query) /\ In x (tokens (Entry.key e)))
         /\ (forall x, In x union <-> In x (tokens query) \/ In x (tokens (Entry.key e)))
         /\ score query e
            = (float_of_Z (Z.of_nat (List.length intersection))
               / float_of_Z (Z.of_nat (List.length union)))%float)
  /\ (forall result,
         fst (semanticGet query threshold now c) = Normal (Some result) ->
         exists b,
           first_best query thr live b
           /\ isExpired now b = false
           /\ result = mk_semantic_result (Entry.value b) (score query b) "memory"
           /\ snd (semanticGet query threshold now c) = hit c)
  /\ ((forall e, In e live -> qualifies query thr e = false) ->
      semanticGet query threshold now c = (Normal None, c))
  /\ ((exists e, In e live /\ qualifies query thr e = true) ->
      (forall e, In e entries -> qualifies query thr e = true -> isExpired now e = false) ->
      exists b,
        first_best query thr live b
        /\ semanticGet query threshold now c
           = (Normal (Some (mk_semantic_result (Entry.value b) (score query b) "memory")),
              hit c)).
Proof.
intros thr entries live.
pose proof (semantic_loop query thr entries) as Hloop.
split.
{ intros d. unfold semanticGet. cbn [memoryCache semanticThreshold with_diskCache].
  destruct (fold_left _ _ _) as [[b|] s]; [destruct (negb (isExpired now b))|]; reflexivity. }
split.
{ intros e. unfold score.
  destruct (calculateSimilarity_jaccard query (Entry.key e))
    as (i & u & _ & _ & Hi & Hu & Hin & Hun & _ & Heq).
  exists i, u. repeat split; try assumption; try (now apply Hin); try (now apply Hun). }
assert (Hlive : forall e, In e entries -> isExpired now e = false -> In e live).
{ intros e He Hexp. apply filter_In. split; [assumption|]. now rewrite Hexp. }
unfold semanticGet. fold thr entries.
destruct (fold_left (semantic_step query thr) entries (None, 0%float)) as [[b|] s].
- destruct Hloop as (-> & Hbest).
  assert (Hb : In b entries).
  { destruct Hbest as (_ & l1 & l2 & -> & _). apply in_elt. }
  assert (Hq : qualifies query thr b = true) by (now destruct Hbest).
  destruct (isExpired now b) eqn:Hexp; cbn [negb fst snd].
  + split; [intros result H; discriminate H|]. split; [reflexivity|].
    intros _ Hall. rewrite (Hall b Hb Hq) in Hexp. discriminate Hexp.
  + assert (Hfirst : first_best query thr live b).
    { apply first_best_filter; [assumption|]. now rewrite Hexp. }
    split.
    { intros result H. injection H as <-. exists b.
      split; [exact Hfirst|]. split; [exact Hexp|]. split; reflexivity. }
    split.
    { intros Hnone. rewrite (Hnone b (Hlive b Hb Hexp)) in Hq. discriminate Hq. }
    intros _ _. exists b. split; [assumption|reflexivity].
- destruct Hloop as (_ & Hnone). cbn [fst snd].
  split; [intros result H; discriminate H|]. split; [reflexivity|].
  intros (e & He & Hq) _. apply filter_In in He. destruct He as [He _].
  rewrite (Hnone e He) in Hq. discriminate Hq.
Qed.

(** When the selected entry has expired the result is absent, whatever the
    other entries are. *)
Lemma semanticGet_selected_expired
      (c : cache) (query : string) (threshold : option float) (now : Z) (b : Entry.t) :
  first_best query (match threshold with Some t => t | None => semanticThreshold c end)
             (JsMap.values (memoryCache c)) b ->
  isExpired now b = true ->
  semanticGet query threshold now c = (Normal None, c).
Proof.
intros Hb Hexp.
set (thr := match threshold with Some t => t | None => semanticThreshold c end) in *.
pose proof (semantic_loop query thr (JsMap.values (memoryCache c))) as Hloop.
unfold semanticGet. fold thr.
destruct (fold_left (semantic_step query thr) (JsMap.values (memoryCache c)) (None, 0%float))
  as [[b'|] s].
- destruct Hloop as (-> & Hbest).
  rewrite <- (first_best_unique query thr _ b b' Hb Hbest). now rewrite Hexp.
- reflexivity.
Qed.

(** C4, the claim as stated fails: with threshold 0 and one live entry that
    shares no token with the query, the maximum score 0 reaches the
    threshold, yet [semanticGet] returns absent (a score must exceed the
    initial best score 0). *)
Lemma semanticGet_zero_score_is_absent :
  let R := example_runtime in
  let c := snd (set "alpha" (JStr "v") default_set_options 1000 (new_cache no_options)) in
  fst (semanticGet "beta" (Some 0%float) 1001 c) = Normal None
  /\ semanticGet_claimed "beta" 0%float 1001 c = Some (JStr "v", 0%float).
Proof.
vm_compute. split; reflexivity.
Qed.

(** A second departure: an expired entry that scores best hides a live
    entry that reaches the threshold. *)
Lemma semanticGet_expired_best_hides_live :
  let R := example_runtime in
  let c := snd (set "hello there" (JStr "live") default_set_options 50
           (snd (set "hello world" (JStr "old") (mk_set_options (Some 10) None) 0
                     (new_cache no_options)))) in
  fst (semanticGet "hello world" (Some 0.25%float) 100 c) = Normal None
  /\ semanticGet_claimed "hello world" 0.25%float 100 c
     = Some (JStr "live", (1 / 3)%float).
Proof.
vm_compute. split; reflexivity.
Qed.

Lemma semanticGet_selects_first_best_witness :
  let R := example_runtime in
  let c := snd (set "What is the capital of France?" (JStr "Paris") default_set_options 1000
                    (new_cache no_options)) in
  let e := set_entry (new_cache no_options) "What is the capital of France?" (JStr "Paris")
                     default_set_options 1000 in
  exists b,
    first_best "what is the capital of france" 0.5%float
               (filter (fun e => negb (isExpired 1001 e)) (JsMap.values (memoryCache c))) b
    /\ semanticGet "what is the capital of france" (Some 0.5%float) 1001 c
       = (Normal (Some (mk_semantic_result (Entry.value b)
                                           (score "what is the capital of france" b)
                                           "memory")),
          hit c).
Proof.
intros R c e.
destruct (semanticGet_selects_first_best c "what is the capital of france"
            (Some 0.5%float) 1001) as (_ & _ & _ & _ & Hsel).
assert (Hentries : JsMap.values (memoryCache c) = [e]) by (vm_compute; reflexivity).
assert (Hq : qualifies "what is the capital of france" 0.5%float e = true)
  by (vm_compute; reflexivity).
assert (Hlive : isExpired 1001 e = false) by (vm_compute; reflexivity).
apply Hsel.
- exists e. split; [|exact Hq]. rewrite Hentries. cbn [filter]. rewrite Hlive. now left.
- intros x Hx _. rewrite Hentries in Hx. destruct Hx as [<-|[]]. exact Hlive.
Defined.

(* ================================================================== *)
(** * Further properties of the cache *)

(** ** The four ways a [get] ends *)

Section GetCases.
Context {R : Runtime}.

Lemma get_cases key now c : get_outcome key now c.
Proof.
destruct (memory_live key now c) eqn:Hlive.
- unfold memory_live in Hlive.
  destruct (JsMap.get (hashKey key) (memoryCache c)) as [e0|] eqn:E; [|discriminate Hlive].
  apply negb_true_iff in Hlive.
  exact (FromMemory key now c e0 E Hlive (get_memory_hit _ _ _ _ E Hlive)).
- destruct (JsMap.get (hashKey key) (diskCache c)) as [e|] eqn:E.
  + destruct (isExpired now e) eqn:Hexp.
    * apply NoLiveEntry; [assumption| |].
      -- intros e' He'. congruence.
      -- apply get_miss; [assumption|]. now rewrite E.
    * destruct (decompress (Entry.value e) (Entry.compressed e)) as [v|err] eqn:Hdec.
      -- exact (FromDisk key now c e v Hlive E Hexp Hdec (get_disk_hit _ _ _ _ _ Hlive E Hexp Hdec)).
      -- exact (PayloadThrows key now c e err Hlive E Hexp Hdec
                           (get_disk_throws _ _ _ _ _ Hlive E Hexp Hdec)).
  + apply NoLiveEntry; [assumption| |].
    * intros e' He'. congruence.
    * apply get_miss; [assumption|]. now rewrite E.
Qed.

End GetCases.
(** ** What no call changes *)

Section Settings.
Context {R : Runtime}.

Lemma settings_with_memoryCache m c : settings (with_memoryCache m c) = settings c.
Proof. reflexivity. Qed.

Lemma settings_with_diskCache d c : settings (with_diskCache d c) = settings c.
Proof. reflexivity. Qed.

Lemma settings_with_stats s c : settings (with_stats s c) = settings c.
Proof. reflexivity. Qed.

Lemma settings_set_state c key value options now :
  settings (set_state c key value options now) = settings c.
Proof.
unfold set_state, set_stored, after_memory_check, after_disk_check.
destruct (getSize value <? maxMemorySize c);
  destruct (getSize value >? compressionThreshold c);
  match goal with |- context [if ?b then evicted_one _ else _] => destruct b end;
  reflexivity.
Qed.

Lemma settings_after_memory_miss key c : settings (after_memory_miss key c) = settings c.
Proof. unfold after_memory_miss. destruct (JsMap.get _ _); reflexivity. Qed.

Lemma settings_get c key now : settings (snd (get key now c)) = settings c.
Proof.
destruct (get_cases key now c) as [e ? ? Hrun|e v ? ? ? ? Hrun|e err ? ? ? ? Hrun|? ? Hrun];
  rewrite Hrun; cbn [snd].
- reflexivity.
- unfold hit. rewrite settings_with_stats, settings_set_state. apply settings_after_memory_miss.
- apply settings_after_memory_miss.
- unfold miss. rewrite settings_with_stats, settings_with_diskCache.
  apply settings_after_memory_miss.
Qed.

Lemma semanticGet_state c query threshold now :
  snd (semanticGet query threshold now c)
  = match fst (semanticGet query threshold now c) with
    | Normal (Some _) => hit c
    | _ => c
    end.
Proof.
unfold semanticGet.
destruct (fold_left _ _ _) as [[b|] score]; [destruct (negb (isExpired now b))|]; reflexivity.
Qed.

Lemma settings_semanticGet c query threshold now :
  settings (snd (semanticGet query threshold now c)) = settings c.
Proof.
rewrite semanticGet_state. destruct (fst _) as [[r|]|]; reflexivity.
Qed.

Lemma settings_invalidate c key options :
  settings (snd (invalidate key options c)) = settings c.
Proof.
unfold invalidate, bind, lift, hashKey_arg.
destruct key as [k|]; [|reflexivity].
destruct (opt_pattern options) as [[|a p]|]; try reflexivity.
unfold invalidateByPattern, bind, lift, modify.
destruct (RegExp_new (String a p)) as [re|err]; reflexivity.
Qed.

Lemma settings_step o now c : settings (step o now c) = settings c.
Proof.
destruct o as [k v opts|k|q thr|k opts|]; cbn [step].
- rewrite set_run. apply settings_set_state.
- apply settings_get.
- apply settings_semanticGet.
- apply settings_invalidate.
- reflexivity.
Qed.

Lemma settings_run ops c : settings (run ops c) = settings c.
Proof.
unfold run. revert c. induction ops as [|o ops IH]; intros c; simpl; [reflexivity|].
rewrite IH. apply settings_step.
Qed.

Lemma settings_config c c' : settings c' = settings c -> config c' = config c.
Proof. unfold settings. congruence. Qed.

Lemma config_ttl c c' : config c' = config c -> ttl c' = ttl c.
Proof. unfold config. congruence. Qed.

(** X1.  The options fixed by the constructor ([storageDir], the two size
    budgets, the compression threshold, the default TTL and the semantic
    threshold) are the same after any sequence of [set], [get],
    [semanticGet], [invalidate] and [clear] calls, [clear] included. *)
Theorem calls_never_change_settings (ops : list (op * Z)) (c : cache) :
  storageDir (run ops c) = storageDir c
  /\ maxMemorySize (run ops c) = maxMemorySize c
  /\ maxDiskSize (run ops c) = maxDiskSize c
  /\ compressionThreshold (run ops c) = compressionThreshold c
  /\ ttl (run ops c) = ttl c
  /\ semanticThreshold (run ops c) = semanticThreshold c.
Proof.
pose proof (settings_run ops c) as H. unfold settings, config in H.
injection H as H1 H2 H3 H4 H5 H6. repeat split; assumption.
Qed.

End Settings.
(** ** The counters *)

Section Counters.
Context {R : Runtime}.

Lemma stats_set_state c key value options now :
  hits (stats (set_state c key value options now)) = hits (stats c)
  /\ misses (stats (set_state c key value options now)) = misses (stats c)
  /\ compression (stats (set_state c key value options now))
     = compression (stats c) + (if getSize value >? compressionThreshold c then 1 else 0)
  /\ evictions (stats c) <= evictions (stats (set_state c key value options now))
     <= evictions (stats c) + 1.
Proof.
unfold set_state, set_stored, after_memory_check, after_disk_check.
destruct (getSize value <? maxMemorySize c);
  destruct (getSize value >? compressionThreshold c);
  match goal with |- context [if ?b then evicted_one _ else _] => destruct b end;
  cbn; lia.
Qed.

Lemma stats_after_memory_miss key c : stats (after_memory_miss key c) = stats c.
Proof. unfold after_memory_miss. destruct (JsMap.get _ _); reflexivity. Qed.

(** What a [get] does to the four counters. *)
Lemma stats_get c key now :
  let c' := snd (get key now c) in
  requests c' = requests c + match fst (get key now c) with Normal _ => 1 | Throw _ => 0 end
  /\ hits (stats c) <= hits (stats c')
  /\ misses (stats c) <= misses (stats c')
  /\ compression (stats c) <= compression (stats c')
  /\ evictions (stats c) <= evictions (stats c').
Proof.
unfold requests.
destruct (get_cases key now c) as [e ? ? Hrun|e v ? ? ? ? Hrun|e err ? ? ? ? Hrun|? ? Hrun];
  rewrite Hrun; cbn [snd fst].
- cbn. lia.
- pose proof (stats_set_state (after_memory_miss key c) key v
                              (mk_set_options (Some (ttl c)) None) now) as (H1 & H2 & H3 & H4).
  rewrite stats_after_memory_miss in H1, H2, H3, H4.
  cbn [hit stats with_stats hits misses compression evictions].
  destruct (getSize v >? compressionThreshold (after_memory_miss key c)); lia.
- rewrite stats_after_memory_miss. lia.
- cbn [miss stats with_stats with_diskCache hits misses compression evictions].
  rewrite stats_after_memory_miss. lia.
Qed.

Lemma stats_invalidate c key options : stats (snd (invalidate key options c)) = stats c.
Proof.
unfold invalidate, bind, lift, hashKey_arg.
destruct key as [k|]; [|reflexivity].
destruct (opt_pattern options) as [[|a p]|]; try reflexivity.
unfold invalidateByPattern, bind, lift, modify.
destruct (RegExp_new (String a p)) as [re|err]; reflexivity.
Qed.

Lemma counters_step o now c :
  is_clear o = false ->
  hits (stats c) <= hits (stats (step o now c))
  /\ misses (stats c) <= misses (stats (step o now c))
  /\ compression (stats c) <= compression (stats (step o now c))
  /\ evictions (stats c) <= evictions (stats (step o now c)).
Proof.
intros Hclear. destruct o as [k v opts|k|q thr|k opts|]; cbn [step]; [| | | |discriminate Hclear].
- rewrite set_run. cbn [snd].
  pose proof (stats_set_state c k v opts now) as (H1 & H2 & H3 & H4).
  destruct (getSize v >? compressionThreshold c); lia.
- pose proof (stats_get c k now) as H. cbv zeta in H. tauto.
- rewrite semanticGet_state. destruct (fst _) as [[r|]|]; cbn; lia.
- rewrite stats_invalidate. lia.
Qed.

(** X2.  The four counters ([hits], [misses], [compression],
    [evictions]) never go down along a sequence of [set], [get],
    [semanticGet] and [invalidate] calls: only [clear] resets them. *)
Theorem counters_only_grow_without_clear (ops : list (op * Z)) (c : cache) :
  forallb (fun o => negb (is_clear (fst o))) ops = true ->
  hits (stats c) <= hits (stats (run ops c))
  /\ misses (stats c) <= misses (stats (run ops c))
  /\ compression (stats c) <= compression (stats (run ops c))
  /\ evictions (stats c) <= evictions (stats (run ops c)).
Proof.
unfold run. revert c. induction ops as [|o ops IH]; intros c Hops; simpl; [lia|].
simpl in Hops. apply andb_true_iff in Hops. destruct Hops as [Ho Hops].
apply negb_true_iff in Ho.
pose proof (counters_step (fst o) (snd o) c Ho).
pose proof (IH (step (fst o) (snd o) c) Hops). lia.
Qed.

Lemma get_counts_one c key now :
  requests (snd (get key now c))
  = requests c + match fst (get key now c) with Normal _ => 1 | Throw _ => 0 end.
Proof. pose proof (stats_get c key now) as H. cbv zeta in H. tauto. Qed.

(** X3.  Every [get] that returns counts as exactly one request: it adds
    one to [hits] or to [misses], whichever tier answered, and a [get]
    that throws adds nothing. *)
Theorem get_counts_one_request (c : cache) (key : string) (now : Z) :
  requests (snd (get key now c))
  = requests c + match fst (get key now c) with Normal _ => 1 | Throw _ => 0 end.
Proof. pose proof (stats_get c key now) as H. cbv zeta in H. tauto. Qed.

End Counters.

Lemma counters_only_grow_without_clear_witness :
  let R := example_runtime in
  hits (stats ten_byte_budget) <= hits (stats (run stable_calls ten_byte_budget))
  /\ misses (stats ten_byte_budget) <= misses (stats (run stable_calls ten_byte_budget))
  /\ compression (stats ten_byte_budget)
     <= compression (stats (run stable_calls ten_byte_budget))
  /\ evictions (stats ten_byte_budget) <= evictions (stats (run stable_calls ten_byte_budget)).
Proof.
intros R.
assert (H : forallb (fun o => negb (is_clear (fst o))) stable_calls = true)
  by (vm_compute; reflexivity).
exact (@counters_only_grow_without_clear example_runtime stable_calls ten_byte_budget H).
Defined.
(** ** Properties of every stored entry *)

Section EntryInvariant.
Context {R : Runtime}.
Variable P : string -> Entry.t -> Prop.

Lemma both_tiers_set_state c key value options now :
  kept_at P (config c) now ->
  both_tiers P c -> both_tiers P (set_state c key value options now).
Proof.
intros [Hset _] [Hmem Hdisk].
pose proof (Hset c key value options eq_refl) as Hnew.
destruct (Z.ltb_spec (getSize value) (maxMemorySize c)) as [Hsmall|Hbig].
- split.
  + unfold set_state. pose proof Hsmall as H. apply Z.ltb_lt in H. rewrite H.
    unfold after_memory_check.
    match goal with |- context [if ?b then evicted_one _ else _] => destruct b end;
      cbn [memoryCache evicted_one with_memoryCache with_stats];
      rewrite memoryCache_set_stored_small by assumption.
    * eapply all_entries_incl; [apply incl_evict|]. now apply all_entries_set.
    * now apply all_entries_set.
  + now rewrite diskCache_set_state_small.
- split.
  + now rewrite memoryCache_set_state_big.
  + unfold set_state. pose proof Hbig as H. apply Z.ltb_ge in H. rewrite H.
    unfold after_disk_check.
    match goal with |- context [if ?b then evicted_one _ else _] => destruct b end;
      cbn [diskCache evicted_one with_diskCache with_stats];
      rewrite diskCache_set_stored_big by assumption.
    * eapply all_entries_incl; [apply incl_evict|]. now apply all_entries_set.
    * now apply all_entries_set.
Qed.

Lemma both_tiers_after_memory_miss key c :
  both_tiers P c -> both_tiers P (after_memory_miss key c).
Proof.
intros [Hmem Hdisk]. unfold after_memory_miss.
destruct (JsMap.get (hashKey key) (memoryCache c)); [|now split].
split; [|assumption]. cbn [memoryCache with_memoryCache].
eapply all_entries_incl; [apply incl_delete|assumption].
Qed.

Lemma both_tiers_get c key now :
  kept_at P (config c) now ->
  both_tiers P c -> both_tiers P (snd (get key now c)).
Proof.
intros Hkept Hp. pose proof Hp as [Hmem Hdisk].
pose proof (both_tiers_after_memory_miss key c Hp) as Hp'.
destruct (get_cases key now c) as [e He ? Hrun|e v ? ? ? ? Hrun|e err ? ? ? ? Hrun|? ? Hrun];
  rewrite Hrun; cbn [snd].
- split; [|assumption]. cbn [memoryCache with_memoryCache].
  apply all_entries_set; [|assumption].
  destruct Hkept as [_ Htouch]. apply Htouch.
  apply JsMapFacts.get_In in He. now apply Hmem in He.
- assert (Hcfg : config (after_memory_miss key c) = config c)
    by (apply settings_config, settings_after_memory_miss).
  apply (both_tiers_set_state (after_memory_miss key c)); [now rewrite Hcfg|assumption].
- assumption.
- destruct Hp' as [Hmem' Hdisk']. split; [assumption|].
  cbn [diskCache with_diskCache miss with_stats].
  eapply all_entries_incl; [apply incl_delete|assumption].
Qed.

Lemma both_tiers_invalidate c key options :
  both_tiers P c -> both_tiers P (snd (invalidate key options c)).
Proof.
intros Hp. pose proof Hp as [Hmem Hdisk].
unfold invalidate, bind, lift, hashKey_arg.
destruct key as [k|]; [|exact Hp].
assert (Hsingle : both_tiers P
          (snd ((modify (fun c => with_memoryCache (JsMap.delete (hashKey k) (memoryCache c)) c) ;;;
                 modify (fun c => with_diskCache (JsMap.delete (hashKey k) (diskCache c)) c)) c))).
{ cbn. split; (eapply all_entries_incl; [apply incl_delete|assumption]). }
destruct (opt_pattern options) as [[|a p]|]; try exact Hsingle.
unfold invalidateByPattern, bind, lift, modify.
destruct (RegExp_new (String a p)) as [re|err]; [|exact Hp].
cbn. split; (eapply all_entries_incl; [apply incl_delete_matching|assumption]).
Qed.

Lemma both_tiers_step o now c :
  kept_at P (config c) now ->
  both_tiers P c -> both_tiers P (step o now c).
Proof.
intros Hkept Hp. destruct o as [k v opts|k|q thr|k opts|]; cbn [step].
- rewrite set_run. now apply both_tiers_set_state.
- now apply both_tiers_get.
- rewrite semanticGet_state. destruct (fst _) as [[r|]|]; exact Hp.
- now apply both_tiers_invalidate.
- split; intros k e [].
Qed.

Lemma both_tiers_run ops c :
  (forall o, In o ops -> kept_at P (config c) (snd o)) ->
  both_tiers P c -> both_tiers P (run ops c).
Proof.
unfold run. revert c. induction ops as [|o ops IH]; intros c Hkept Hp; simpl; [assumption|].
apply IH.
- intros o' Ho'.
  rewrite (settings_config _ _ (settings_step (fst o) (snd o) c)).
  apply Hkept. now right.
- apply both_tiers_step; [|assumption]. apply Hkept. now left.
Qed.

End EntryInvariant.
(** ** Entries of a cache built by calls *)

Section Reached.
Context {R : Runtime}.

Lemma ttl_new_cache options : ttl (new_cache options) <> 0.
Proof.
cbn [new_cache ttl]. unfold or_default.
destruct (o_ttl options) as [t|]; [|discriminate].
destruct (t =? 0) eqn:E; [discriminate|]. now apply Z.eqb_neq in E.
Qed.

Lemma or_default_not_zero x d : d <> 0 -> or_default x d <> 0.
Proof.
intros Hd. unfold or_default. destruct x as [t|]; [|assumption].
destruct (t =? 0) eqn:E; [assumption|]. now apply Z.eqb_neq in E.
Qed.

Lemma well_formed_kept cfg now :
  (let '(_, _, _, t) := cfg in t <> 0) -> kept_at well_formed cfg now.
Proof.
intros Hcfg. split.
- intros c key value options Hc. subst cfg. unfold config in Hcfg.
  unfold well_formed. repeat split.
  + unfold set_entry. cbn [Entry.ttl]. now apply or_default_not_zero.
  + cbn. lia.
  + exists value. apply decompress_set_entry.
- intros k e (H1 & H2 & H4 & H5 & H6). unfold well_formed.
  cbn [Entry.touch Entry.key Entry.hash Entry.ttl
       Entry.accessCount Entry.value Entry.compressed].
  repeat split; try assumption; lia.
Qed.

Lemma well_formed_run options ops :
  both_tiers well_formed (run ops (new_cache options)).
Proof.
apply both_tiers_run.
- intros o _. apply well_formed_kept. unfold config. apply ttl_new_cache.
- split; intros k e [].
Qed.

Lemma tiers_ok_new options ops : tiers_ok (run ops (new_cache options)).
Proof. apply tiers_ok_run. split; apply tier_ok_empty. Qed.

(** X4.  In a cache reached from a new one by any sequence of calls, each
    tier holds at most one entry per hash, and every entry is filed under
    the SHA-256 hash of its own key, carries that hash in its [hash]
    field, has a [ttl] that is not zero and a non-negative [accessCount],
    and holds a payload that [decompress] reads without throwing. *)
Theorem stored_entries_are_well_formed (options : cache_options) (ops : list (op * Z)) :
  let c := run ops (new_cache options) in
  NoDup (JsMap.keys (memoryCache c))
  /\ NoDup (JsMap.keys (diskCache c))
  /\ both_tiers well_formed c.
Proof.
intros c. destruct (tiers_ok_new options ops) as [[Hm _] [Hd _]].
split; [exact Hm|]. split; [exact Hd|]. apply well_formed_run.
Qed.

Lemma get_returns options ops key now :
  exists v, fst (get key now (run ops (new_cache options))) = Normal v.
Proof.
set (c := run ops (new_cache options)).
destruct (get_cases key now c) as [e ? ? Hrun|e v ? ? ? ? Hrun|e err ? He ? Hdec Hrun|? ? Hrun];
  try (rewrite Hrun; eexists; reflexivity).
exfalso.
destruct (well_formed_run options ops) as [_ Hdisk].
apply JsMapFacts.get_In in He. apply Hdisk in He.
destruct He as (_ & _ & _ & _ & v & Hv). fold c in Hdec. congruence.
Qed.

(** X5.  On a cache reached from a new one by any sequence of calls,
    [get] never throws: it returns a value, or [null] on a miss.  (A disk
    hit decompresses the stored payload, and every stored payload is one
    that [compress] wrote.) *)
Theorem get_never_throws (options : cache_options) (ops : list (op * Z))
        (key : string) (now : Z) :
  exists v, fst (get key now (run ops (new_cache options))) = Normal v.
Proof. apply get_returns. Qed.

End Reached.
(** ** Reading back what was set *)

Section SetThenGet.
Context {R : Runtime}.

Lemma evict_spares f (m : JsMap.t Entry.t) h e :
  tier_ok m -> JsMap.get h m = Some e ->
  (exists k x, In (k, x) m /\ k <> h /\ f x < f e) ->
  JsMap.get h (evict f m) = Some e.
Proof.
intros Hok Hget (k & x & Hin & Hk & Hlt).
unfold evict. destruct (first_least f (JsMap.values m)) as [victim|] eqn:E; [|assumption].
assert (Hx : In x (JsMap.values m)).
{ unfold JsMap.values. apply in_map_iff. exists (k, x). now split. }
pose proof (first_least_le _ _ _ _ E Hx) as Hle.
assert (Hne : Entry.hash victim <> h).
{ intros Heq. pose proof (tier_ok_get m victim Hok (first_least_In _ _ _ E)) as Hg.
  rewrite Heq, Hget in Hg. injection Hg as <-. lia. }
now rewrite JsMapFacts.get_delete_other.
Qed.

Lemma single_key_map (m : JsMap.t Entry.t) h e :
  NoDup (JsMap.keys m) -> JsMap.get h m = Some e ->
  (forall k x, In (k, x) m -> k = h) -> m = [(h, e)].
Proof.
intros Hnd Hget Hall. destruct m as [|[k1 x1] rest]; [discriminate Hget|].
assert (k1 = h) by (apply (Hall k1 x1); now left). subst k1.
destruct rest as [|[k2 x2] rest].
- cbn in Hget. rewrite String.eqb_refl in Hget. now injection Hget as ->.
- assert (k2 = h) by (apply (Hall k2 x2); right; now left). subst k2.
  cbn in Hnd. inversion Hnd as [|? ? Hnotin _]. exfalso. apply Hnotin. now left.
Qed.

Lemma other_key_or_single (m : JsMap.t Entry.t) h :
  (exists k x, In (k, x) m /\ k <> h) \/ (forall k x, In (k, x) m -> k = h).
Proof.
induction m as [|[k1 x1] rest IH].
- right. intros k x [].
- destruct (String.eqb_spec k1 h) as [->|Hne].
  + destruct IH as [(k & x & Hin & Hk)|Hall].
    * left. exists k, x. split; [now right|assumption].
    * right. intros k x [Heq|Hin]; [now injection Heq as <- _|now apply (Hall k x)].
  + left. exists k1, x1. split; [now left|assumption].
Qed.

Lemma set_state_disk_overflows c key value options now :
  maxMemorySize c <= getSize value ->
  maxDiskSize c
  < total_size (JsMap.set (hashKey key) (set_entry c key value options now) (diskCache c)) ->
  diskCache (set_state c key value options now)
  = evict Entry.timestamp
          (JsMap.set (hashKey key) (set_entry c key value options now) (diskCache c)).
Proof.
intros Hbig Hover. unfold set_state. pose proof Hbig as H. apply Z.ltb_ge in H.
rewrite H. unfold after_disk_check.
destruct (config_set_stored c key value options now) as (_ & -> & _).
rewrite diskCache_set_stored_big by assumption.
apply Z.gtb_lt in Hover. rewrite Hover. reflexivity.
Qed.

(** The entry that [set] wrote is still in its tier after the eviction
    check, when every other entry is older. *)
Lemma newest_survives f (m : JsMap.t Entry.t) h e budget :
  tier_ok m -> Entry.hash e = h ->
  (forall k x, In (k, x) m -> f x < f e) ->
  getSize (Entry.value e) <= budget ->
  JsMap.get h (if total_size (JsMap.set h e m) >? budget
               then evict f (JsMap.set h e m) else JsMap.set h e m)
  = Some e.
Proof.
intros Hok Hh Hold Hfit.
pose proof (JsMapFacts.get_set_same h e m) as Hget.
destruct (total_size (JsMap.set h e m) >? budget) eqn:Hover; [|assumption].
apply Z.gtb_lt in Hover.
pose proof (tier_ok_set h e m Hh Hok) as Hok'.
destruct (other_key_or_single (JsMap.set h e m) h) as [(k & x & Hin & Hk)|Hall].
- apply evict_spares; [assumption|assumption|].
  exists k, x. split; [assumption|]. split; [assumption|].
  apply JsMapFacts.In_set in Hin. destruct Hin as [Heq|Hin].
  + injection Heq as -> _. contradiction.
  + now apply (Hold k x).
- destruct Hok' as [Hnd _].
  rewrite (single_key_map _ h e Hnd Hget Hall) in Hover.
  rewrite total_size_cons, total_size_nil in Hover. lia.
Qed.

Lemma set_state_keeps_new_memory c key value options now :
  tier_ok (memoryCache c) ->
  (forall k x, In (k, x) (memoryCache c) -> Entry.lastAccess x < now) ->
  getSize value < maxMemorySize c ->
  storedSize c value <= maxMemorySize c ->
  JsMap.get (hashKey key) (memoryCache (set_state c key value options now))
  = Some (set_entry c key value options now).
Proof.
intros Hok Hold Hsmall Hfit.
pose proof (newest_survives Entry.lastAccess (memoryCache c) (hashKey key)
              (set_entry c key value options now) (maxMemorySize c) Hok eq_refl Hold Hfit)
  as Hnew.
destruct (total_size (JsMap.set (hashKey key) (set_entry c key value options now)
                                (memoryCache c)) >? maxMemorySize c) eqn:Hover.
- apply Z.gtb_lt in Hover.
  destruct (set_state_memory_overflows c key value options now Hsmall Hover) as [-> _].
  exact Hnew.
- rewrite Z.gtb_ltb in Hover. apply Z.ltb_ge in Hover.
  destruct (set_state_memory_fits c key value options now Hsmall Hover) as [-> _].
  exact Hnew.
Qed.

Lemma set_state_keeps_new_disk c key value options now :
  tier_ok (diskCache c) ->
  (forall k x, In (k, x) (diskCache c) -> Entry.timestamp x < now) ->
  maxMemorySize c <= getSize value ->
  storedSize c value <= maxDiskSize c ->
  JsMap.get (hashKey key) (diskCache (set_state c key value options now))
  = Some (set_entry c key value options now).
Proof.
intros Hok Hold Hbig Hfit.
pose proof (newest_survives Entry.timestamp (diskCache c) (hashKey key)
              (set_entry c key value options now) (maxDiskSize c) Hok eq_refl Hold Hfit)
  as Hnew.
destruct (total_size (JsMap.set (hashKey key) (set_entry c key value options now)
                                (diskCache c)) >? maxDiskSize c) eqn:Hover.
- apply Z.gtb_lt in Hover.
  rewrite (set_state_disk_overflows c key value options now Hbig Hover).
  exact Hnew.
- rewrite Z.gtb_ltb in Hover. apply Z.ltb_ge in Hover.
  now apply get_set_state_disk.
Qed.

Lemma written_before_kept bound cfg t :
  t < bound -> kept_at (fun _ e => written_before bound e) cfg t.
Proof.
intros Ht. split.
- intros c key value options _. split; exact Ht.
- intros k e [H1 H2]. split; [exact H1|exact Ht].
Qed.

Lemma written_before_run options ops bound :
  Forall (fun o => snd o < bound) ops ->
  both_tiers (fun _ e => written_before bound e) (run ops (new_cache options)).
Proof.
intros Hops. apply both_tiers_run.
- intros o Ho. apply written_before_kept. rewrite Forall_forall in Hops. now apply Hops.
- split; intros k e [].
Qed.

Lemma not_expired_until now T t e :
  Entry.expiresAt e = now + T -> t <= now + T -> isExpired t e = false.
Proof. intros He Ht. unfold isExpired. rewrite He, Z.gtb_ltb. now apply Z.ltb_ge. Qed.

(** X6.  On a cache reached from a new one by calls made at earlier clock
    values, a value that [set] neither compresses nor sends to disk is
    what [get] of the same key returns, at any time up to and including
    the entry's expiry: the eviction check of that [set] removes an older
    entry, never the one just written. *)
Theorem set_then_get_returns_value
        (options : cache_options) (ops : list (op * Z))
        (key : string) (value : json) (opts : set_options) (now t : Z) :
  let c := run ops (new_cache options) in
  Forall (fun o => snd o < now) ops ->
  getSize value <= compressionThreshold c ->
  getSize value < maxMemorySize c ->
  t <= now + or_default (opt_ttl opts) (ttl c) ->
  fst (get key t (snd (set key value opts now c))) = Normal value.
Proof.
intros c Hops Hplain Hsmall Ht.
rewrite set_run. cbn [snd].
destruct (tiers_ok_new options ops) as [Hok _]. fold c in Hok.
destruct (written_before_run options ops now Hops) as [Hold _]. fold c in Hold.
assert (Hstored : storedSize c value = getSize value).
{ unfold storedSize. rewrite Z.gtb_ltb. apply Z.ltb_ge in Hplain. now rewrite Hplain. }
assert (Hget : JsMap.get (hashKey key) (memoryCache (set_state c key value opts now))
               = Some (set_entry c key value opts now)).
{ apply set_state_keeps_new_memory; try assumption; [|lia].
  intros k x Hin. now destruct (Hold k x Hin). }
rewrite (get_memory_hit _ _ _ _ Hget);
  [|now apply (not_expired_until now (or_default (opt_ttl opts) (ttl c)) t)].
cbn [fst]. unfold set_entry. cbn [Entry.value].
rewrite Z.gtb_ltb. apply Z.ltb_ge in Hplain. now rewrite Hplain.
Qed.

(** X7.  On a cache reached from a new one by calls made at earlier clock
    values, a value that [set] sends to the disk tier (its size is at
    least [maxMemorySize]) and whose stored form fits the disk budget is
    what [get] of the same key returns up to and including the entry's
    expiry, compressed or not, provided the memory tier holds no live
    entry for the key: the disk branch of [get] decompresses. *)
Theorem set_then_get_through_disk
        (options : cache_options) (ops : list (op * Z))
        (key : string) (value : json) (opts : set_options) (now t : Z) :
  let c := run ops (new_cache options) in
  Forall (fun o => snd o < now) ops ->
  maxMemorySize c <= getSize value ->
  storedSize c value <= maxDiskSize c ->
  memory_live key t c = false ->
  t <= now + or_default (opt_ttl opts) (ttl c) ->
  fst (get key t (snd (set key value opts now c))) = Normal value.
Proof.
intros c Hops Hbig Hfit Hmem Ht.
rewrite set_run. cbn [snd].
destruct (tiers_ok_new options ops) as [_ Hok]. fold c in Hok.
destruct (written_before_run options ops now Hops) as [_ Hold]. fold c in Hold.
assert (Hget : JsMap.get (hashKey key) (diskCache (set_state c key value opts now))
               = Some (set_entry c key value opts now)).
{ apply set_state_keeps_new_disk; try assumption.
  intros k x Hin. now destruct (Hold k x Hin). }
assert (Hmem' : memory_live key t (set_state c key value opts now) = false).
{ unfold memory_live. now rewrite memoryCache_set_state_big. }
rewrite (get_disk_hit _ _ _ _ value Hmem' Hget).
- reflexivity.
- now apply (not_expired_until now (or_default (opt_ttl opts) (ttl c)) t).
- apply decompress_set_entry.
Qed.

(** X8.  A TTL of 0 is no TTL: in a cache constructed with [ttl: 0], an
    entry set with [ttl: 0] is kept for the default 24 hours, and a [get]
    up to 86400000 ms later returns it. *)
Theorem zero_ttl_entry_lives_a_day
        (options : cache_options) (key : string) (value : json)
        (metadata : option json) (now t : Z) :
  o_ttl options = Some 0 ->
  getSize value <= compressionThreshold (new_cache options) ->
  getSize value < maxMemorySize (new_cache options) ->
  t <= now + 86400000 ->
  ttl (new_cache options) = 86400000
  /\ fst (set key value (mk_set_options (Some 0) metadata) now (new_cache options))
     = Normal (set_entry (new_cache options) key value (mk_set_options None metadata) now)
  /\ fst (get key t (snd (set key value (mk_set_options (Some 0) metadata) now
                              (new_cache options))))
     = Normal value.
Proof.
intros Httl Hplain Hsmall Ht.
assert (Hday : ttl (new_cache options) = 86400000).
{ cbn [new_cache ttl]. now rewrite Httl. }
split; [exact Hday|]. rewrite set_run. cbn [fst snd]. split; [reflexivity|].
set (c := new_cache options) in *.
assert (Hstored : storedSize c value = getSize value).
{ unfold storedSize. rewrite Z.gtb_ltb. apply Z.ltb_ge in Hplain. now rewrite Hplain. }
assert (Hget : JsMap.get (hashKey key)
                 (memoryCache (set_state c key value (mk_set_options (Some 0) metadata) now))
               = Some (set_entry c key value (mk_set_options (Some 0) metadata) now)).
{ apply set_state_keeps_new_memory; try assumption; [apply tier_ok_empty| |lia].
  intros k x []. }
rewrite (get_memory_hit _ _ _ _ Hget).
- cbn [fst]. unfold set_entry. cbn [Entry.value].
  rewrite Z.gtb_ltb. apply Z.ltb_ge in Hplain. now rewrite Hplain.
- apply (not_expired_until now 86400000 t); [|assumption].
  unfold set_entry. cbn [Entry.expiresAt opt_ttl].
  change (or_default (Some 0) (ttl c)) with (ttl c). now rewrite Hday.
Qed.

End SetThenGet.

Lemma set_then_get_returns_value_witness :
  let R := example_runtime in
  fst (get "k" 3
         (snd (set "k" (JNum 12345) default_set_options 2
                   (run [(OpSet "a" (JNum 123456) default_set_options, 1)]
                        (new_cache (mk_cache_options None (Some 10) None None None None))))))
  = Normal (JNum 12345).
Proof.
intros R.
assert (H1 : Forall (fun o : op * Z => snd o < 2)
                    [(OpSet "a" (JNum 123456) default_set_options, 1)])
  by (constructor; [vm_compute; reflexivity|constructor]).
assert (H2 : getSize (JNum 12345)
             <= compressionThreshold
                  (run [(OpSet "a" (JNum 123456) default_set_options, 1)]
                       (new_cache (mk_cache_options None (Some 10) None None None None))))
  by (vm_compute; intros H; discriminate H).
assert (H3 : getSize (JNum 12345)
             < maxMemorySize
                 (run [(OpSet "a" (JNum 123456) default_set_options, 1)]
                      (new_cache (mk_cache_options None (Some 10) None None None None))))
  by (vm_compute; reflexivity).
assert (H4 : 3 <= 2 + or_default (opt_ttl default_set_options)
                        (ttl (run [(OpSet "a" (JNum 123456) default_set_options, 1)]
                                  (new_cache (mk_cache_options None (Some 10) None None
                                                               None None)))))
  by (vm_compute; intros H; discriminate H).
exact (@set_then_get_returns_value example_runtime
         (mk_cache_options None (Some 10) None None None None)
         [(OpSet "a" (JNum 123456) default_set_options, 1)]
         "k" (JNum 12345) default_set_options 2 3 H1 H2 H3 H4).
Defined.

Lemma set_then_get_through_disk_witness :
  let R := example_runtime in
  fst (get "k" 3
         (snd (set "k" six_hundred_ones default_set_options 2
                   (run [(OpSet "a" (JNum 1) default_set_options, 1)]
                        (new_cache (mk_cache_options None (Some 10) None None None None))))))
  = Normal six_hundred_ones.
Proof.
intros R.
assert (H1 : Forall (fun o : op * Z => snd o < 2)
                    [(OpSet "a" (JNum 1) default_set_options, 1)])
  by (constructor; [vm_compute; reflexivity|constructor]).
assert (H2 : maxMemorySize
               (run [(OpSet "a" (JNum 1) default_set_options, 1)]
                    (new_cache (mk_cache_options None (Some 10) None None None None)))
             <= getSize six_hundred_ones)
  by (vm_compute; intros H; discriminate H).
assert (H3 : storedSize
               (run [(OpSet "a" (JNum 1) default_set_options, 1)]
                    (new_cache (mk_cache_options None (Some 10) None None None None)))
               six_hundred_ones
             <= maxDiskSize
                  (run [(OpSet "a" (JNum 1) default_set_options, 1)]
                       (new_cache (mk_cache_options None (Some 10) None None None None))))
  by (vm_compute; intros H; discriminate H).
assert (H4 : memory_live "k" 3
               (run [(OpSet "a" (JNum 1) default_set_options, 1)]
                    (new_cache (mk_cache_options None (Some 10) None None None None)))
             = false)
  by (vm_compute; reflexivity).
assert (H5 : 3 <= 2 + or_default (opt_ttl default_set_options)
                        (ttl (run [(OpSet "a" (JNum 1) default_set_options, 1)]
                                  (new_cache (mk_cache_options None (Some 10) None None
                                                               None None)))))
  by (vm_compute; intros H; discriminate H).
exact (@set_then_get_through_disk example_runtime
         (mk_cache_options None (Some 10) None None None None)
         [(OpSet "a" (JNum 1) default_set_options, 1)]
         "k" six_hundred_ones default_set_options 2 3 H1 H2 H3 H4 H5).
Defined.

Lemma zero_ttl_entry_lives_a_day_witness :
  let R := example_runtime in
  ttl (new_cache (mk_cache_options None None None None (Some 0) None)) = 86400000
  /\ fst (set "k" (JStr "v") (mk_set_options (Some 0) None) 1000
              (new_cache (mk_cache_options None None None None (Some 0) None)))
     = Normal (set_entry (new_cache (mk_cache_options None None None None (Some 0) None))
                         "k" (JStr "v") (mk_set_options None None) 1000)
  /\ fst (get "k" 86401000
              (snd (set "k" (JStr "v") (mk_set_options (Some 0) None) 1000
                        (new_cache (mk_cache_options None None None None (Some 0) None)))))
     = Normal (JStr "v").
Proof.
intros R.
assert (H1 : o_ttl (mk_cache_options None None None None (Some 0) None) = Some 0)
  by reflexivity.
assert (H2 : getSize (JStr "v")
             <= compressionThreshold
                  (new_cache (mk_cache_options None None None None (Some 0) None)))
  by (vm_compute; intros H; discriminate H).
assert (H3 : getSize (JStr "v")
             < maxMemorySize (new_cache (mk_cache_options None None None None (Some 0) None)))
  by (vm_compute; reflexivity).
assert (H4 : 86401000 <= 1000 + 86400000) by (vm_compute; intros H; discriminate H).
exact (@zero_ttl_entry_lives_a_day example_runtime
         (mk_cache_options None None None None (Some 0) None)
         "k" (JStr "v") None 1000 86401000 H1 H2 H3 H4).
Defined.
(** ** [prefetch] *)

Section Prefetch.
Context {R : Runtime}.

Lemma run_app a b c : run (a ++ b) c = run b (run a c).
Proof. unfold run. apply fold_left_app. Qed.

Lemma prefetch_each_reached options priority now keys : forall ops acc,
  let c := run ops (new_cache options) in
  exists entries,
    prefetch_each keys priority now acc c = (Normal (acc ++ entries), run (gets keys now) c)
    /\ (List.length entries <= List.length keys)%nat
    /\ Forall (fun item => In (p_key item) keys
                           /\ truthy (p_value item) = true
                           /\ p_priority item = priority) entries
    /\ requests (run (gets keys now) c) = requests c + Z.of_nat (List.length keys).
Proof.
induction keys as [|key rest IH]; intros ops acc c.
- exists []. cbn [prefetch_each gets map]. rewrite app_nil_r.
  split; [reflexivity|]. split; [cbn; lia|]. split; [constructor|].
  cbn [run fold_left List.length]. lia.
- destruct (get_returns options ops key now) as [v Hv]. fold c in Hv.
  pose proof (get_counts_one c key now) as Hreq. rewrite Hv in Hreq.
  destruct (get key now c) as [r c'] eqn:Hget. cbn [fst snd] in Hv, Hreq. subst r.
  assert (Hc' : c' = run (ops ++ [(OpGet key, now)]) (new_cache options)).
  { rewrite run_app. cbn [run fold_left step fst snd]. fold c. now rewrite Hget. }
  destruct (IH (ops ++ [(OpGet key, now)])
               (if truthy v then acc ++ [mk_prefetched key v priority] else acc))
    as (entries & Hrun & Hlen & Hall & Hcount).
  cbv zeta in Hrun, Hcount. rewrite <- Hc' in Hrun, Hcount.
  assert (Hstate : run (gets (key :: rest) now) c = run (gets rest now) c').
  { cbn [gets map run fold_left step fst snd]. now rewrite Hget. }
  assert (Hrest : Forall (fun item => In (p_key item) (key :: rest)
                                      /\ truthy (p_value item) = true
                                      /\ p_priority item = priority) entries).
  { eapply Forall_impl; [|exact Hall]. cbn. intros item (H1 & H2 & H3). tauto. }
  cbn [prefetch_each]. unfold bind. rewrite Hget, Hrun, Hstate, Hcount, Hreq.
  destruct (truthy v) eqn:Htruthy.
  + exists (mk_prefetched key v priority :: entries).
    rewrite <- app_assoc. cbn [app List.length].
    split; [reflexivity|]. split; [lia|]. split; [|lia].
    constructor; [|assumption]. cbn. tauto.
  + exists entries. cbn [List.length].
    split; [reflexivity|]. split; [lia|]. split; [assumption|lia].
Qed.

Lemma prefetch_each_items options priority now keys : forall ops acc,
  let c := run ops (new_cache options) in
  fst (prefetch_each keys priority now acc c)
  = Normal (acc ++ items_of_gets keys priority now c).
Proof.
induction keys as [|key rest IH]; intros ops acc c.
- cbn [prefetch_each items_of_gets]. now rewrite app_nil_r.
- destruct (get_returns options ops key now) as [v Hv]. fold c in Hv.
  cbn [prefetch_each items_of_gets]. unfold bind. rewrite Hv.
  destruct (get key now c) as [r c'] eqn:Hget. cbn [fst snd] in Hv |- *. subst r.
  assert (Hc' : c' = run (ops ++ [(OpGet key, now)]) (new_cache options)).
  { rewrite run_app. cbn [run fold_left step fst snd]. fold c. now rewrite Hget. }
  rewrite Hc'.
  rewrite (IH (ops ++ [(OpGet key, now)])
              (if truthy v then acc ++ [mk_prefetched key v priority] else acc)).
  destruct (truthy v); [now rewrite <- app_assoc|reflexivity].
Qed.

(** X9.  On a cache reached from a new one by any sequence of calls,
    [prefetch] does not throw and leaves the cache as one [get] per key
    does, in order.  It returns, in the order of the keys, one item for
    each key whose [get] returned a truthy value: the item holds that
    key, the value that this [get] returned and the priority of the call
    (['low'] when none is given).  A key whose [get] returns [null], [0],
    [false] or the empty string gives no item, although a cached falsy
    value counts as a hit; so there is at most one item per key passed,
    and every item names one of the keys and holds a truthy value. *)
Theorem prefetch_returns_truthy_hits
        (options : cache_options) (ops : list (op * Z))
        (keys : list string) (priority : option string) (now : Z) :
  let c := run ops (new_cache options) in
  let p := match priority with Some p => p | None => "low" end in
  prefetch keys priority now c = (Normal (items_of_gets keys p now c), run (gets keys now) c)
  /\ (forall key,
        prefetch [key] priority now c
        = (Normal match fst (get key now c) with
                  | Normal v => if truthy v then [mk_prefetched key v p] else []
                  | Throw _ => []
                  end,
           snd (get key now c)))
  /\ (List.length (items_of_gets keys p now c) <= List.length keys)%nat
  /\ Forall (fun item => In (p_key item) keys
                         /\ truthy (p_value item) = true
                         /\ p_priority item = p) (items_of_gets keys p now c).
Proof.
intros c p.
assert (Hall : forall ks,
           prefetch ks priority now c
           = (Normal (items_of_gets ks p now c), run (gets ks now) c)
           /\ (List.length (items_of_gets ks p now c) <= List.length ks)%nat
           /\ Forall (fun item => In (p_key item) ks
                                  /\ truthy (p_value item) = true
                                  /\ p_priority item = p) (items_of_gets ks p now c)).
{ intros ks. unfold prefetch. fold p.
  destruct (prefetch_each_reached options p now ks ops [])
    as (entries & Hrun & Hlen & Hitems & _).
  pose proof (prefetch_each_items options p now ks ops []) as Hfst.
  cbv zeta in Hrun, Hfst. fold c in Hrun, Hfst. rewrite Hrun in Hfst. cbn [fst app] in Hfst.
  injection Hfst as ->. cbn [app] in Hrun. split; [exact Hrun|]. split; assumption. }
split; [apply (Hall keys)|]. split; [|apply (Hall keys)].
intros key. destruct (Hall [key]) as [-> _].
cbn [items_of_gets gets map run fold_left step fst snd]. now rewrite app_nil_r.
Qed.

(** X10.  On a cache reached from a new one by any sequence of calls,
    [prefetch] counts one request per key, duplicates included: [hits]
    plus [misses] grows by the number of keys. *)
Theorem prefetch_counts_one_request_per_key
        (options : cache_options) (ops : list (op * Z))
        (keys : list string) (priority : option string) (now : Z) :
  let c := run ops (new_cache options) in
  requests (snd (prefetch keys priority now c)) = requests c + Z.of_nat (List.length keys).
Proof.
intros c. unfold prefetch.
destruct (prefetch_each_reached options
            (match priority with Some p => p | None => "low" end) now keys ops [])
  as (entries & Hrun & _ & _ & Hcount).
cbv zeta in Hrun. fold c in Hrun, Hcount. rewrite Hrun. exact Hcount.
Qed.

End Prefetch.
(** ** What a [get] leaves behind *)

Section GetEffects.
Context {R : Runtime}.

Lemma with_own_maps c :
  with_diskCache (diskCache c) (with_memoryCache (memoryCache c) c) = c.
Proof. destruct c; reflexivity. Qed.

Lemma after_memory_miss_delete key c :
  memoryCache (after_memory_miss key c) = JsMap.delete (hashKey key) (memoryCache c).
Proof.
unfold after_memory_miss.
destruct (JsMap.get (hashKey key) (memoryCache c)) eqn:E; [reflexivity|].
symmetry. apply JsMapFacts.delete_absent. unfold JsMap.has. now rewrite E.
Qed.

Lemma get_absent c key now :
  JsMap.has (hashKey key) (memoryCache c) = false ->
  JsMap.has (hashKey key) (diskCache c) = false ->
  get key now c = (Normal JNull, miss c).
Proof.
intros Hm Hd.
pose proof (has_get_None _ _ Hm) as Em. pose proof (has_get_None _ _ Hd) as Ed.
rewrite get_miss.
- rewrite (JsMapFacts.delete_absent _ (diskCache c) Hd).
  unfold after_memory_miss. rewrite Em. destruct c; reflexivity.
- unfold memory_live. now rewrite Em.
- now rewrite Ed.
Qed.

(** X11.  A [get] that finds no live entry for the key (none at all, or
    only expired ones) returns [null] and counts one miss; it deletes the
    expired entries it met, so that afterwards neither tier holds the
    key, and it touches no other entry. *)
Theorem get_without_live_entry_is_a_miss (c : cache) (key : string) (now : Z) :
  (forall e, JsMap.get (hashKey key) (memoryCache c) = Some e -> isExpired now e = true) ->
  (forall e, JsMap.get (hashKey key) (diskCache c) = Some e -> isExpired now e = true) ->
  fst (get key now c) = Normal JNull
  /\ memoryCache (snd (get key now c)) = JsMap.delete (hashKey key) (memoryCache c)
  /\ diskCache (snd (get key now c)) = JsMap.delete (hashKey key) (diskCache c)
  /\ JsMap.has (hashKey key) (memoryCache (snd (get key now c))) = false
  /\ JsMap.has (hashKey key) (diskCache (snd (get key now c))) = false
  /\ misses (stats (snd (get key now c))) = misses (stats c) + 1
  /\ hits (stats (snd (get key now c))) = hits (stats c).
Proof.
intros Hm Hd.
assert (Hlive : memory_live key now c = false).
{ unfold memory_live.
  destruct (JsMap.get (hashKey key) (memoryCache c)) as [e|] eqn:E; [|reflexivity].
  now rewrite (Hm e eq_refl). }
rewrite get_miss; [|assumption|].
- cbn [fst snd miss with_stats with_diskCache memoryCache diskCache stats hits misses].
  rewrite after_memory_miss_delete, stats_after_memory_miss.
  split; [reflexivity|]. split; [reflexivity|]. split; [reflexivity|].
  split; [apply JsMapFacts.has_delete_same|]. split; [apply JsMapFacts.has_delete_same|].
  split; reflexivity.
- destruct (JsMap.get (hashKey key) (diskCache c)) as [e|] eqn:E; [|exact I].
  now apply Hd.
Qed.

Lemma keys_set_present {V} k (v x : V) (m : JsMap.t V) :
  JsMap.get k m = Some x -> JsMap.keys (JsMap.set k v m) = JsMap.keys m.
Proof.
unfold JsMap.keys. induction m as [|[k' v'] rest IH]; cbn; [discriminate|].
destruct (String.eqb_spec k k') as [->|Hne]; cbn; [reflexivity|].
intros H. f_equal. now apply IH.
Qed.

(** X12.  A [get] answered by a live memory-tier entry returns the stored
    [value] field and counts one hit.  It raises the entry's
    [accessCount] by one and sets its [lastAccess] to the clock value;
    the entry's [expiresAt], [timestamp] and [ttl] stay as [set] wrote
    them (a read does not extend the life of an entry), the order of the
    memory tier is unchanged, and the disk tier is not read. *)
Theorem get_memory_hit_updates_access_only
        (c : cache) (key : string) (now : Z) (e : Entry.t) :
  JsMap.get (hashKey key) (memoryCache c) = Some e ->
  isExpired now e = false ->
  fst (get key now c) = Normal (Entry.value e)
  /\ JsMap.get (hashKey key) (memoryCache (snd (get key now c)))
     = Some (Entry.mk (Entry.key e) (Entry.value e) (Entry.hash e) (Entry.timestamp e)
                      (Entry.ttl e) (Entry.expiresAt e) (Entry.accessCount e + 1) now
                      (Entry.compressed e) (Entry.metadata e))
  /\ JsMap.keys (memoryCache (snd (get key now c))) = JsMap.keys (memoryCache c)
  /\ (forall h, h <> hashKey key ->
                JsMap.get h (memoryCache (snd (get key now c))) = JsMap.get h (memoryCache c))
  /\ diskCache (snd (get key now c)) = diskCache c
  /\ hits (stats (snd (get key now c))) = hits (stats c) + 1
  /\ misses (stats (snd (get key now c))) = misses (stats c).
Proof.
intros Hget Hlive. rewrite (get_memory_hit _ _ _ _ Hget Hlive).
cbn [fst snd memoryCache diskCache with_memoryCache hit with_stats stats hits misses].
split; [reflexivity|]. split; [apply JsMapFacts.get_set_same|].
split; [now apply (keys_set_present _ _ e)|].
split; [|split; [reflexivity|split; reflexivity]].
intros h Hh. apply JsMapFacts.get_set_other. congruence.
Qed.

End GetEffects.

Lemma get_without_live_entry_is_a_miss_witness :
  let R := example_runtime in
  let c := snd (set "k" (JStr "v") (mk_set_options (Some 10) None) 0
                    (new_cache no_options)) in
  fst (get "k" 100 c) = Normal JNull
  /\ memoryCache (snd (get "k" 100 c)) = JsMap.delete (hashKey "k") (memoryCache c)
  /\ diskCache (snd (get "k" 100 c)) = JsMap.delete (hashKey "k") (diskCache c)
  /\ JsMap.has (hashKey "k") (memoryCache (snd (get "k" 100 c))) = false
  /\ JsMap.has (hashKey "k") (diskCache (snd (get "k" 100 c))) = false
  /\ misses (stats (snd (get "k" 100 c))) = misses (stats c) + 1
  /\ hits (stats (snd (get "k" 100 c))) = hits (stats c).
Proof.
intros R c.
assert (H1 : forall e, JsMap.get (hashKey "k") (memoryCache c) = Some e ->
                       isExpired 100 e = true).
{ intros e H. vm_compute in H. injection H as <-. vm_compute. reflexivity. }
assert (H2 : forall e, JsMap.get (hashKey "k") (diskCache c) = Some e ->
                       isExpired 100 e = true).
{ intros e H. vm_compute in H. discriminate H. }
exact (@get_without_live_entry_is_a_miss example_runtime c "k" 100 H1 H2).
Defined.

Lemma get_memory_hit_updates_access_only_witness :
  let R := example_runtime in
  let c := snd (set "k" (JStr "v") default_set_options 1000 (new_cache no_options)) in
  let e := set_entry (new_cache no_options) "k" (JStr "v") default_set_options 1000 in
  fst (get "k" 1001 c) = Normal (Entry.value e)
  /\ JsMap.get (hashKey "k") (memoryCache (snd (get "k" 1001 c)))
     = Some (Entry.mk (Entry.key e) (Entry.value e) (Entry.hash e) (Entry.timestamp e)
                      (Entry.ttl e) (Entry.expiresAt e) (Entry.accessCount e + 1) 1001
                      (Entry.compressed e) (Entry.metadata e))
  /\ JsMap.keys (memoryCache (snd (get "k" 1001 c))) = JsMap.keys (memoryCache c)
  /\ (forall h, h <> hashKey "k" ->
                JsMap.get h (memoryCache (snd (get "k" 1001 c)))
                = JsMap.get h (memoryCache c))
  /\ diskCache (snd (get "k" 1001 c)) = diskCache c
  /\ hits (stats (snd (get "k" 1001 c))) = hits (stats c) + 1
  /\ misses (stats (snd (get "k" 1001 c))) = misses (stats c).
Proof.
intros R c e.
assert (H1 : JsMap.get (hashKey "k") (memoryCache c) = Some e) by (vm_compute; reflexivity).
assert (H2 : isExpired 1001 e = false) by (vm_compute; reflexivity).
exact (@get_memory_hit_updates_access_only example_runtime c "k" 1001 e H1 H2).
Defined.

(** ** Invalidation and [clear] *)

Section Removal.
Context {R : Runtime}.

(** X13.  [invalidate(key)] with no pattern (or with the empty pattern,
    which is falsy) returns normally, removes the entry filed under the
    key's hash from both tiers and touches nothing else: the entries
    under other hashes and the counters are as before, and the next
    [get] of the key is a miss. *)
Theorem invalidate_key_removes_it (c : cache) (key : string) :
  let c' := snd (invalidate (Some key) (mk_invalidate_options None) c) in
  invalidate (Some key) (mk_invalidate_options None) c = (Normal tt, c')
  /\ invalidate (Some key) (mk_invalidate_options (Some "")) c = (Normal tt, c')
  /\ memoryCache c' = JsMap.delete (hashKey key) (memoryCache c)
  /\ diskCache c' = JsMap.delete (hashKey key) (diskCache c)
  /\ (forall h, h <> hashKey key ->
                JsMap.get h (memoryCache c') = JsMap.get h (memoryCache c)
                /\ JsMap.get h (diskCache c') = JsMap.get h (diskCache c))
  /\ stats c' = stats c
  /\ forall now, get key now c' = (Normal JNull, miss c').
Proof.
intros c'. subst c'. unfold invalidate, bind, lift, hashKey_arg, modify.
cbn [opt_pattern fst snd memoryCache diskCache with_memoryCache with_diskCache stats].
split; [reflexivity|]. split; [reflexivity|]. split; [reflexivity|]. split; [reflexivity|].
split; [|split; [reflexivity|]].
- intros h Hh. split; apply JsMapFacts.get_delete_other; congruence.
- intros now. apply get_absent; cbn [memoryCache diskCache with_memoryCache with_diskCache];
    apply JsMapFacts.has_delete_same.
Qed.

(** X14.  On a cache reached from a new one by any sequence of calls,
    [invalidate(key, {pattern})] with a non-empty pattern ignores [key]:
    it removes from both tiers exactly the entries whose original key the
    regular expression matches, keeps the others in order and leaves the
    counters alone.  When the pattern is not a valid regular expression
    the call throws and removes nothing. *)
Theorem invalidate_pattern_removes_matching_entries
        (options : cache_options) (ops : list (op * Z))
        (key : string) (a : ascii) (p : string) :
  let c := run ops (new_cache options) in
  let call := invalidate (Some key) (mk_invalidate_options (Some (String a p))) c in
  match RegExp_new (String a p) with
  | Normal re =>
      fst call = Normal tt
      /\ memoryCache (snd call)
         = filter (fun kv => negb (RegExp_test re (Entry.key (snd kv)))) (memoryCache c)
      /\ diskCache (snd call)
         = filter (fun kv => negb (RegExp_test re (Entry.key (snd kv)))) (diskCache c)
      /\ stats (snd call) = stats c
  | Throw err => call = (Throw err, c)
  end.
Proof.
intros c call. subst call.
destruct (tiers_ok_new options ops) as [[Hm _] [Hd _]]. fold c in Hm, Hd.
unfold invalidate, bind, lift, hashKey_arg. cbn [opt_pattern].
unfold invalidateByPattern, bind, lift, modify.
destruct (RegExp_new (String a p)) as [re|err]; [|reflexivity].
cbn [fst snd memoryCache diskCache with_memoryCache with_diskCache stats].
rewrite (delete_matching_filter re _ Hm), (delete_matching_filter re _ Hd).
repeat split.
Qed.

(** X15.  [clear()] returns normally and leaves a cache whose statistics
    are those of a new one (every counter, entry count and size 0, hit
    rate ["0.00"]), in which every [get] is a miss and every
    [semanticGet] finds nothing; the options of the constructor are
    kept. *)
Theorem clear_resets_entries_and_counters (c : cache) :
  let c' := snd (clear c) in
  clear c = (Normal tt, c')
  /\ getStats c' = mk_stats_report 0 0 "0.00" 0 0 0 0 0 0
  /\ settings c' = settings c
  /\ (forall key now, get key now c' = (Normal JNull, miss c'))
  /\ (forall query threshold now, semanticGet query threshold now c' = (Normal None, c')).
Proof.
intros c'. subst c'. unfold clear, modify. cbn [snd].
split; [reflexivity|]. split; [vm_compute; reflexivity|]. split; [reflexivity|].
split; [|reflexivity].
intros key now. apply get_absent; reflexivity.
Qed.

(** X16.  [semanticGet] changes nothing but [hits]: the two tiers are
    left as they were (a semantic match raises no [accessCount] and
    refreshes no [lastAccess], and an expired match is not deleted),
    [misses] is not counted when nothing is found, and [hits] grows by
    one exactly when a result is returned.  It never throws. *)
Theorem semanticGet_only_counts_hits
        (c : cache) (query : string) (threshold : option float) (now : Z) :
  let call := semanticGet query threshold now c in
  (exists result, fst call = Normal result)
  /\ memoryCache (snd call) = memoryCache c
  /\ diskCache (snd call) = diskCache c
  /\ misses (stats (snd call)) = misses (stats c)
  /\ compression (stats (snd call)) = compression (stats c)
  /\ evictions (stats (snd call)) = evictions (stats c)
  /\ hits (stats (snd call))
     = hits (stats c) + match fst call with Normal (Some _) => 1 | _ => 0 end.
Proof.
intros call. subst call. unfold semanticGet.
destruct (fold_left _ _ _) as [[b|] score]; [destruct (negb (isExpired now b))|];
  cbn; (split; [eexists; reflexivity|]); repeat split; lia.
Qed.

End Removal.
(** ** The similarity score as a function of token sets *)

Section Similarity.
Context {R : Runtime}.

Lemma same_elements_length (l l' : list string) :
  NoDup l -> NoDup l' -> (forall x, In x l <-> In x l') ->
  List.length l = List.length l'.
Proof.
intros Hl Hl' Hsame. apply Nat.le_antisymm; apply NoDup_incl_length; try assumption;
  intros x Hx; now apply Hsame.
Qed.

Lemma tokens_NoDup s : NoDup (tokens s).
Proof. apply new_Set_NoDup. Qed.

Lemma In_common (t1 t2 : list string) x :
  In x (filter (fun x => mem_string x t2) t1) <-> In x t1 /\ In x t2.
Proof. rewrite filter_In, mem_string_In. tauto. Qed.

Lemma In_union (t1 t2 : list string) x :
  In x (new_Set [] (t1 ++ t2)) <-> In x t1 \/ In x t2.
Proof. rewrite new_Set_In, in_app_iff. cbn. tauto. Qed.

Lemma similarity_of_token_sets (t1 t2 t1' t2' : list string) :
  NoDup t1 -> NoDup t1' ->
  (forall x, In x t1 <-> In x t1') -> (forall x, In x t2 <-> In x t2') ->
  List.length (filter (fun x => mem_string x t2) t1)
  = List.length (filter (fun x => mem_string x t2') t1')
  /\ List.length (new_Set [] (t1 ++ t2)) = List.length (new_Set [] (t1' ++ t2')).
Proof.
intros H1 H1' Ha Hb. split; apply same_elements_length;
  try (apply NoDup_filter; assumption); try apply new_Set_NoDup.
- intros x. rewrite !In_common, Ha, Hb. tauto.
- intros x. rewrite !In_union, Ha, Hb. tauto.
Qed.

(** X17.  [calculateSimilarity] is symmetric: the score of a query
    against a key is the score of the key against the query. *)
Theorem calculateSimilarity_is_symmetric (s1 s2 : string) :
  calculateSimilarity s1 s2 = calculateSimilarity s2 s1.
Proof.
unfold calculateSimilarity.
assert (Hcommon : List.length (filter (fun x => mem_string x (tokens s2)) (tokens s1))
                  = List.length (filter (fun x => mem_string x (tokens s1)) (tokens s2))).
{ apply same_elements_length; try (apply NoDup_filter; apply tokens_NoDup).
  intros x. rewrite !In_common. tauto. }
assert (Hunion : List.length (new_Set [] (tokens s1 ++ tokens s2))
                 = List.length (new_Set [] (tokens s2 ++ tokens s1))).
{ apply same_elements_length; try apply new_Set_NoDup.
  intros x. rewrite !In_union. tauto. }
now rewrite Hcommon, Hunion.
Qed.

(** X18.  [calculateSimilarity] depends on its arguments only through
    their sets of lower-cased, whitespace-separated tokens: strings with
    the same token sets (a different letter case, word order, repeated
    words or longer runs of blanks between words) score the same against
    any other string. *)
Theorem calculateSimilarity_depends_on_token_sets (s1 s1' s2 s2' : string) :
  (forall x, In x (tokens s1) <-> In x (tokens s1')) ->
  (forall x, In x (tokens s2) <-> In x (tokens s2')) ->
  calculateSimilarity s1 s2 = calculateSimilarity s1' s2'.
Proof.
intros Ha Hb. unfold calculateSimilarity.
destruct (similarity_of_token_sets (tokens s1) (tokens s2) (tokens s1') (tokens s2')
            (tokens_NoDup s1) (tokens_NoDup s1') Ha Hb) as [-> ->].
reflexivity.
Qed.

End Similarity.

Lemma calculateSimilarity_depends_on_token_sets_witness :
  calculateSimilarity "The  quick FOX" "quick brown fox"
  = calculateSimilarity "fox the quick the" "brown  Quick fox".
Proof.
assert (H1 : forall x, In x (tokens "The  quick FOX") <-> In x (tokens "fox the quick the"))
  by (intros x; vm_compute; tauto).
assert (H2 : forall x, In x (tokens "quick brown fox") <-> In x (tokens "brown  Quick fox"))
  by (intros x; vm_compute; tauto).
exact (calculateSimilarity_depends_on_token_sets
         "The  quick FOX" "fox the quick the" "quick brown fox" "brown  Quick fox" H1 H2).
Defined.
(** ** The shape of a hash *)

Lemma length_hex_of w : forall z, String.length (hex_of w z) = w.
Proof.
induction w as [|w IH]; intros z; cbn [hex_of]; [reflexivity|].
rewrite JsonRoundTrip.length_append, IH. cbn. lia.
Qed.

Lemma list_ascii_app (a b : string) :
  list_ascii_of_string (a ++ b) = list_ascii_of_string a ++ list_ascii_of_string b.
Proof. induction a as [|c a IH]; cbn; [reflexivity|now rewrite IH]. Qed.

Lemma hex_digit_is_hex z : is_hex_digit (hex_digit (Z.land z 15)) = true.
Proof.
assert (H : 0 <= Z.land z 15 < 16).
{ change 15 with (Z.ones 4). rewrite Z.land_ones by lia. apply Z.mod_pos_bound. lia. }
remember (Z.land z 15) as d eqn:Hd. clear Hd.
assert (Hd : d = 0 \/ d = 1 \/ d = 2 \/ d = 3 \/ d = 4 \/ d = 5 \/ d = 6 \/ d = 7
             \/ d = 8 \/ d = 9 \/ d = 10 \/ d = 11 \/ d = 12 \/ d = 13 \/ d = 14 \/ d = 15)
  by lia.
repeat (destruct Hd as [->|Hd]; [reflexivity|]). subst d. reflexivity.
Qed.

Lemma hex_of_is_hex w : forall z,
  Forall (fun c => is_hex_digit c = true) (list_ascii_of_string (hex_of w z)).
Proof.
induction w as [|w IH]; intros z; cbn [hex_of]; [constructor|].
rewrite list_ascii_app. apply Forall_app. split; [apply IH|].
cbn. constructor; [apply hex_digit_is_hex|constructor].
Qed.

Lemma length_compress_block h block :
  List.length h = 8%nat -> List.length (SHA256.compress_block h block) = 8%nat.
Proof.
intros Hh. unfold SHA256.compress_block.
rewrite length_map, length_combine, Hh.
destruct (fold_left _ _ _) as [[[[[[[a b] c] d] e] f] g] h']. reflexivity.
Qed.

Lemma length_blocks n : forall h bs,
  List.length h = 8%nat -> List.length (SHA256.blocks n h bs) = 8%nat.
Proof.
induction n as [|n IH]; intros h bs Hh; cbn [SHA256.blocks]; [assumption|].
apply IH. now apply length_compress_block.
Qed.

Lemma hexdigest_words (ws : list Z) :
  String.length (fold_right (fun w acc => (hex_of 8 w ++ acc)%string) "" ws)
  = (8 * List.length ws)%nat
  /\ Forall (fun c => is_hex_digit c = true)
            (list_ascii_of_string
               (fold_right (fun w acc => (hex_of 8 w ++ acc)%string) "" ws)).
Proof.
induction ws as [|w ws [IHlen IHhex]]; cbn [fold_right List.length].
- split; [reflexivity|constructor].
- split.
  + rewrite JsonRoundTrip.length_append, length_hex_of, IHlen. lia.
  + rewrite list_ascii_app. apply Forall_app. split; [apply hex_of_is_hex|assumption].
Qed.

(** X19.  [hashKey] maps every string, the empty one included, to 64
    lower-case hexadecimal digits. *)
Theorem hashKey_is_64_hex_digits (key : string) :
  String.length (hashKey key) = 64%nat
  /\ Forall (fun c => is_hex_digit c = true) (list_ascii_of_string (hashKey key)).
Proof.
unfold hashKey, SHA256.hexdigest, SHA256.digest.
destruct (hexdigest_words
            (SHA256.blocks (List.length (SHA256.pad (bytes_of key)) / 64) SHA256.H0
                           (SHA256.pad (bytes_of key)))) as [Hlen Hhex].
rewrite length_blocks in Hlen by reflexivity.
split; [exact Hlen|exact Hhex].
Qed.

(** ** Compression *)

Section Compression.
Context {R : Runtime}.

(** X20.  [decompress(compress(value), true)] is [value], for every JSON
    value; and [decompress(stored, false)] is [stored] itself. *)
Theorem decompress_inverts_compress (value : json) :
  decompress (compress value) true = Normal value
  /\ decompress value false = Normal value.
Proof.
split; [|reflexivity].
unfold decompress, compress. cbn [negb cbind].
rewrite inflate_deflate. apply JSON_parse_stringify.
Qed.

End Compression.
(** ** Where a result comes from *)

Section Provenance.
Context {R : Runtime}.

(** X21.  Whatever the cache holds, a [get] that returns a value other
    than [null] took it from an entry filed under the key's hash that
    had not expired at the time of the call: the [value] field of a
    memory-tier entry as it is stored, or the decompressed payload of a
    disk-tier entry when the memory tier had no live entry.  An expired
    entry is never served. *)
Theorem get_result_comes_from_live_entry
        (c : cache) (key : string) (now : Z) (v : json) :
  fst (get key now c) = Normal v ->
  v <> JNull ->
  exists e,
    isExpired now e = false
    /\ ((JsMap.get (hashKey key) (memoryCache c) = Some e /\ v = Entry.value e)
        \/ (memory_live key now c = false
            /\ JsMap.get (hashKey key) (diskCache c) = Some e
            /\ decompress (Entry.value e) (Entry.compressed e) = Normal v)).
Proof.
intros Hv Hnull.
destruct (get_cases key now c) as [e He Hl Hrun|e v' Hm He Hl Hd Hrun|e err ? ? ? ? Hrun|? ? Hrun];
  rewrite Hrun in Hv; cbn [fst] in Hv.
- injection Hv as <-. exists e. split; [assumption|]. left. now split.
- injection Hv as <-. exists e. split; [assumption|]. right. now repeat split.
- discriminate Hv.
- injection Hv as <-. contradiction.
Qed.

(** X22.  A result of [semanticGet] always describes an entry of the
    memory tier that had not expired at the time of the call: its
    [value] is the entry's stored [value] field, its [source] is
    ['memory'], and its [similarity] is the score of the query against
    the entry's key, which is above 0 and at least the threshold. *)
Theorem semanticGet_result_is_a_live_memory_entry
        (c : cache) (query : string) (threshold : option float) (now : Z)
        (result : semantic_result) :
  fst (semanticGet query threshold now c) = Normal (Some result) ->
  exists e,
    In e (JsMap.values (memoryCache c))
    /\ isExpired now e = false
    /\ result = mk_semantic_result (Entry.value e) (calculateSimilarity query (Entry.key e))
                                   "memory"
    /\ PrimFloat.ltb 0 (sr_similarity result) = true
    /\ PrimFloat.leb (match threshold with Some t => t | None => semanticThreshold c end)
                     (sr_similarity result) = true.
Proof.
unfold semanticGet.
pose proof (semantic_loop query
              (match threshold with Some t => t | None => semanticThreshold c end)
              (JsMap.values (memoryCache c))) as Hloop.
destruct (fold_left _ _ _) as [[b|] s]; [|discriminate].
destruct Hloop as [-> [Hq (l1 & l2 & Hl & _)]].
destruct (isExpired now b) eqn:Hexp; cbn [negb fst]; [discriminate|].
intros Hr. injection Hr as <-.
unfold qualifies in Hq. apply andb_true_iff in Hq. destruct Hq as [Hpos Hthr].
exists b. split; [rewrite Hl; apply in_elt|]. split; [assumption|].
split; [reflexivity|]. split; assumption.
Qed.

(** The same call with one clock value. *)
Lemma set_reads_one_clock key value options now c :
  set key value options now c = set_reads key value options now now now c.
Proof. reflexivity. Qed.

(** X23.  [set] never throws, whatever the cache holds: the eviction
    check always finds an entry to evict in the tier that was just
    written.  With one clock value for each read of [Date.now()], it
    returns the entry it built: [timestamp] and [lastAccess] are the
    first and third reads, [expiresAt] is the second read plus the TTL
    (that of the options, or the default when it is absent or 0),
    [accessCount] is 0, and the payload is compressed exactly when the
    value's size exceeds [compressionThreshold] and decodes back to the
    value.  The entry is stored under the key's hash in the memory tier
    exactly when the size is below [maxMemorySize], otherwise in the disk
    tier; that tier then loses the head of its sorted array when it is
    over its budget, and the other tier is untouched.  [hits] and
    [misses] are unchanged and one compression is counted exactly when
    the payload was compressed. *)
Theorem set_never_throws
        (c : cache) (key : string) (value : json) (options : set_options)
        (t_timestamp t_expires t_access : Z) :
  exists e c',
    set_reads key value options t_timestamp t_expires t_access c = (Normal e, c')
    /\ Entry.key e = key /\ Entry.hash e = hashKey key
    /\ Entry.timestamp e = t_timestamp /\ Entry.lastAccess e = t_access
    /\ Entry.accessCount e = 0
    /\ Entry.ttl e = or_default (opt_ttl options) (ttl c)
    /\ Entry.expiresAt e = t_expires + Entry.ttl e
    /\ Entry.compressed e = (getSize value >? compressionThreshold c)
    /\ decompress (Entry.value e) (Entry.compressed e) = Normal value
    /\ (if getSize value <? maxMemorySize c
        then diskCache c' = diskCache c
             /\ memoryCache c'
                = (if total_size (JsMap.set (hashKey key) e (memoryCache c))
                      >? maxMemorySize c
                   then evict Entry.lastAccess (JsMap.set (hashKey key) e (memoryCache c))
                   else JsMap.set (hashKey key) e (memoryCache c))
        else memoryCache c' = memoryCache c
             /\ diskCache c'
                = (if total_size (JsMap.set (hashKey key) e (diskCache c)) >? maxDiskSize c
                   then evict Entry.timestamp (JsMap.set (hashKey key) e (diskCache c))
                   else JsMap.set (hashKey key) e (diskCache c)))
    /\ hits (stats c') = hits (stats c)
    /\ misses (stats c') = misses (stats c)
    /\ compression (stats c')
       = compression (stats c) + (if getSize value >? compressionThreshold c then 1 else 0).
Proof.
set (e := Entry.mk key
            (if getSize value >? compressionThreshold c then compress value else value)
            (hashKey key) t_timestamp (or_default (opt_ttl options) (ttl c))
            (t_expires + or_default (opt_ttl options) (ttl c)) 0 t_access
            (getSize value >? compressionThreshold c)
            (match opt_metadata options with
             | Some m => if truthy m then m else JObj []
             | None => JObj []
             end)).
set (c1 := if getSize value >? compressionThreshold c then compressed_one c else c).
assert (Hc1 : maxMemorySize c1 = maxMemorySize c /\ maxDiskSize c1 = maxDiskSize c
              /\ memoryCache c1 = memoryCache c /\ diskCache c1 = diskCache c
              /\ hits (stats c1) = hits (stats c) /\ misses (stats c1) = misses (stats c)
              /\ compression (stats c1)
                 = compression (stats c)
                   + (if getSize value >? compressionThreshold c then 1 else 0)).
{ unfold c1. destruct (getSize value >? compressionThreshold c); cbn; repeat split; lia. }
destruct Hc1 as (Hmax & Hdmax & Hmem & Hdisk & Hhits & Hmisses & Hcompr).
assert (Hdec : decompress (Entry.value e) (Entry.compressed e) = Normal value).
{ unfold e, decompress, compress. cbn [Entry.value Entry.compressed].
  destruct (getSize value >? compressionThreshold c); cbn [negb]; [|reflexivity].
  rewrite inflate_deflate. apply JSON_parse_stringify. }
destruct (getSize value <? maxMemorySize c) eqn:Hsmall.
- exists e, (after_memory_check (with_memoryCache (JsMap.set (hashKey key) e (memoryCache c1)) c1)).
  split.
  { unfold set_reads, bind, modify, ret. fold e c1. rewrite Hmax, Hsmall.
    rewrite checkMemoryEviction_run; [reflexivity|].
    cbn [memoryCache with_memoryCache]. apply JsMapFacts.set_not_empty. }
  do 8 (split; [reflexivity|]). split; [exact Hdec|].
  unfold after_memory_check. cbn [memoryCache with_memoryCache maxMemorySize].
  rewrite Hmem, Hmax.
  destruct (total_size (JsMap.set (hashKey key) e (memoryCache c)) >? maxMemorySize c);
    cbn [memoryCache diskCache with_memoryCache evicted_one with_stats stats
         hits misses compression];
    rewrite ?Hdisk; (split; [split; reflexivity|]); (split; [assumption|]);
    split; assumption.
- exists e, (after_disk_check (with_diskCache (JsMap.set (hashKey key) e (diskCache c1)) c1)).
  split.
  { unfold set_reads, bind, modify, ret. fold e c1. rewrite Hmax, Hsmall.
    rewrite checkDiskEviction_run; [reflexivity|].
    cbn [diskCache with_diskCache]. apply JsMapFacts.set_not_empty. }
  do 8 (split; [reflexivity|]). split; [exact Hdec|].
  unfold after_disk_check. cbn [diskCache with_diskCache maxDiskSize].
  rewrite Hdisk, Hdmax.
  destruct (total_size (JsMap.set (hashKey key) e (diskCache c)) >? maxDiskSize c);
    cbn [memoryCache diskCache with_diskCache evicted_one with_stats stats
         hits misses compression];
    rewrite ?Hmem; (split; [split; reflexivity|]); (split; [assumption|]);
    split; assumption.
Qed.

End Provenance.

Lemma get_result_comes_from_live_entry_witness :
  let R := example_runtime in
  let c := snd (set "k" (JStr "v") default_set_options 1000 (new_cache no_options)) in
  exists e,
    isExpired 1001 e = false
    /\ ((JsMap.get (hashKey "k") (memoryCache c) = Some e /\ JStr "v" = Entry.value e)
        \/ (memory_live "k" 1001 c = false
            /\ JsMap.get (hashKey "k") (diskCache c) = Some e
            /\ decompress (Entry.value e) (Entry.compressed e) = Normal (JStr "v"))).
Proof.
intros R c.
assert (H1 : fst (get "k" 1001 c) = Normal (JStr "v")) by (vm_compute; reflexivity).
assert (H2 : JStr "v" <> JNull) by (intros H; discriminate H).
exact (@get_result_comes_from_live_entry example_runtime c "k" 1001 (JStr "v") H1 H2).
Defined.

Lemma semanticGet_result_is_a_live_memory_entry_witness :
  let R := example_runtime in
  let c := snd (set "hello world" (JStr "greeting") default_set_options 1000
                    (new_cache no_options)) in
  let result := mk_semantic_result (JStr "greeting") 1%float "memory" in
  exists e,
    In e (JsMap.values (memoryCache c))
    /\ isExpired 1001 e = false
    /\ result = mk_semantic_result (Entry.value e)
                                   (calculateSimilarity "hello world" (Entry.key e)) "memory"
    /\ PrimFloat.ltb 0 (sr_similarity result) = true
    /\ PrimFloat.leb (match Some default_semanticThreshold with
                      | Some t => t
                      | None => semanticThreshold c
                      end) (sr_similarity result) = true.
Proof.
intros R c result.
assert (H : fst (semanticGet "hello world" (Some default_semanticThreshold) 1001 c)
            = Normal (Some result))
  by (vm_compute; reflexivity).
exact (semanticGet_result_is_a_live_memory_entry c "hello world"
         (Some default_semanticThreshold) 1001 result H).
Defined.
(** ** When the disk tier is used *)

Section DiskUse.
Context {R : Runtime}.

Lemma delete_matching_nil re : delete_matching re [] = [].
Proof. reflexivity. Qed.

Lemma disk_empty_step o now c :
  match o with
  | OpSet _ value _ => getSize value < maxMemorySize c
  | _ => True
  end ->
  diskCache c = [] -> diskCache (step o now c) = [].
Proof.
intros Ho Hd. destruct o as [k v opts|k|q thr|k opts|]; cbn [step].
- rewrite set_run. cbn [snd]. now rewrite diskCache_set_state_small.
- destruct (get_cases k now c) as [e ? ? Hrun|e v ? He ? ? Hrun|e err ? He ? ? Hrun|? ? Hrun];
    try (rewrite Hd in He; discriminate He); rewrite Hrun; cbn [snd].
  + exact Hd.
  + cbn [miss with_stats with_diskCache diskCache]. rewrite Hd. reflexivity.
- rewrite semanticGet_state. destruct (fst _) as [[r|]|]; exact Hd.
- unfold invalidate, bind, lift, hashKey_arg.
  destruct k as [k|]; [|exact Hd].
  destruct (opt_pattern opts) as [[|a p]|];
    try (cbn; rewrite Hd; reflexivity).
  unfold invalidateByPattern, bind, lift, modify.
  destruct (RegExp_new (String a p)) as [re|err]; [|exact Hd].
  cbn. rewrite Hd. reflexivity.
- reflexivity.
Qed.

(** X24.  The disk tier is used only for values whose size reaches
    [maxMemorySize]: starting from a new cache, as long as every value
    passed to [set] is smaller than that, the disk tier stays empty
    whatever else is called, and [getStats] reports no disk entry. *)
Theorem small_values_never_reach_disk (options : cache_options) (ops : list (op * Z)) :
  sets_below (maxMemorySize (new_cache options)) ops = true ->
  diskCache (run ops (new_cache options)) = []
  /\ diskEntries (getStats (run ops (new_cache options))) = 0
  /\ diskSize (getStats (run ops (new_cache options))) = 0.
Proof.
intros Hops.
assert (H : diskCache (run ops (new_cache options)) = []).
{ assert (Hgen : forall c, maxMemorySize c = maxMemorySize (new_cache options) ->
                           diskCache c = [] -> diskCache (run ops c) = []).
  { unfold run. induction ops as [|o ops IH]; intros c Hmax Hd; simpl; [assumption|].
    unfold sets_below in Hops. simpl in Hops. apply andb_true_iff in Hops.
    destruct Hops as [Ho Hops].
    apply IH; [exact Hops| |].
    - pose proof (settings_step (fst o) (snd o) c) as Hs.
      apply settings_config in Hs. unfold config in Hs. congruence.
    - apply disk_empty_step; [|assumption].
      destruct (fst o) as [k v opts|k|q thr|k opts|]; try exact I.
      rewrite Hmax. now apply Z.ltb_lt. }
  apply Hgen; reflexivity. }
split; [exact H|]. unfold getStats, getDiskSizeUsage. cbn [diskEntries diskSize].
rewrite H. split; reflexivity.
Qed.

End DiskUse.

Lemma small_values_never_reach_disk_witness :
  let R := example_runtime in
  diskCache (run [(OpSet "k" (JStr "v") default_set_options, 1); (OpGet "k", 2);
                  (OpGet "absent", 3)]
                 (new_cache no_options)) = []
  /\ diskEntries (getStats (run [(OpSet "k" (JStr "v") default_set_options, 1);
                                 (OpGet "k", 2); (OpGet "absent", 3)]
                                (new_cache no_options))) = 0
  /\ diskSize (getStats (run [(OpSet "k" (JStr "v") default_set_options, 1);
                              (OpGet "k", 2); (OpGet "absent", 3)]
                             (new_cache no_options))) = 0.
Proof.
intros R.
assert (H : sets_below (maxMemorySize (new_cache no_options))
                       [(OpSet "k" (JStr "v") default_set_options, 1); (OpGet "k", 2);
                        (OpGet "absent", 3)] = true)
  by (vm_compute; reflexivity).
exact (@small_values_never_reach_disk example_runtime no_options
         [(OpSet "k" (JStr "v") default_set_options, 1); (OpGet "k", 2); (OpGet "absent", 3)]
         H).
Defined.

(** ** Invalidations compose *)

Section Compose.
Context {R : Runtime}.

Lemma delete_delete {V} k k' (m : JsMap.t V) :
  JsMap.delete k (JsMap.delete k' m) = JsMap.delete k' (JsMap.delete k m).
Proof.
unfold JsMap.delete. induction m as [|[k0 v0] rest IH]; cbn; [reflexivity|].
destruct (String.eqb k' k0) eqn:E1, (String.eqb k k0) eqn:E2; cbn;
  rewrite ?E1, ?E2; cbn; now rewrite IH.
Qed.

Lemma delete_twice {V} k (m : JsMap.t V) :
  JsMap.delete k (JsMap.delete k m) = JsMap.delete k m.
Proof.
apply JsMapFacts.delete_absent, JsMapFacts.has_delete_same.
Qed.

(** X25.  Single-key invalidations compose as deletions do: invalidating
    a key twice is invalidating it once, and invalidating two keys gives
    the same cache in either order. *)
Theorem invalidate_is_idempotent_and_commutes (c : cache) (key key' : string) :
  let inv k c := snd (invalidate (Some k) (mk_invalidate_options None) c) in
  inv key (inv key c) = inv key c
  /\ inv key (inv key' c) = inv key' (inv key c).
Proof.
intros inv. subst inv. unfold invalidate, bind, lift, hashKey_arg, modify.
cbn [opt_pattern fst snd memoryCache diskCache with_memoryCache with_diskCache].
unfold with_diskCache, with_memoryCache. cbn [memoryCache diskCache storageDir maxMemorySize
  maxDiskSize compressionThreshold ttl semanticThreshold stats].
split.
- now rewrite !delete_twice.
- now rewrite (delete_delete (hashKey key) (hashKey key') (memoryCache c)),
              (delete_delete (hashKey key) (hashKey key') (diskCache c)).
Qed.

End Compose.

(** ** A score of exactly 1 *)

Module UnitScore.

Lemma digits2_iter_xO k : forall p,
  Z.pos (digits2_pos (Pos.iter xO p k)) = Z.pos (digits2_pos p) + Z.pos k.
Proof.
induction k as [|k IH] using Pos.peano_ind; intros p.
- cbn [Pos.iter digits2_pos]. lia.
- rewrite Pos.iter_succ. cbn [digits2_pos]. rewrite Pos2Z.inj_succ, IH. lia.
Qed.

Lemma digits2_bound p : forall k,
  0 <= k -> Z.pos p < 2 ^ k -> Z.pos (digits2_pos p) <= k.
Proof.
induction p as [p IH|p IH|]; intros k Hk Hp.
- assert (k <> 0) by (intros ->; cbn in Hp; lia).
  replace k with (Z.succ (k - 1)) in Hp by lia. rewrite Z.pow_succ_r in Hp by lia.
  cbn [digits2_pos]. rewrite Pos2Z.inj_succ.
  specialize (IH (k - 1)). lia.
- assert (k <> 0) by (intros ->; cbn in Hp; lia).
  replace k with (Z.succ (k - 1)) in Hp by lia. rewrite Z.pow_succ_r in Hp by lia.
  cbn [digits2_pos]. rewrite Pos2Z.inj_succ.
  specialize (IH (k - 1)). lia.
- assert (k <> 0) by (intros ->; cbn in Hp; lia). cbn. lia.
Qed.

(** Rounding a 53-bit mantissa changes nothing. *)
Lemma round_53_bits (m : positive) (e : Z) :
  Z.pos (digits2_pos m) = 53 -> -1074 <= e <= 971 ->
  binary_round_aux prec emax false (Z.pos m) e loc_Exact = S754_finite false m e.
Proof.
intros Hd He.
assert (Hshr : shr_fexp prec emax (Z.pos m) e loc_Exact
               = ({| shr_m := Z.pos m; shr_r := false; shr_s := false |}, e)).
{ unfold shr_fexp, Zdigits2, fexp, SpecFloat.emin, prec, emax. rewrite Hd.
  replace (Z.max (53 + e - 53) (3 - 1024 - 53) - e) with 0 by lia. reflexivity. }
unfold binary_round_aux. rewrite Hshr.
cbn [shr_m loc_of_shr_record shr_r shr_s round_nearest_even]. rewrite Hshr.
cbn [shr_m]. unfold prec, emax.
replace (e <=? 1024 - 53) with true by (symmetry; apply Z.leb_le; lia). reflexivity.
Qed.

(** A positive integer below 2^53 converts to a finite double. *)
Lemma float_of_small n :
  0 < n < 2 ^ 53 ->
  exists m e, Prim2SF (float_of_Z n) = S754_finite false m e.
Proof.
intros Hn. unfold float_of_Z.
rewrite of_uint63_spec, Uint63.of_Z_spec, Z.mod_small
  by (split; [lia|]; apply Z.lt_trans with (2 ^ 53); [lia|reflexivity]).
destruct n as [|p|p]; try lia. unfold binary_normalize, binary_round.
pose proof (digits2_bound p 53 ltac:(lia) ltac:(lia)) as Hd.
assert (Hpos : 0 < Z.pos (digits2_pos p)) by lia.
unfold fexp, SpecFloat.emin, prec, emax.
replace (Z.max (Z.pos (digits2_pos p) + 0 - 53) (3 - 1024 - 53))
  with (Z.pos (digits2_pos p) - 53) by lia.
unfold shl_align.
destruct (Z.pos (digits2_pos p) - 53 - 0) as [|k|k] eqn:Hk; try lia.
- eexists _, _. apply round_53_bits; lia.
- eexists _, _. apply round_53_bits; [|lia].
  rewrite digits2_iter_xO. lia.
Qed.

Lemma div_eucl_multiple (m : positive) (k : Z) :
  Z.div_eucl (Z.pos m * k) (Z.pos m) = (k, 0).
Proof.
pose proof (Z.div_mul k (Z.pos m) ltac:(lia)) as Hq.
pose proof (Z.mod_mul k (Z.pos m) ltac:(lia)) as Hr.
rewrite (Z.mul_comm k) in Hq, Hr. unfold Z.div, Z.modulo in Hq, Hr.
destruct (Z.div_eucl (Z.pos m * k) (Z.pos m)) as [q r]. congruence.
Qed.

(** A finite double divided by itself is 1. *)
Lemma SF64div_self s m e :
  SF64div (S754_finite s m e) (S754_finite s m e) = Prim2SF 1.
Proof.
unfold SF64div, SFdiv, SFdiv_core_binary. cbv zeta.
rewrite !Z.sub_diag.
change (Z.min (fexp prec emax 0) 0) with (-53).
change (0 - -53) with 53.
rewrite Z.shiftl_mul_pow2 by lia. rewrite div_eucl_multiple.
assert (Hloc : new_location (Z.pos m) 0 = loc_Exact).
{ unfold new_location, new_location_even, new_location_odd.
  destruct (Z.even (Z.pos m)); reflexivity. }
rewrite Hloc, xorb_nilpotent. vm_compute. reflexivity.
Qed.

Lemma div_self n : 0 < n < 2 ^ 53 -> (float_of_Z n / float_of_Z n)%float = 1%float.
Proof.
intros Hn. apply Prim2SF_inj. rewrite FloatAxioms.div_spec.
destruct (float_of_small n Hn) as (m & e & ->). apply SF64div_self.
Qed.

End UnitScore.
Section ExactMatch.
Context {R : Runtime}.

Lemma length_toLowerCase s : String.length (toLowerCase s) = String.length s.
Proof. induction s as [|c s IH]; cbn; [reflexivity|now rewrite IH]. Qed.

Lemma length_split_spaces s : forall in_gap,
  (List.length (split_spaces in_gap s) <= S (String.length s))%nat.
Proof.
induction s as [|c s IH]; intros in_gap; cbn [split_spaces String.length List.length].
- lia.
- destruct (is_space c).
  + destruct in_gap; [specialize (IH true); lia|].
    cbn [List.length]. specialize (IH true). lia.
  + specialize (IH false). destruct (split_spaces false s) as [|tok rest]; cbn in *; lia.
Qed.

Lemma length_new_Set l : forall seen,
  (List.length (new_Set seen l) <= List.length l)%nat.
Proof.
induction l as [|x l IH]; intros seen; cbn [new_Set List.length]; [lia|].
destruct (mem_string x seen); [specialize (IH seen)|specialize (IH (x :: seen))];
  cbn [List.length]; lia.
Qed.

Lemma tokens_count s :
  (0 < List.length (tokens s) <= S (String.length s))%nat.
Proof.
split.
- pose proof (tokens_not_nil s). destruct (tokens s); [congruence|cbn; lia].
- unfold tokens. pose proof (length_new_Set (split_spaces false (toLowerCase s)) []).
  pose proof (length_split_spaces (toLowerCase s) false).
  rewrite length_toLowerCase in *. lia.
Qed.

Lemma filter_all {A} (f : A -> bool) (l : list A) :
  (forall x, In x l -> f x = true) -> filter f l = l.
Proof.
induction l as [|x l IH]; intros H; cbn; [reflexivity|].
rewrite (H x (or_introl eq_refl)), IH; [reflexivity|].
intros y Hy. apply H. now right.
Qed.

Lemma similarity_one s1 s2 :
  (forall x, In x (tokens s1) <-> In x (tokens s2)) ->
  Z.of_nat (String.length s1) < 2 ^ 53 - 1 ->
  calculateSimilarity s1 s2 = 1%float.
Proof.
intros Hsame Hlen. unfold calculateSimilarity.
rewrite filter_all by (intros x Hx; apply mem_string_In; now apply Hsame).
assert (Hunion : List.length (new_Set [] (tokens s1 ++ tokens s2))
                 = List.length (tokens s1)).
{ apply same_elements_length; [apply new_Set_NoDup|apply tokens_NoDup|].
  intros x. rewrite In_union, <- Hsame. tauto. }
rewrite Hunion. apply UnitScore.div_self.
pose proof (tokens_count s1). lia.
Qed.

Lemma lex_refl a : FloatKey.lex a a = Eq.
Proof.
destruct a as [[a1 a2] a3]. unfold FloatKey.lex. now rewrite !Z.compare_refl.
Qed.

Lemma ltb_asym x y : PrimFloat.ltb x y = true -> PrimFloat.ltb y x = false.
Proof.
intros Hxy. destruct (PrimFloat.ltb y x) eqn:Hyx; [|reflexivity].
pose proof (FloatOrder.ltb_trans _ _ _ Hxy Hyx) as Hxx.
apply FloatOrder.ltb_true in Hxx. destruct Hxx as (_ & _ & Hlex).
rewrite lex_refl in Hlex. discriminate Hlex.
Qed.

(** X26.  Two strings with the same set of lower-cased tokens, a string
    and itself in particular, have similarity exactly 1 (for strings of
    fewer than 2^53 - 1 characters, whose token counts a double holds
    exactly). *)
Theorem calculateSimilarity_of_equal_token_sets_is_one (s1 s2 : string) :
  (forall x, In x (tokens s1) <-> In x (tokens s2)) ->
  Z.of_nat (String.length s1) < 2 ^ 53 - 1 ->
  calculateSimilarity s1 s2 = 1%float
  /\ calculateSimilarity s1 s1 = 1%float.
Proof.
intros Hsame Hlen. split; [now apply similarity_one|].
apply similarity_one; [tauto|assumption].
Qed.

(** X27.  When the memory tier holds an entry whose key is the query
    itself and no entry of the memory tier has expired, [semanticGet]
    with a threshold of at most 1 returns a result and counts a hit: the
    stored value of an entry of the memory tier whose similarity to the
    query is not below 1. *)
Theorem semanticGet_finds_an_exact_key
        (c : cache) (query : string) (threshold : option float) (now : Z) (e : Entry.t) :
  In e (JsMap.values (memoryCache c)) ->
  Entry.key e = query ->
  (forall x, In x (JsMap.values (memoryCache c)) -> isExpired now x = false) ->
  PrimFloat.leb (match threshold with Some t => t | None => semanticThreshold c end) 1 = true ->
  Z.of_nat (String.length query) < 2 ^ 53 - 1 ->
  exists b,
    In b (JsMap.values (memoryCache c))
    /\ semanticGet query threshold now c
       = (Normal (Some (mk_semantic_result (Entry.value b)
                                           (calculateSimilarity query (Entry.key b))
                                           "memory")),
          hit c)
    /\ PrimFloat.ltb (calculateSimilarity query (Entry.key b)) 1 = false.
Proof.
intros He Hkey Hlive Hthr Hlen.
set (thr := match threshold with Some t => t | None => semanticThreshold c end) in *.
assert (Hone : score query e = 1%float).
{ unfold score. rewrite Hkey. apply similarity_one; [tauto|assumption]. }
assert (Hq : qualifies query thr e = true).
{ unfold qualifies. rewrite Hone, Hthr. reflexivity. }
pose proof (semantic_loop query thr (JsMap.values (memoryCache c))) as Hloop.
unfold semanticGet. fold thr.
destruct (fold_left _ _ _) as [[b|] s].
- destruct Hloop as [-> [Hqb (l1 & l2 & Hl & Hbefore & Hafter)]].
  assert (Hb : In b (JsMap.values (memoryCache c))) by (rewrite Hl; apply in_elt).
  rewrite (Hlive b Hb). cbn [negb].
  exists b. split; [assumption|]. split; [reflexivity|].
  fold (score query b).
  rewrite Hl in He. apply in_app_or in He. destruct He as [He|[He|He]].
  + apply ltb_asym. rewrite <- Hone. now apply Hbefore.
  + subst b. rewrite Hone. reflexivity.
  + rewrite <- Hone. now apply Hafter.
- destruct Hloop as [_ Hnone]. rewrite (Hnone e He) in Hq. discriminate Hq.
Qed.

End ExactMatch.

Lemma calculateSimilarity_of_equal_token_sets_is_one_witness :
  calculateSimilarity "Hello  World" "world hello" = 1%float
  /\ calculateSimilarity "Hello  World" "Hello  World" = 1%float.
Proof.
assert (H1 : forall x, In x (tokens "Hello  World") <-> In x (tokens "world hello"))
  by (intros x; vm_compute; tauto).
assert (H2 : Z.of_nat (String.length "Hello  World") < 2 ^ 53 - 1)
  by (vm_compute; reflexivity).
exact (calculateSimilarity_of_equal_token_sets_is_one "Hello  World" "world hello" H1 H2).
Defined.

Lemma semanticGet_finds_an_exact_key_witness :
  let R := example_runtime in
  let c := snd (set "hello world" (JStr "greeting") default_set_options 1000
                    (new_cache no_options)) in
  exists b,
    In b (JsMap.values (memoryCache c))
    /\ semanticGet "hello world" (Some default_semanticThreshold) 1000 c
       = (Normal (Some (mk_semantic_result (Entry.value b)
                                           (calculateSimilarity "hello world" (Entry.key b))
                                           "memory")),
          hit c)
    /\ PrimFloat.ltb (calculateSimilarity "hello world" (Entry.key b)) 1 = false.
Proof.
intros R c.
assert (H1 : In (set_entry (new_cache no_options) "hello world" (JStr "greeting")
                           default_set_options 1000)
                (JsMap.values (memoryCache c)))
  by (vm_compute; left; reflexivity).
assert (H2 : Entry.key (set_entry (new_cache no_options) "hello world" (JStr "greeting")
                                  default_set_options 1000) = "hello world")
  by reflexivity.
assert (H3 : forall x, In x (JsMap.values (memoryCache c)) -> isExpired 1000 x = false).
{ intros x Hx. vm_compute in Hx. destruct Hx as [<-|[]]. vm_compute. reflexivity. }
assert (H4 : PrimFloat.leb (match Some default_semanticThreshold with
                            | Some t => t
                            | None => semanticThreshold c
                            end) 1 = true)
  by (vm_compute; reflexivity).
assert (H5 : Z.of_nat (String.length "hello world") < 2 ^ 53 - 1)
  by (vm_compute; reflexivity).
exact (semanticGet_finds_an_exact_key c "hello world" (Some default_semanticThreshold) 1000
         _ H1 H2 H3 H4 H5).
Defined.

(** ** The hit rate at its ends *)

Section HitRateEnds.
Context {R : Runtime}.

Lemma zero_div n : 0 < n < 2 ^ 53 -> (float_of_Z 0 / float_of_Z n)%float = 0%float.
Proof.
intros Hn. apply Prim2SF_inj. rewrite FloatAxioms.div_spec.
destruct (UnitScore.float_of_small n Hn) as (m & e & ->). reflexivity.
Qed.

(** X28.  [getStats] reports the hit rate ["100.00"] when every request
    was a hit and ["0.00"] when every request was a miss (counters below
    2^53, which a double holds exactly). *)
Theorem getStats_hitRate_at_its_ends (c : cache) :
  0 <= hits (stats c) < 2 ^ 53 ->
  0 <= misses (stats c) < 2 ^ 53 ->
  (misses (stats c) = 0 -> 0 < hits (stats c) -> hitRate (getStats c) = "100.00")
  /\ (hits (stats c) = 0 -> 0 < misses (stats c) -> hitRate (getStats c) = "0.00").
Proof.
intros Hh Hm. unfold getStats. cbn [hitRate]. split.
- intros -> Hpos. rewrite Z.add_0_r.
  replace (hits (stats c) >? 0) with true by (symmetry; apply Z.gtb_lt; lia).
  rewrite UnitScore.div_self by lia. vm_compute. reflexivity.
- intros -> Hpos. rewrite Z.add_0_l.
  replace (misses (stats c) >? 0) with true by (symmetry; apply Z.gtb_lt; lia).
  rewrite zero_div by lia. vm_compute. reflexivity.
Qed.

End HitRateEnds.

Lemma getStats_hitRate_at_its_ends_witness :
  let R := example_runtime in
  let c := snd (get "k" 1002 (snd (get "k" 1001
             (snd (set "k" (JStr "v") default_set_options 1000 (new_cache no_options)))))) in
  hits (stats c) = 2 /\ misses (stats c) = 0 /\ hitRate (getStats c) = "100.00".
Proof.
intros R c.
assert (H1 : 0 <= hits (stats c) < 2 ^ 53)
  by (vm_compute; split; [intros H; discriminate H|reflexivity]).
assert (H2 : 0 <= misses (stats c) < 2 ^ 53)
  by (vm_compute; split; [intros H; discriminate H|reflexivity]).
assert (H3 : misses (stats c) = 0) by (vm_compute; reflexivity).
assert (H4 : 0 < hits (stats c)) by (vm_compute; reflexivity).
assert (H5 : hits (stats c) = 2) by (vm_compute; reflexivity).
destruct (getStats_hitRate_at_its_ends c H1 H2) as [Hall _].
exact (conj H5 (conj H3 (Hall H3 H4))).
Defined.

(* ================================================================== *)
(** * Where the code departs from its budgets and from one tier per hash *)

Section OverBudget.
Context {R : Runtime}.

Lemma evict_head_total f (m : JsMap.t Entry.t) victim :
  tier_ok m ->
  hd_error (sort_by f (JsMap.values m)) = Some victim ->
  total_size (evict f m) = total_size m - getSize (Entry.value victim).
Proof.
intros Hok Hhd. rewrite hd_sort_by in Hhd. unfold evict. rewrite Hhd.
apply total_size_delete; [apply Hok|].
apply tier_ok_get; [assumption|]. exact (first_least_In _ _ _ Hhd).
Qed.

Lemma evictions_disk_overflows c key value options now :
  maxMemorySize c <= getSize value ->
  maxDiskSize c
  < total_size (JsMap.set (hashKey key) (set_entry c key value options now) (diskCache c)) ->
  evictions (stats (set_state c key value options now)) = evictions (stats c) + 1.
Proof.
intros Hbig Hover. unfold set_state. pose proof Hbig as H. apply Z.ltb_ge in H.
rewrite H. unfold after_disk_check.
destruct (config_set_stored c key value options now) as (_ & -> & _).
rewrite diskCache_set_stored_big by assumption.
apply Z.gtb_lt in Hover. rewrite Hover.
cbn [stats evicted_one with_diskCache with_stats evictions].
now rewrite evictions_set_stored.
Qed.

(** C2 (the code departs from the claim).  The eviction checks compare a
    tier's total with its budget and evict, but they test once and delete
    [sorted[0]] only.  On a cache reached from a new one by any sequence
    of calls, when the entry at the head of the sorted array is smaller
    than the excess, the [set] ends with the tier above its budget: the
    total is the total after insertion less that one entry, and one
    eviction is counted.  This holds for the memory tier (budget
    [maxMemorySize], order [lastAccess]) and for the disk tier (budget
    [maxDiskSize], order [timestamp]). *)
Theorem set_leaves_tier_over_budget
        (config_options : cache_options) (ops : list (op * Z))
        (key : string) (value : json) (options : set_options) (now : Z) :
  let c := run ops (new_cache config_options) in
  let e := set_entry c key value options now in
  let c' := snd (set key value options now c) in
  (getSize value < maxMemorySize c ->
   forall victim,
     hd_error (sort_by Entry.lastAccess
                       (JsMap.values (JsMap.set (hashKey key) e (memoryCache c))))
     = Some victim ->
     maxMemorySize c
     < total_size (JsMap.set (hashKey key) e (memoryCache c)) - getSize (Entry.value victim) ->
     maxMemorySize c' < getMemorySizeUsage c'
     /\ getMemorySizeUsage c'
        = total_size (JsMap.set (hashKey key) e (memoryCache c))
          - getSize (Entry.value victim)
     /\ evictions (stats c') = evictions (stats c) + 1)
  /\ (maxMemorySize c <= getSize value ->
      forall victim,
        hd_error (sort_by Entry.timestamp
                          (JsMap.values (JsMap.set (hashKey key) e (diskCache c))))
        = Some victim ->
        maxDiskSize c
        < total_size (JsMap.set (hashKey key) e (diskCache c)) - getSize (Entry.value victim) ->
        maxDiskSize c' < getDiskSizeUsage c'
        /\ getDiskSizeUsage c'
           = total_size (JsMap.set (hashKey key) e (diskCache c))
             - getSize (Entry.value victim)
        /\ evictions (stats c') = evictions (stats c) + 1).
Proof.
intros c e c'. subst c'. rewrite set_run. cbn [snd].
destruct (tiers_ok_new config_options ops) as [Hmem Hdisk]. fold c in Hmem, Hdisk.
pose proof (config_set_state c key value options now) as Hcfg.
unfold config in Hcfg. injection Hcfg as Hmax Hdmax _ _.
split.
- intros Hsmall victim Hhd Hexcess.
  pose proof (getSize_nonneg (Entry.value victim)) as Hpos.
  assert (Hover : maxMemorySize c < total_size (JsMap.set (hashKey key) e (memoryCache c)))
    by lia.
  destruct (set_state_memory_overflows c key value options now Hsmall Hover) as [Hm Hev].
  assert (Hok : tier_ok (JsMap.set (hashKey key) e (memoryCache c)))
    by (apply tier_ok_set; [reflexivity|assumption]).
  unfold getMemorySizeUsage. fold e in Hm. rewrite Hm, Hmax.
  rewrite (evict_head_total _ _ victim Hok Hhd).
  split; [lia|]. split; [reflexivity|exact Hev].
- intros Hbig victim Hhd Hexcess.
  pose proof (getSize_nonneg (Entry.value victim)) as Hpos.
  assert (Hover : maxDiskSize c < total_size (JsMap.set (hashKey key) e (diskCache c)))
    by lia.
  pose proof (set_state_disk_overflows c key value options now Hbig Hover) as Hd.
  pose proof (evictions_disk_overflows c key value options now Hbig Hover) as Hev.
  assert (Hok : tier_ok (JsMap.set (hashKey key) e (diskCache c)))
    by (apply tier_ok_set; [reflexivity|assumption]).
  unfold getDiskSizeUsage. fold e in Hd. rewrite Hd, Hdmax.
  rewrite (evict_head_total _ _ victim Hok Hhd).
  split; [lia|]. split; [reflexivity|exact Hev].
Qed.

End OverBudget.

Lemma set_leaves_tier_over_budget_witness :
  let R := example_runtime in
  let c := run [(OpSet "a" (JNum 11) default_set_options, 1);
                (OpSet "b" (JNum 22) default_set_options, 2);
                (OpSet "c" (JNum 33) default_set_options, 3);
                (OpSet "d" (JNum 44) default_set_options, 4)]
               (new_cache (mk_cache_options None (Some 10) None None None None)) in
  let c' := snd (set "e" (JNum 123456789) default_set_options 5 c) in
  maxMemorySize c' = 10
  /\ getMemorySizeUsage c' = 15
  /\ maxMemorySize c' < getMemorySizeUsage c'
  /\ evictions (stats c') = evictions (stats c) + 1.
Proof.
intros R c c'.
assert (Hsmall : getSize (JNum 123456789) < maxMemorySize c) by (vm_compute; reflexivity).
assert (Hhd : hd_error (sort_by Entry.lastAccess
                          (JsMap.values
                             (JsMap.set (hashKey "e")
                                        (set_entry c "e" (JNum 123456789) default_set_options 5)
                                        (memoryCache c))))
              = Some (set_entry c "a" (JNum 11) default_set_options 1))
  by (vm_compute; reflexivity).
assert (Hexcess : maxMemorySize c
                  < total_size (JsMap.set (hashKey "e")
                                          (set_entry c "e" (JNum 123456789)
                                                     default_set_options 5)
                                          (memoryCache c))
                    - getSize (Entry.value (set_entry c "a" (JNum 11) default_set_options 1)))
  by (vm_compute; reflexivity).
assert (Hmax : maxMemorySize c' = 10) by (vm_compute; reflexivity).
assert (Husage : getMemorySizeUsage c' = 15) by (vm_compute; reflexivity).
destruct (@set_leaves_tier_over_budget example_runtime
            (mk_cache_options None (Some 10) None None None None)
            [(OpSet "a" (JNum 11) default_set_options, 1);
             (OpSet "b" (JNum 22) default_set_options, 2);
             (OpSet "c" (JNum 33) default_set_options, 3);
             (OpSet "d" (JNum 44) default_set_options, 4)]
            "e" (JNum 123456789) default_set_options 5) as [Hmemory _].
destruct (Hmemory Hsmall _ Hhd Hexcess) as (Hover & _ & Hev).
exact (conj Hmax (conj Husage (conj Hover Hev))).
Defined.

Section StaleEntry.
Context {R : Runtime}.

(** C9 (the code departs from the claim).  [set] writes the tier that the
    size of the new value selects and deletes nothing from the other
    tier.  When the memory tier holds a live entry for a key and the key
    is set again with a value whose size reaches [maxMemorySize], the new
    entry goes to the disk tier and the earlier entry stays in the memory
    tier: the hash is in both tier maps, and [get], which looks in the
    memory tier first, still returns the earlier value. *)
Theorem reset_across_threshold_keeps_stale_entry
        (c : cache) (key : string) (value : json) (options : set_options)
        (now t : Z) (e : Entry.t) :
  JsMap.get (hashKey key) (memoryCache c) = Some e ->
  isExpired t e = false ->
  maxMemorySize c <= getSize value ->
  total_size (JsMap.set (hashKey key) (set_entry c key value options now) (diskCache c))
  <= maxDiskSize c ->
  let c' := snd (set key value options now c) in
  JsMap.get (hashKey key) (memoryCache c') = Some e
  /\ JsMap.get (hashKey key) (diskCache c') = Some (set_entry c key value options now)
  /\ JsMap.has (hashKey key) (memoryCache c') = true
  /\ JsMap.has (hashKey key) (diskCache c') = true
  /\ ~ exclusive c'
  /\ fst (get key t c') = Normal (Entry.value e).
Proof.
intros Hget Hlive Hbig Hfit c'. subst c'. rewrite set_run. cbn [snd].
assert (Hmem : JsMap.get (hashKey key) (memoryCache (set_state c key value options now))
               = Some e) by (now rewrite memoryCache_set_state_big).
pose proof (get_set_state_disk c key value options now Hbig Hfit) as Hdisk.
assert (Hm : JsMap.has (hashKey key) (memoryCache (set_state c key value options now)) = true)
  by (unfold JsMap.has; now rewrite Hmem).
assert (Hd : JsMap.has (hashKey key) (diskCache (set_state c key value options now)) = true)
  by (unfold JsMap.has; now rewrite Hdisk).
split; [exact Hmem|]. split; [exact Hdisk|]. split; [exact Hm|]. split; [exact Hd|].
split.
- intros Hex. specialize (Hex _ Hm). rewrite Hd in Hex. discriminate Hex.
- now rewrite (get_memory_hit _ _ _ _ Hmem Hlive).
Qed.

End StaleEntry.

Lemma reset_across_threshold_keeps_stale_entry_witness :
  let R := example_runtime in
  let c := snd (set "k" (JNum 1) default_set_options 1 ten_byte_budget) in
  let c' := snd (set "k" (JStr "0123456789") default_set_options 2 c) in
  JsMap.has (hashKey "k") (memoryCache c') = true
  /\ JsMap.has (hashKey "k") (diskCache c') = true
  /\ ~ exclusive c'
  /\ fst (get "k" 3 c') = Normal (JNum 1)
  /\ JNum 1 <> JStr "0123456789".
Proof.
intros R c c'.
assert (H1 : JsMap.get (hashKey "k") (memoryCache c)
             = Some (set_entry ten_byte_budget "k" (JNum 1) default_set_options 1))
  by (vm_compute; reflexivity).
assert (H2 : isExpired 3 (set_entry ten_byte_budget "k" (JNum 1) default_set_options 1) = false)
  by (vm_compute; reflexivity).
assert (H3 : maxMemorySize c <= getSize (JStr "0123456789"))
  by (vm_compute; intros H; discriminate H).
assert (H4 : total_size (JsMap.set (hashKey "k")
                           (set_entry c "k" (JStr "0123456789") default_set_options 2)
                           (diskCache c))
             <= maxDiskSize c)
  by (vm_compute; intros H; discriminate H).
assert (H5 : JNum 1 <> JStr "0123456789") by (intros H; discriminate H).
destruct (@reset_across_threshold_keeps_stale_entry example_runtime c "k"
            (JStr "0123456789") default_set_options 2 3 _ H1 H2 H3 H4)
  as (_ & _ & Hm & Hd & Hex & Hstale).
exact (conj Hm (conj Hd (conj Hex (conj Hstale H5)))).
Defined.
